(** * The MIME decoder of the temporary-mailbox worker (email.js, utils.js)

    A shallow embedding of the mail parser: [parseMimeEmail], [parseHeaders],
    [decodeMimeHeader], [extractCharset], [getTextDecoder], [decodeBase64],
    [decodeBase64ToBinary], [decodeQuotedPrintable], [parseBody],
    [parseMultipart], [decodeContent] and, from utils.js, [htmlToText]; and
    of what the worker does around it: [handleEmail], the helpers
    [getDomains], [generatePrefix], [isAllowedDomain], [parseEmailAddress],
    [extractPreview], [getClientIP], [checkRateLimit] and
    [rateLimitResponse] of utils.js, and [cleanupOldEmails] of index.js.

    A JavaScript string is the list of its UTF-16 code units, a number is an
    integer, an object used as a dictionary is the finite map of its own
    properties.  Every regular expression of the source is written out as
    the matcher it denotes; the functions of the engine the source calls
    ([atob], [TextDecoder], [TextEncoder], [trim], [split], ...) follow
    ECMAScript and the WHATWG standards. *)

From Stdlib Require Import ZArith List String Ascii Bool Lia.
From stdpp Require Import gmap list.

Open Scope Z_scope.

(** ** Strings *)

Abbreviation jsstring := (list Z).

Definition cu (a : ascii) : Z := Z.of_N (N_of_ascii a).

(** A literal of the source, one code unit per character. *)
Definition lit (s : string) : jsstring := map cu (list_ascii_of_string s).

Definition CR : Z := 13.
Definition LF : Z := 10.
Definition CRLF : jsstring := [CR; LF].

Definition jsstring_eqb (a b : jsstring) : bool := bool_decide (a = b).

(** Truthiness of a string: only the empty one is falsy. *)
Definition truthy (s : jsstring) : bool :=
  match s with [] => false | _ => true end.

(** [a || b] on strings. *)
Definition orElse (a b : jsstring) : jsstring :=
  if truthy a then a else b.

(** [s.startsWith(p)] *)
Fixpoint startsWith (s p : jsstring) {struct p} : bool :=
  match p, s with
  | [], _ => true
  | _ :: _, [] => false
  | a :: p', b :: s' => (a =? b) && startsWith s' p'
  end.

(** The first position at which [p] occurs in [s]. *)
Fixpoint search (s p : jsstring) : option nat :=
  if startsWith s p then Some 0%nat
  else match s with
       | [] => None
       | _ :: s' => S <$> search s' p
       end.

(** [s.indexOf(p)], -1 when there is no occurrence. *)
Definition indexOf (s p : jsstring) : Z :=
  match search s p with
  | Some i => Z.of_nat i
  | None => -1
  end.

(** [s.includes(p)] *)
Definition includes (s p : jsstring) : bool :=
  match search s p with Some _ => true | None => false end.

(** [s.substring(a, b)]: both ends are clamped to the string and swapped
    when they come in the wrong order. *)
Definition substring (s : jsstring) (a b : Z) : jsstring :=
  let n := Z.of_nat (length s) in
  let a' := Z.min (Z.max a 0) n in
  let b' := Z.min (Z.max b 0) n in
  let lo := Z.min a' b' in
  let hi := Z.max a' b' in
  take (Z.to_nat (hi - lo)) (drop (Z.to_nat lo) s).

(** [s.substring(a)] *)
Definition substringFrom (s : jsstring) (a : Z) : jsstring :=
  substring s a (Z.of_nat (length s)).

(** The class [\s] of regular expressions, which is also what [trim]
    removes: WhiteSpace and LineTerminator of ECMAScript. *)
Definition isSpace (c : Z) : bool :=
  ((9 <=? c) && (c <=? 13)) || (c =? 32) || (c =? 160) || (c =? 5760)
  || ((8192 <=? c) && (c <=? 8202)) || (c =? 8232) || (c =? 8233)
  || (c =? 8239) || (c =? 8287) || (c =? 12288) || (c =? 65279).

Fixpoint trimStart (s : jsstring) : jsstring :=
  match s with
  | [] => []
  | c :: s' => if isSpace c then trimStart s' else s
  end.

Definition trimEnd (s : jsstring) : jsstring := rev (trimStart (rev s)).

(** [s.trim()] *)
Definition trim (s : jsstring) : jsstring := trimEnd (trimStart s).

(** [s.split(sep)] for a string separator.  [fuel] bounds the number of
    separators found; [split] gives as many as the string has units. *)
Fixpoint split_fuel (fuel : nat) (s sep : jsstring) : list jsstring :=
  match fuel with
  | O => [s]
  | S fuel' =>
      match search s sep with
      | None => [s]
      | Some i =>
          take i s :: split_fuel fuel' (drop (i + length sep)%nat s) sep
      end
  end.

Definition split (s sep : jsstring) : list jsstring :=
  match sep with
  | [] => map (fun c => [c]) s
  | _ => split_fuel (length s) s sep
  end.

(** [parts.join(sep)] *)
Fixpoint join (sep : jsstring) (l : list jsstring) : jsstring :=
  match l with
  | [] => []
  | [x] => x
  | x :: l' => x ++ sep ++ join sep l'
  end.

(** [s.replace(re, ...)] with a global regular expression.  [m] is the
    matcher of the expression at the head of a string: the replacement text
    and the number of units matched, at least one for every expression of
    the program.  After a match the scan resumes behind it; where nothing
    matches the unit is copied. *)
Fixpoint replace_go (m : jsstring -> option (jsstring * nat))
    (skip : nat) (s : jsstring) : jsstring :=
  match s with
  | [] => []
  | c :: s' =>
      match skip with
      | S k => replace_go m k s'
      | O =>
          match m s with
          | Some (r, n) => r ++ replace_go m (Nat.pred n) s'
          | None => c :: replace_go m 0 s'
          end
      end
  end.

Definition replaceAll (m : jsstring -> option (jsstring * nat))
    (s : jsstring) : jsstring :=
  replace_go m 0 s.

(** The matcher of a literal pattern [p], replaced by [r]. *)
Definition literally (p r : jsstring) (s : jsstring)
  : option (jsstring * nat) :=
  if startsWith s p then Some (r, length p) else None.

(** Letters of Basic Latin. *)
Definition isUpper (c : Z) : bool := (65 <=? c) && (c <=? 90).
Definition isLower (c : Z) : bool := (97 <=? c) && (c <=? 122).
Definition isDigit (c : Z) : bool := (48 <=? c) && (c <=? 57).

Definition asciiLower (c : Z) : Z := if isUpper c then c + 32 else c.
Definition asciiUpper (c : Z) : Z := if isLower c then c - 32 else c.

(** A pattern letter under the flag [i] (without [u]) matches exactly its
    two Basic Latin forms: the canonical form of a unit beyond Basic Latin
    is never a Basic Latin letter. *)
Definition eqCI (a b : Z) : bool :=
  (a <? 128) && (b <? 128) && (asciiLower a =? asciiLower b).

Fixpoint startsWithCI (s p : jsstring) {struct p} : bool :=
  match p, s with
  | [], _ => true
  | _ :: _, [] => false
  | a :: p', b :: s' => eqCI a b && startsWithCI s' p'
  end.

(** ** What the engine supplies

    Two tables of the engine are not part of the program and are taken as
    they come: the lower-case mapping of the units beyond Basic Latin, and
    the index tables of the legacy decoders. *)

Class Engine := {
  (** [String.prototype.toLowerCase] on one unit beyond Basic Latin *)
  unicodeLower : Z -> jsstring;
  (** lower-casing never yields a capital of Basic Latin *)
  unicodeLower_not_upper :
    forall c d, 128 <= c -> In d (unicodeLower c) -> isUpper d = false;
  (** [new TextDecoder(label).decode(bytes)] for a label other than utf-8 *)
  legacyDecode : jsstring -> list Z -> jsstring
}.

(** [s.toLowerCase()], unit by unit. *)
Definition toLowerCase `{Engine} (s : jsstring) : jsstring :=
  flat_map (fun c => if c <? 128 then [asciiLower c] else unicodeLower c) s.

(** [s.toUpperCase()] as the program uses it, on the single letter an
    encoded word carries. *)
Definition toUpperCase (s : jsstring) : jsstring := map asciiUpper s.

(** *** Base64 ([atob]) *)

Definition isAsciiWhitespace (c : Z) : bool :=
  (c =? 9) || (c =? 10) || (c =? 12) || (c =? 13) || (c =? 32).

(** The value of a unit of the base64 alphabet. *)
Definition b64val (c : Z) : option Z :=
  if isUpper c then Some (c - 65)
  else if isLower c then Some (c - 97 + 26)
  else if isDigit c then Some (c - 48 + 52)
  else if c =? 43 then Some 62
  else if c =? 47 then Some 63
  else None.

Fixpoint b64vals (s : jsstring) : option (list Z) :=
  match s with
  | [] => Some []
  | c :: s' =>
      match b64val c, b64vals s' with
      | Some v, Some vs => Some (v :: vs)
      | _, _ => None
      end
  end.

(** Four sextets give three bytes; a rest of two or three sextets gives one
    or two bytes, the bits left over are dropped. *)
Fixpoint b64bytes (vs : list Z) : list Z :=
  match vs with
  | a :: b :: c :: d :: vs' =>
      let n := Z.lor (Z.shiftl a 18)
                 (Z.lor (Z.shiftl b 12) (Z.lor (Z.shiftl c 6) d)) in
      Z.land (Z.shiftr n 16) 255 :: Z.land (Z.shiftr n 8) 255
        :: Z.land n 255 :: b64bytes vs'
  | [a; b; c] =>
      let n := Z.lor (Z.shiftl a 12) (Z.lor (Z.shiftl b 6) c) in
      [Z.land (Z.shiftr n 10) 255; Z.land (Z.shiftr n 2) 255]
  | [a; b] =>
      let n := Z.lor (Z.shiftl a 6) b in
      [Z.land (Z.shiftr n 4) 255]
  | _ => []
  end.

(** One or two padding signs at the end of the data. *)
Definition stripPadding (s : jsstring) : jsstring :=
  match rev s with
  | c :: r =>
      if c =? cu "=" then
        match r with
        | d :: r' => if d =? cu "=" then rev r' else rev r
        | [] => rev r
        end
      else s
  | [] => s
  end.

(** [atob(s)]: the forgiving base64 decoding of the WHATWG standard.  [None]
    stands for the exception the engine throws. *)
Definition atob (s : jsstring) : option jsstring :=
  let d := filter (fun c => negb (isAsciiWhitespace c)) s in
  let d := if Z.of_nat (length d) mod 4 =? 0 then stripPadding d else d in
  if Z.of_nat (length d) mod 4 =? 1 then None
  else b64bytes <$> b64vals d.

(** *** UTF-8 ([TextDecoder], [TextEncoder]) *)

(** The decoder between two characters, reading the byte [b]: the character
    it emits, if any, and the character under construction with the number
    of bytes it still needs and the bounds of the next byte. *)
Definition utf8_lead (b : Z) : option Z * (Z * Z * Z * Z) :=
  if b <=? 127 then (Some b, (0, 0, 128, 191))
  else if (194 <=? b) && (b <=? 223) then
    (None, (Z.land b 31, 1, 128, 191))
  else if (224 <=? b) && (b <=? 239) then
    (None, (Z.land b 15, 2,
            (if b =? 224 then 160 else 128), (if b =? 237 then 159 else 191)))
  else if (240 <=? b) && (b <=? 244) then
    (None, (Z.land b 7, 3,
            (if b =? 240 then 144 else 128), (if b =? 244 then 143 else 191)))
  else (Some 65533, (0, 0, 128, 191)).

Definition emit (o : option Z) (l : list Z) : list Z :=
  match o with Some c => c :: l | None => l end.

(** The code points of a byte sequence; a malformed sequence gives U+FFFD
    and its offending byte is read again. *)
Fixpoint utf8_points (bs : list Z) (st : Z * Z * Z * Z) : list Z :=
  let '(cp, needed, lo, hi) := st in
  match bs with
  | [] => if needed =? 0 then [] else [65533]
  | b :: bs' =>
      if needed =? 0 then
        let (e, st') := utf8_lead b in emit e (utf8_points bs' st')
      else if (lo <=? b) && (b <=? hi) then
        let cp' := Z.lor (Z.shiftl cp 6) (Z.land b 63) in
        if needed =? 1 then cp' :: utf8_points bs' (0, 0, 128, 191)
        else utf8_points bs' (cp', needed - 1, 128, 191)
      else
        let (e, st') := utf8_lead b in
        65533 :: emit e (utf8_points bs' st')
  end.

(** A code point as UTF-16 code units. *)
Definition utf16_units (cp : Z) : jsstring :=
  if cp <? 65536 then [cp]
  else [55296 + Z.shiftr (cp - 65536) 10; 56320 + Z.land (cp - 65536) 1023].

(** A byte order mark at the head of the text is not part of it. *)
Definition dropBOM (cps : list Z) : list Z :=
  match cps with
  | c :: cps' => if c =? 65279 then cps' else cps
  | [] => []
  end.

Definition utf8_decode (bs : list Z) : jsstring :=
  flat_map utf16_units (dropBOM (utf8_points bs (0, 0, 128, 191))).

(** The code points of a string: a surrogate pair is one code point, a
    surrogate on its own is U+FFFD. *)
Fixpoint codePoints (s : jsstring) : list Z :=
  match s with
  | [] => []
  | c :: s' =>
      if (55296 <=? c) && (c <=? 56319) then
        match s' with
        | d :: s'' =>
            if (56320 <=? d) && (d <=? 57343) then
              (65536 + Z.shiftl (c - 55296) 10 + (d - 56320)) :: codePoints s''
            else 65533 :: codePoints s'
        | [] => [65533]
        end
      else if (56320 <=? c) && (c <=? 57343) then 65533 :: codePoints s'
      else c :: codePoints s'
  end.

Definition utf8_bytes (cp : Z) : list Z :=
  if cp <? 128 then [cp]
  else if cp <? 2048 then
    [192 + Z.shiftr cp 6; 128 + Z.land cp 63]
  else if cp <? 65536 then
    [224 + Z.shiftr cp 12; 128 + Z.land (Z.shiftr cp 6) 63;
     128 + Z.land cp 63]
  else
    [240 + Z.shiftr cp 18; 128 + Z.land (Z.shiftr cp 12) 63;
     128 + Z.land (Z.shiftr cp 6) 63; 128 + Z.land cp 63].

(** [new TextEncoder().encode(s)] *)
Definition TextEncoder_encode (s : jsstring) : list Z :=
  flat_map utf8_bytes (codePoints s).

(** [new Uint8Array(values)]: every value is stored modulo 256. *)
Definition Uint8Array (vs : list Z) : list Z := map (fun v => v mod 256) vs.

(** [new TextDecoder(label).decode(bytes)] *)
Definition TextDecoder_decode `{Engine} (label : jsstring) (bs : list Z)
  : jsstring :=
  if jsstring_eqb label (lit "utf-8") then utf8_decode bs
  else legacyDecode label bs.

(** ** Pieces of regular expressions *)

(** The longest prefix whose units all satisfy [p]: a greedy class. *)
Fixpoint takeWhile (p : Z -> bool) (s : jsstring) : jsstring :=
  match s with
  | [] => []
  | c :: s' => if p c then c :: takeWhile p s' else []
  end.

(** The first position at which [p] occurs in [s], letters compared without
    regard to case. *)
Fixpoint searchCI (s p : jsstring) : option nat :=
  if startsWithCI s p then Some 0%nat
  else match s with
       | [] => None
       | _ :: s' => S <$> searchCI s' p
       end.

(** [/^\s/.test(line)] *)
Definition startsWithSpace (line : jsstring) : bool :=
  match line with
  | c :: _ => isSpace c
  | [] => false
  end.

(** [s.split(/\r?\n/)] *)
Fixpoint splitLines_go (cur s : jsstring) : list jsstring :=
  match s with
  | [] => [cur]
  | c :: s' =>
      if c =? LF then cur :: splitLines_go [] s'
      else if c =? CR then
        match s' with
        | d :: s'' =>
            if d =? LF then cur :: splitLines_go [] s''
            else splitLines_go (cur ++ [c]) s'
        | [] => splitLines_go (cur ++ [c]) s'
        end
      else splitLines_go (cur ++ [c]) s'
  end.

Definition splitLines (s : jsstring) : list jsstring := splitLines_go [] s.

(** [mimeRegex] at the head of [s]: [=?], one or more units other than [?],
    [?], one of the letters B and Q in either case, [?], any number of units
    other than [?], and [?=].  The result is the charset, the letter of the
    encoding, the text, and the length of the whole token. *)
Definition matchEncodedWord (s : jsstring)
  : option (jsstring * Z * jsstring * nat) :=
  if startsWith s (lit "=?") then
    let s1 := drop 2 s in
    let charset := takeWhile (fun c => negb (c =? cu "?")) s1 in
    let s2 := drop (length charset) s1 in
    match charset, s2 with
    | _ :: _, q1 :: e :: q2 :: s3 =>
        if (q1 =? cu "?") && (q2 =? cu "?")
           && ((asciiUpper e =? cu "B") || (asciiUpper e =? cu "Q")) then
          let text := takeWhile (fun c => negb (c =? cu "?")) s3 in
          if startsWith (drop (length text) s3) (lit "?=") then
            Some (charset, e, text, (length charset + length text + 7)%nat)
          else None
        else None
    | _, _ => None
    end
  else None.

(** [/=\r?\n/] at the head of [s], replaced by nothing. *)
Definition softBreak (s : jsstring) : option (jsstring * nat) :=
  if startsWith s (cu "=" :: CRLF) then Some ([], 3%nat)
  else if startsWith s [cu "="; LF] then Some ([], 2%nat)
  else None.

(** A single unit of the class [p] at the head of [s], replaced by [r]. *)
Definition oneOf (p : Z -> bool) (r : jsstring) (s : jsstring)
  : option (jsstring * nat) :=
  match s with
  | c :: _ => if p c then Some (r, 1%nat) else None
  | [] => None
  end.

(** [/^[0-9A-Fa-f]{2}$/.test(hex)] *)
Definition isHexDigit (c : Z) : bool :=
  isDigit c || ((65 <=? c) && (c <=? 70)) || ((97 <=? c) && (c <=? 102)).

Definition isHexPair (hex : jsstring) : bool :=
  match hex with
  | [a; b] => isHexDigit a && isHexDigit b
  | _ => false
  end.

Definition hexval (c : Z) : Z :=
  if isDigit c then c - 48
  else if (65 <=? c) && (c <=? 70) then c - 55
  else c - 87.

(** [parseInt(hex, 16)] on a pair of hexadecimal digits. *)
Definition parseInt16 (hex : jsstring) : Z :=
  fold_left (fun acc c => 16 * acc + hexval c) hex 0.

(** The double and the single quote. *)
Definition isQuote (c : Z) : bool := (c =? 34) || (c =? 39).

(** The expressions for [charset=], [boundary=] and [filename=] at the head
    of [s]: the name without regard to case, an optional quote, and the
    captured group, one or more units outside the class [stop], which holds
    both quotes.  The optional quote is taken when it is there; giving it
    back cannot help, the group would have to start with it. *)
Definition matchParamAt (name : jsstring) (stop : Z -> bool) (s : jsstring)
  : option jsstring :=
  if startsWithCI s name then
    let r := drop (length name) s in
    let r' := match r with
              | c :: r1 => if isQuote c then r1 else r
              | [] => r
              end in
    match takeWhile (fun c => negb (stop c)) r' with
    | [] => None
    | v => Some v
    end
  else None.

(** [s.match(...)] with such an expression: the group of the first match. *)
Fixpoint matchParam (name : jsstring) (stop : Z -> bool) (s : jsstring)
  : option jsstring :=
  match matchParamAt name stop s with
  | Some v => Some v
  | None =>
      match s with
      | [] => None
      | _ :: s' => matchParam name stop s'
      end
  end.

(** The class excluded from a charset or a boundary (quotes, semicolon,
    white space) and from a file name (quotes, semicolon, CR, LF). *)
Definition stopToken (c : Z) : bool :=
  isQuote c || (c =? cu ";") || isSpace c.
Definition stopFilename (c : Z) : bool :=
  isQuote c || (c =? cu ";") || (c =? CR) || (c =? LF).

(** [s.replace(/\r\n$/, empty)] *)
Definition dropFinalCRLF (s : jsstring) : jsstring :=
  match rev s with
  | b :: a :: r => if (a =? CR) && (b =? LF) then rev r else s
  | _ => s
  end.

(** The expression for a style or script block at the head of [s]: [open]
    without regard to case, any number of units other than [>], [>], the
    shortest text that is followed by [close], and [close] without regard to
    case.  It is replaced by nothing. *)
Definition block (open close : jsstring) (s : jsstring)
  : option (jsstring * nat) :=
  if startsWithCI s open then
    let r := drop (length open) s in
    let attrs := takeWhile (fun c => negb (c =? cu ">")) r in
    match drop (length attrs) r with
    | _ :: inner =>
        match searchCI inner close with
        | Some k =>
            Some ([], (length open + length attrs + 1 + k + length close)%nat)
        | None => None
        end
    | [] => None
    end
  else None.

(** [/<[^>]+>/] at the head of [s], replaced by one space. *)
Definition tag (s : jsstring) : option (jsstring * nat) :=
  match s with
  | c :: r =>
      if c =? cu "<" then
        match takeWhile (fun c => negb (c =? cu ">")) r with
        | [] => None
        | v => match drop (length v) r with
               | _ :: _ => Some ([cu " "], (length v + 2)%nat)
               | [] => None
               end
        end
      else None
  | [] => None
  end.

(** [/\s+/] at the head of [s], replaced by one space. *)
Definition spaces (s : jsstring) : option (jsstring * nat) :=
  match takeWhile isSpace s with
  | [] => None
  | v => Some ([cu " "], length v)
  end.

(** ** The parser (email.js) *)

Record Part := {
  part_headers : gmap jsstring jsstring;
  part_body : jsstring
}.

Record Attachment := {
  filename : jsstring;
  contentType : jsstring;
  content : list Z;
  size : Z
}.

Record Body := {
  textContent : jsstring;
  htmlContent : jsstring;
  attachments : list Attachment
}.

Record ParsedEmail := {
  headers : gmap jsstring jsstring;
  email_body : Body;
  rawEmail : jsstring
}.

(** The state of the loop of [parseHeaders]. *)
Record HeaderState := {
  hs_headers : gmap jsstring jsstring;
  currentKey : jsstring;
  currentValue : jsstring
}.

Section Parser.
Context `{Engine}.

(** [obj[key] || dflt] *)
Definition getOr (m : gmap jsstring jsstring) (key : string)
    (dflt : jsstring) : jsstring :=
  orElse (default [] (m !! lit key)) dflt.

(** The constant [decoderCharset] of [getTextDecoder]. *)
Definition charsetMap : gmap jsstring jsstring :=
  <[lit "gbk" := lit "gbk"]>
  (<[lit "gb2312" := lit "gbk"]>
  (<[lit "gb18030" := lit "gb18030"]>
  (<[lit "big5" := lit "big5"]>
  (<[lit "iso88591" := lit "iso-8859-1"]>
  (<[lit "iso-8859-1" := lit "iso-8859-1"]>
  (<[lit "windows1252" := lit "windows-1252"]>
  (<[lit "windows-1252" := lit "windows-1252"]>
  (<[lit "utf8" := lit "utf-8"]>
  (<[lit "utf-8" := lit "utf-8"]> ∅))))))))).

(** The class kept by [normalizedCharset]: a to z, 0 to 9 and the hyphen. *)
Definition isLabelUnit (c : Z) : bool :=
  isLower c || isDigit c || (c =? cu "-").

Definition normalizedCharset (charset : jsstring) : jsstring :=
  replaceAll (oneOf (fun c => negb (isLabelUnit c)) [])
    (toLowerCase (orElse charset (lit "utf-8"))).

(** [getTextDecoder(charset)]: the label of the decoder it returns.  Every
    label of [charsetMap] names an encoding of the standard, so the
    constructor does not throw; an inherited property of the object literal
    makes it throw, and the handler gives utf-8 as for an unknown label. *)
Definition getTextDecoder (charset : jsstring) : jsstring :=
  orElse (default [] (charsetMap !! normalizedCharset charset)) (lit "utf-8").

(** [decodeBase64(str, charset)] *)
Definition decodeBase64 (str charset : jsstring) : jsstring :=
  match atob (replaceAll (oneOf isSpace []) str) with
  | Some binary =>
      TextDecoder_decode (getTextDecoder charset) (Uint8Array binary)
  | None => str
  end.

(** [decodeBase64ToBinary(str)] *)
Definition decodeBase64ToBinary (str : jsstring) : list Z :=
  let cleaned := replaceAll (oneOf isSpace []) str in
  match atob cleaned with
  | Some binary => Uint8Array binary
  | None => TextEncoder_encode str
  end.

(** The loop of [decodeQuotedPrintable] over [cleaned], from index [i] with
    the bytes collected so far; [fuel] bounds the number of rounds. *)
Fixpoint qp_loop (fuel : nat) (cleaned : jsstring) (i : Z) (bytes : list Z)
  : list Z :=
  match fuel with
  | O => bytes
  | S fuel' =>
      if i <? Z.of_nat (length cleaned) then
        if (nth (Z.to_nat i) cleaned 0 =? cu "=")
           && (i + 2 <? Z.of_nat (length cleaned)) then
          let hex := substring cleaned (i + 1) (i + 3) in
          if isHexPair hex then
            qp_loop fuel' cleaned (i + 3) (bytes ++ [parseInt16 hex])
          else
            qp_loop fuel' cleaned (i + 1)
              (bytes ++ [nth (Z.to_nat i) cleaned 0])
        else
          qp_loop fuel' cleaned (i + 1)
            (bytes ++ [nth (Z.to_nat i) cleaned 0])
      else bytes
  end.

(** The array [bytes] of [decodeQuotedPrintable] when the loop is left. *)
Definition qp_bytes (str : jsstring) : list Z :=
  let cleaned := replaceAll softBreak str in
  qp_loop (length cleaned) cleaned 0 [].

(** [decodeQuotedPrintable(str, charset)] *)
Definition decodeQuotedPrintable (str charset : jsstring) : jsstring :=
  TextDecoder_decode (getTextDecoder charset) (Uint8Array (qp_bytes str)).

(** The callback of [decodeMimeHeader] on one token.  The two decoders
    handle their own failures and do not throw. *)
Definition decodeWord (whole charset : jsstring) (encoding : Z)
    (text : jsstring) : jsstring :=
  if jsstring_eqb (toUpperCase [encoding]) (lit "B") then
    decodeBase64 text charset
  else if jsstring_eqb (toUpperCase [encoding]) (lit "Q") then
    decodeQuotedPrintable
      (replaceAll (literally (lit "_") (lit " ")) text) charset
  else whole.

Definition encodedWord (s : jsstring) : option (jsstring * nat) :=
  match matchEncodedWord s with
  | Some (charset, encoding, text, n) =>
      Some (decodeWord (take n s) charset encoding text, n)
  | None => None
  end.

(** [decodeMimeHeader(str)] *)
Definition decodeMimeHeader (str : jsstring) : jsstring :=
  if negb (truthy str) then [] else replaceAll encodedWord str.

(** [extractCharset(contentType)]; [None] is [undefined]. *)
Definition extractCharset (contentType : option jsstring) : jsstring :=
  match contentType with
  | None => lit "utf-8"
  | Some ct =>
      if negb (truthy ct) then lit "utf-8"
      else default (lit "utf-8") (matchParam (lit "charset=") stopToken ct)
  end.

(** The assignment [headers[currentKey.toLowerCase()] = ...], done when
    [currentKey] is not empty.  [headers] is an object literal: under the
    name __proto__ the assignment runs the setter the object inherits, which
    ignores a string, and no property is stored; under every other name the
    object gets or keeps a property of its own. *)
Definition flush (st : HeaderState) : gmap jsstring jsstring :=
  if truthy (currentKey st) then
    if jsstring_eqb (toLowerCase (currentKey st)) (lit "__proto__")
    then hs_headers st
    else
      <[toLowerCase (currentKey st) := decodeMimeHeader (currentValue st)]>
        (hs_headers st)
  else hs_headers st.

(** One round of the loop of [parseHeaders]. *)
Definition parseHeaders_step (st : HeaderState) (line : jsstring)
  : HeaderState :=
  if startsWithSpace line then
    {| hs_headers := hs_headers st;
       currentKey := currentKey st;
       currentValue := currentValue st ++ lit " " ++ trim line |}
  else
    let colonIndex := indexOf line (lit ":") in
    if colonIndex >? 0 then
      {| hs_headers := flush st;
         currentKey := trim (substring line 0 colonIndex);
         currentValue := trim (substringFrom line (colonIndex + 1)) |}
    else
      {| hs_headers := flush st;
         currentKey := currentKey st;
         currentValue := currentValue st |}.

Definition parseHeaders_lines (lines : list jsstring) : HeaderState :=
  fold_left parseHeaders_step lines
    {| hs_headers := ∅; currentKey := []; currentValue := [] |}.

(** [parseHeaders(headersRaw)] *)
Definition parseHeaders (headersRaw : jsstring) : gmap jsstring jsstring :=
  flush (parseHeaders_lines (splitLines headersRaw)).

(** [decodeContent(content, transferEncoding, charset)] *)
Definition decodeContent (content transferEncoding charset : jsstring)
  : jsstring :=
  if negb (truthy content) then []
  else
    let encoding := toLowerCase (orElse transferEncoding []) in
    if includes encoding (lit "base64") then decodeBase64 content charset
    else if includes encoding (lit "quoted-printable") then
      decodeQuotedPrintable content charset
    else content.

(** One section of [parseMultipart]: the part it gives, if any. *)
Definition parseSection (raw : jsstring) : option Part :=
  let section := trim raw in
  if startsWith section (lit "--") || negb (truthy section) then None
  else
    let headerEndIndex := indexOf section (CRLF ++ CRLF) in
    if headerEndIndex =? -1 then None
    else
      Some {| part_headers := parseHeaders (substring section 0 headerEndIndex);
              part_body :=
                dropFinalCRLF (substringFrom section (headerEndIndex + 4)) |}.

(** [parseMultipart(body, boundary)]: the loop starts at the second
    section. *)
Definition parseMultipart (body boundary : jsstring) : list Part :=
  let boundaryDelimiter := lit "--" ++ boundary in
  let sections := split body boundaryDelimiter in
  omap parseSection (drop 1 sections).

(** The attachment [parseBody] pushes for a part whose disposition holds
    the word attachment. *)
Definition attachmentOf (partType disposition transferEncoding body : jsstring)
  : Attachment :=
  let filenameMatch := matchParam (lit "filename=") stopFilename disposition in
  let encoding := toLowerCase (orElse transferEncoding []) in
  let content :=
    if includes encoding (lit "base64") then decodeBase64ToBinary body
    else if includes encoding (lit "quoted-printable") then
      TextEncoder_encode (decodeQuotedPrintable body (lit "utf-8"))
    else TextEncoder_encode body in
  {| filename := decodeMimeHeader (default (lit "attachment") filenameMatch);
     contentType := trim (hd [] (split partType (lit ";")));
     content := content;
     size := Z.of_nat (length content) |}.

(** One round of the inner loop of [parseBody], over the parts of a nested
    multipart. *)
Definition parseBody_nested (acc : Body) (nested : Part) : Body :=
  let nestedType :=
    toLowerCase (getOr (part_headers nested) "content-type" []) in
  let nestedEncoding :=
    getOr (part_headers nested) "content-transfer-encoding" [] in
  let nestedCharset :=
    extractCharset (part_headers nested !! lit "content-type") in
  if includes nestedType (lit "text/html") then
    {| textContent := textContent acc;
       htmlContent := decodeContent (part_body nested) nestedEncoding nestedCharset;
       attachments := attachments acc |}
  else if includes nestedType (lit "text/plain") then
    {| textContent := decodeContent (part_body nested) nestedEncoding nestedCharset;
       htmlContent := htmlContent acc;
       attachments := attachments acc |}
  else acc.

(** One round of the loop of [parseBody] over the parts. *)
Definition parseBody_part (acc : Body) (part : Part) : Body :=
  let partType := toLowerCase (getOr (part_headers part) "content-type" []) in
  let disposition :=
    toLowerCase (getOr (part_headers part) "content-disposition" []) in
  let transferEncoding :=
    getOr (part_headers part) "content-transfer-encoding" [] in
  if includes disposition (lit "attachment") then
    {| textContent := textContent acc;
       htmlContent := htmlContent acc;
       attachments :=
         attachments acc
           ++ [attachmentOf partType disposition transferEncoding
                 (part_body part)] |}
  else if includes partType (lit "text/html") then
    let charset := extractCharset (part_headers part !! lit "content-type") in
    {| textContent := textContent acc;
       htmlContent := decodeContent (part_body part) transferEncoding charset;
       attachments := attachments acc |}
  else if includes partType (lit "text/plain") then
    let charset := extractCharset (part_headers part !! lit "content-type") in
    {| textContent := decodeContent (part_body part) transferEncoding charset;
       htmlContent := htmlContent acc;
       attachments := attachments acc |}
  else if includes partType (lit "multipart") then
    match matchParam (lit "boundary=") stopToken partType with
    | Some nestedBoundary =>
        fold_left parseBody_nested
          (parseMultipart (part_body part) nestedBoundary) acc
    | None => acc
    end
  else acc.

Definition emptyBody : Body :=
  {| textContent := []; htmlContent := []; attachments := [] |}.

(** [parseBody(bodyRaw, contentType, transferEncoding)] *)
Definition parseBody (bodyRaw contentType transferEncoding : jsstring)
  : Body :=
  let contentTypeLower := toLowerCase contentType in
  if includes contentTypeLower (lit "multipart") then
    match matchParam (lit "boundary=") stopToken contentType with
    | Some boundary =>
        fold_left parseBody_part (parseMultipart bodyRaw boundary) emptyBody
    | None => emptyBody
    end
  else if includes contentTypeLower (lit "text/html") then
    let charset := extractCharset (Some contentType) in
    {| textContent := [];
       htmlContent := decodeContent bodyRaw transferEncoding charset;
       attachments := [] |}
  else
    let charset := extractCharset (Some contentType) in
    {| textContent := decodeContent bodyRaw transferEncoding charset;
       htmlContent := [];
       attachments := [] |}.

(** The two blocks [parseMimeEmail] cuts the message into. *)
Definition headersRaw (rawEmail : jsstring) : jsstring :=
  let headerEndIndex := indexOf rawEmail (CRLF ++ CRLF) in
  if headerEndIndex >? 0 then substring rawEmail 0 headerEndIndex
  else rawEmail.

Definition bodyRaw (rawEmail : jsstring) : jsstring :=
  let headerEndIndex := indexOf rawEmail (CRLF ++ CRLF) in
  if headerEndIndex >? 0 then substringFrom rawEmail (headerEndIndex + 4)
  else [].

(** [parseMimeEmail(message)], on the text of [message.raw]. *)
Definition parseMimeEmail (rawEmail : jsstring) : ParsedEmail :=
  let headers := parseHeaders (headersRaw rawEmail) in
  let contentType := getOr headers "content-type" (lit "text/plain") in
  let transferEncoding := getOr headers "content-transfer-encoding" [] in
  {| headers := headers;
     email_body := parseBody (bodyRaw rawEmail) contentType transferEncoding;
     rawEmail := rawEmail |}.

End Parser.

(** ** The fallback from HTML to text (utils.js) *)

(** [htmlToText(html)] *)
Definition htmlToText (html : jsstring) : jsstring :=
  if negb (truthy html) then []
  else
    let s := replaceAll (block (lit "<style") (lit "</style>")) html in
    let s := replaceAll (block (lit "<script") (lit "</script>")) s in
    let s := replaceAll tag s in
    let s := replaceAll (literally (lit "&nbsp;") (lit " ")) s in
    let s := replaceAll (literally (lit "&amp;") (lit "&")) s in
    let s := replaceAll (literally (lit "&lt;") (lit "<")) s in
    let s := replaceAll (literally (lit "&gt;") (lit ">")) s in
    let s := replaceAll (literally (lit "&quot;") [34]) s in
    let s := replaceAll spaces s in
    trim s.

(** ** An engine to run the parser on

    On texts of Basic Latin and bytes of UTF-8 the two tables are never
    consulted; this engine leaves a unit beyond Basic Latin as it is, unless
    it is a capital of Latin-1, and reads a legacy encoding byte per unit. *)

Definition plainLower (c : Z) : jsstring :=
  if ((192 <=? c) && (c <=? 214)) || ((216 <=? c) && (c <=? 222))
  then [c + 32] else [c].

Definition plainLower_not_upper c d :
  128 <= c -> In d (plainLower c) -> isUpper d = false.
Proof.
  unfold plainLower, isUpper.
  destruct (_ || _) eqn:E; intros Hc [<- | []]; lia.
Qed.

#[export] Instance plainEngine : Engine := {|
  unicodeLower := plainLower;
  unicodeLower_not_upper := plainLower_not_upper;
  legacyDecode := fun _ bs => bs
|}.

(** ** Notions the statements use *)

(** One string lies inside another. *)
Definition infix (t s : jsstring) : Prop := exists x y, s = x ++ t ++ y.

(** The quoted-printable decoding in the words of the specification: the
    text without its soft line breaks, an equals sign followed by LF or by
    CR and LF, ... *)
Fixpoint removeSoftLineBreaks (s : jsstring) : jsstring :=
  match s with
  | [] => []
  | c :: s1 =>
      if c =? cu "=" then
        match s1 with
        | d :: s2 =>
            if d =? LF then removeSoftLineBreaks s2
            else if d =? CR then
              match s2 with
              | e :: s3 =>
                  if e =? LF then removeSoftLineBreaks s3
                  else c :: removeSoftLineBreaks s1
              | [] => c :: removeSoftLineBreaks s1
              end
            else c :: removeSoftLineBreaks s1
        | [] => [c]
        end
      else c :: removeSoftLineBreaks s1
  end.

(** ... and the scan of what remains from left to right: an equals sign
    followed by two hexadecimal digits gives the byte they denote, any other
    unit gives itself. *)
Fixpoint qp_scan (s : jsstring) : list Z :=
  match s with
  | [] => []
  | c :: s1 =>
      match s1 with
      | a :: b :: s2 =>
          if (c =? cu "=") && isHexDigit a && isHexDigit b then
            (16 * hexval a + hexval b) :: qp_scan s2
          else c :: qp_scan s1
      | _ => c :: qp_scan s1
      end
  end.

(** The name under which a line of a header block is stored, when it opens
    a header: it does not begin with white space and has a colon behind its
    first unit. *)
Definition headerKey `{Engine} (line : jsstring) : option jsstring :=
  if startsWithSpace line then None
  else
    let colonIndex := indexOf line (lit ":") in
    if colonIndex >? 0 then
      Some (toLowerCase (trim (substring line 0 colonIndex)))
    else None.

(** The value such a line carries. *)
Definition headerValue (line : jsstring) : jsstring :=
  trim (substringFrom line (indexOf line (lit ":") + 1)).

(** A value with its continuation lines folded in. *)
Definition folded (value : jsstring) (lines : list jsstring) : jsstring :=
  fold_left (fun v line => v ++ lit " " ++ trim line)
    (List.filter startsWithSpace lines) value.

(** What one part adds to the attachments of [parseBody]. *)
Definition partAttachments `{Engine} (part : Part) : list Attachment :=
  let partType := toLowerCase (getOr (part_headers part) "content-type" []) in
  let disposition :=
    toLowerCase (getOr (part_headers part) "content-disposition" []) in
  let transferEncoding :=
    getOr (part_headers part) "content-transfer-encoding" [] in
  if includes disposition (lit "attachment") then
    [attachmentOf partType disposition transferEncoding (part_body part)]
  else [].

(** The text [parseBody] takes as the file name of a part, before encoded
    words are decoded in it. *)
Definition capturedFilename `{Engine} (part : Part) : jsstring :=
  default (lit "attachment")
    (matchParam (lit "filename=") stopFilename
       (toLowerCase (getOr (part_headers part) "content-disposition" []))).

(** The entry [k] of the mapping is settled in a state of [parseHeaders]:
    it is stored, and the header at hand goes under another name. *)
Definition settled `{Engine} (k x : jsstring) (st : HeaderState) : Prop :=
  hs_headers st !! k = Some x
  /\ (truthy (currentKey st) = true -> toLowerCase (currentKey st) <> k).

(** Every name in the mapping is a lower-cased one. *)
Definition lowerKeys `{Engine} (m : gmap jsstring jsstring) : Prop :=
  forall k, is_Some (m !! k) ->
    (exists name, k = toLowerCase name)
    /\ Forall (fun c => isUpper c = false) k.

(** The decoder a normalized label stands for, as [charsetMap] and the
    default of [getTextDecoder] have it. *)
Definition resolveLabel (n : jsstring) : jsstring :=
  if jsstring_eqb n (lit "gbk") || jsstring_eqb n (lit "gb2312")
  then lit "gbk"
  else if jsstring_eqb n (lit "gb18030") then lit "gb18030"
  else if jsstring_eqb n (lit "big5") then lit "big5"
  else if jsstring_eqb n (lit "iso88591") || jsstring_eqb n (lit "iso-8859-1")
  then lit "iso-8859-1"
  else if jsstring_eqb n (lit "windows1252")
          || jsstring_eqb n (lit "windows-1252")
  then lit "windows-1252"
  else lit "utf-8".

(** The base64 text of a byte sequence (RFC 4648), as the sender of a
    binary attachment writes it: the sextets of the bytes, three bytes to
    four sextets, ... *)
Fixpoint b64sextets (bs : list Z) : list Z :=
  match bs with
  | a :: b :: c :: bs' =>
      a / 4 :: (a mod 4) * 16 + b / 16 :: (b mod 16) * 4 + c / 64
        :: c mod 64 :: b64sextets bs'
  | [a; b] => [a / 4; (a mod 4) * 16 + b / 16; (b mod 16) * 4]
  | [a] => [a / 4; (a mod 4) * 16]
  | [] => []
  end.

(** ... each written as a unit of the alphabet, ... *)
Definition b64char (v : Z) : Z :=
  if v <? 26 then v + 65
  else if v <? 52 then v - 26 + 97
  else if v <? 62 then v - 52 + 48
  else if v =? 62 then 43
  else 47.

(** ... and the padding that fills the last group. *)
Definition b64padding (bs : list Z) : jsstring :=
  match (length bs mod 3)%nat with
  | 1%nat => [61; 61]
  | 2%nat => [61]
  | _ => []
  end.

Definition b64encode (bs : list Z) : jsstring :=
  map b64char (b64sextets bs) ++ b64padding bs.

(** A sequence of bytes. *)
Definition isBytes (bs : list Z) : Prop := Forall (fun b => 0 <= b < 256) bs.

(** ** Messages the statements are tried on *)

(** A message with line feeds only. *)
Definition lfMessage : jsstring :=
  lit "Subject: Hi" ++ [LF; LF] ++ lit "Body".

(** The same message with CR and LF. *)
Definition crlfMessage : jsstring :=
  lit "Subject: Hi" ++ CRLF ++ CRLF ++ lit "Body".

(** A multipart body with one attachment in base64, the four bytes 0, 1, 2
    and 255, under a name with capital letters. *)
Definition binaryBody : jsstring :=
  lit "--xyz" ++ CRLF
  ++ lit "Content-Type: application/octet-stream" ++ CRLF
  ++ lit "Content-Disposition: attachment; filename=Report.BIN" ++ CRLF
  ++ lit "Content-Transfer-Encoding: base64" ++ CRLF ++ CRLF
  ++ lit "AAEC/w==" ++ CRLF
  ++ lit "--xyz--".

(** A multipart body whose attachment is named by an encoded word that
    appears only once the header has been decoded. *)
Definition encodedNameBody : jsstring :=
  lit "--xyz" ++ CRLF
  ++ lit "Content-Disposition: attachment; filename==?utf-8?q?=3D?=?utf-8?q?=41?="
  ++ CRLF ++ CRLF
  ++ lit "data" ++ CRLF
  ++ lit "--xyz--".

(** A multipart body whose only part has the delimiter inside a line. *)
Definition brokenBody : jsstring :=
  lit "--xyz" ++ CRLF
  ++ lit "Content-Type: text/plain" ++ CRLF ++ CRLF
  ++ lit "ab--xyzcd" ++ CRLF
  ++ lit "--xyz--".

(** A header block with the header __proto__ twice. *)
Definition protoHeaders : jsstring :=
  lit "__proto__: first" ++ CRLF ++ lit "__proto__: second".

(** A header block with the header Subject twice. *)
Definition twoSubjects : jsstring :=
  lit "Subject: first" ++ CRLF ++ lit "X-Mailer: none" ++ CRLF
  ++ lit "SUBJECT: second" ++ CRLF ++ lit "  line".

(** ** The helpers of the worker (utils.js) *)

(** [s.endsWith(p)] *)
Definition endsWith (s p : jsstring) : bool := startsWith (rev s) (rev p).

(** [s.charAt(i)]: the empty string outside the string. *)
Definition charAt (s : jsstring) (i : Z) : jsstring :=
  if (0 <=? i) && (i <? Z.of_nat (length s)) then [nth (Z.to_nat i) s 0]
  else [].

(** The environment of the worker, as far as the helpers read it. *)
Record Env := {
  DOMAINS : option jsstring
}.

Definition defaultDomains : jsstring :=
  lit "2art.fun,sumeetsxiang.com,wadao.world,wearwave.live".

(** The alphabet of [generatePrefix]. *)
Definition prefixChars : jsstring :=
  lit "abcdefghijklmnopqrstuvwxyz0123456789".

(** [generatePrefix(length)], where [random] holds the [length] values
    that [crypto.getRandomValues] writes into the byte array. *)
Definition generatePrefix (random : list Z) : jsstring :=
  let array := Uint8Array random in
  fold_left
    (fun result b =>
       result ++ charAt prefixChars (b mod Z.of_nat (length prefixChars)))
    array [].

(** The first of [f n], [f (n - 1)], ..., [f 0] that succeeds: the
    repetitions of a greedy quantifier, the longest first. *)
Fixpoint firstDown {A} (f : nat -> option A) (n : nat) : option A :=
  match f n with
  | Some x => Some x
  | None =>
      match n with
      | O => None
      | S k => firstDown f k
      end
  end.

(** The expression of [parseEmailAddress], piece by piece from its end.
    One or more units other than [>], an optional [>] and the end of the
    text: only the longest run can be followed by one of the two. *)
Definition addrRun (u : jsstring) : option jsstring :=
  let e := takeWhile (fun c => negb (c =? cu ">")) u in
  let r := drop (length e) u in
  if truthy e && (jsstring_eqb r [] || jsstring_eqb r (lit ">"))
  then Some e else None.

(** An optional [<] before that, taken first when it is there. *)
Definition addrRest (t : jsstring) : option jsstring :=
  match t with
  | c :: u =>
      if c =? cu "<" then
        match addrRun u with
        | Some e => Some e
        | None => addrRun t
        end
      else addrRun t
  | [] => addrRun t
  end.

(** Any white space before that, the longest run first.  [moved] tells
    whether the optional group has consumed anything so far: a repetition
    of a group that consumes nothing is not accepted. *)
Definition addrSpaces (moved : bool) (t : jsstring) : option jsstring :=
  firstDown
    (fun w => if moved || negb (Nat.eqb w 0) then addrRest (drop w t) else None)
    (length (takeWhile isSpace t)).

(** An optional double quote before that. *)
Definition addrQuote (moved : bool) (t : jsstring) : option jsstring :=
  match t with
  | c :: u =>
      if c =? 34 then
        match addrSpaces true u with
        | Some e => Some e
        | None => addrSpaces moved t
        end
      else addrSpaces moved t
  | [] => addrSpaces moved t
  end.

(** The first group before that, any number of units other than the double
    quote and [<], the longest run first: the two groups. *)
Definition addrName (moved : bool) (u : jsstring)
  : option (jsstring * jsstring) :=
  firstDown
    (fun n =>
       match addrQuote (moved || negb (Nat.eqb n 0)) (drop n u) with
       | Some e => Some (take n u, e)
       | None => None
       end)
    (length (takeWhile (fun c => negb ((c =? 34) || (c =? cu "<"))) u)).

(** [address.match(...)]: the two groups of the match, [None] for a group
    that did not take part.  The optional group is tried first, with its
    optional opening quote, and left out when it cannot be matched. *)
Definition addressMatch (s : jsstring)
  : option (option jsstring * jsstring) :=
  let group :=
    match s with
    | c :: u =>
        if c =? 34 then
          match addrName true u with
          | Some r => Some r
          | None => addrName false s
          end
        else addrName false s
    | [] => addrName false s
    end in
  match group with
  | Some (name, email) => Some (Some name, email)
  | None =>
      match addrRest s with
      | Some email => Some (None, email)
      | None => None
      end
  end.

Record Address := {
  addr_name : jsstring;
  addr_email : jsstring
}.

Section Helpers.
Context `{Engine}.

(** [getDomains(env)] *)
Definition getDomains (env : Env) : list jsstring :=
  let domainsStr := orElse (default [] (DOMAINS env)) defaultDomains in
  List.filter truthy
    (map (fun d => toLowerCase (trim d)) (split domainsStr (lit ","))).

(** [isAllowedDomain(address, env)] *)
Definition isAllowedDomain (address : jsstring) (env : Env) : bool :=
  if negb (truthy address) then false
  else
    let domains := getDomains env in
    let lower := toLowerCase address in
    existsb (fun domain => endsWith lower (lit "@" ++ domain)) domains.

(** [parseEmailAddress(address)]; [None] is [undefined]. *)
Definition parseEmailAddress (address : option jsstring) : Address :=
  match address with
  | None => {| addr_name := []; addr_email := [] |}
  | Some a =>
      if negb (truthy a) then {| addr_name := []; addr_email := [] |}
      else
        match addressMatch a with
        | Some (name, email) =>
            {| addr_name := trim (orElse (default [] name) []);
               addr_email := toLowerCase (trim (orElse email [])) |}
        | None =>
            {| addr_name := []; addr_email := toLowerCase (trim a) |}
        end
  end.

End Helpers.

(** [extractPreview(text, maxLength)] *)
Definition extractPreview (text : jsstring) (maxLength : Z) : jsstring :=
  if negb (truthy text) then []
  else
    let cleaned := trim (replaceAll spaces text) in
    if Z.of_nat (length cleaned) <=? maxLength then cleaned
    else substring cleaned 0 maxLength ++ lit "...".

(** ** Storing a message ([handleEmail] of email.js) *)

(** A row of the table [emails] and a row of the table [attachments]. *)
Record EmailRow := {
  e_id : jsstring;
  e_address : jsstring;
  e_from_address : jsstring;
  e_from_name : jsstring;
  e_subject : jsstring;
  e_text_content : jsstring;
  e_html_content : jsstring;
  e_raw_email : jsstring;
  e_has_attachments : Z;
  e_created_at : Z
}.

Record AttachmentRow := {
  a_id : jsstring;
  a_email_id : jsstring;
  a_filename : jsstring;
  a_content_type : jsstring;
  a_size : Z;
  a_content : list Z;
  a_created_at : Z
}.

(** The two tables, in the order of insertion. *)
Record Database := {
  db_emails : list EmailRow;
  db_attachments : list AttachmentRow
}.

(** An incoming message: the recipient and the raw text. *)
Record Message := {
  msg_to : jsstring;
  msg_raw : jsstring
}.

(** [INSERT INTO emails]: the primary key [id] must be new, or the
    statement throws ([None]). *)
Definition insertEmail (db : Database) (row : EmailRow) : option Database :=
  if existsb (fun r => jsstring_eqb (e_id r) (e_id row)) (db_emails db)
  then None
  else Some {| db_emails := db_emails db ++ [row];
               db_attachments := db_attachments db |}.

(** [INSERT INTO attachments]: the primary key [id] must be new. *)
Definition insertAttachment (db : Database) (row : AttachmentRow)
  : option Database :=
  if existsb (fun r => jsstring_eqb (a_id r) (a_id row)) (db_attachments db)
  then None
  else Some {| db_emails := db_emails db;
               db_attachments := db_attachments db ++ [row] |}.

(** The subject stored for a message without one, the five units of the
    literal of the source: an opening bracket, U+65E0, U+4E3B, U+9898 and a
    closing bracket. *)
Definition noSubject : jsstring := [40; 26080; 20027; 39064; 41].

(** The loop of [handleEmail] over the attachments; [ids k] is what the
    call number [k] of [generateId] returns.  A statement that throws ends
    the function, what was stored before stays. *)
Fixpoint storeAttachments (db : Database) (id : jsstring) (now : Z)
    (ids : nat -> jsstring) (k : nat) (atts : list Attachment) : Database :=
  match atts with
  | [] => db
  | attachment :: rest =>
      match insertAttachment db
              {| a_id := ids k;
                 a_email_id := id;
                 a_filename := filename attachment;
                 a_content_type := contentType attachment;
                 a_size := size attachment;
                 a_content := content attachment;
                 a_created_at := now |} with
      | Some db' => storeAttachments db' id now ids (S k) rest
      | None => db
      end
  end.

Section Storing.
Context `{Engine}.

(** The row [handleEmail] binds for a message. *)
Definition emailRow (message : Message) (id : jsstring) (now : Z)
  : EmailRow :=
  let toAddress := toLowerCase (msg_to message) in
  let parsed := parseMimeEmail (msg_raw message) in
  let fromParsed := parseEmailAddress (headers parsed !! lit "from") in
  let textContent :=
    if negb (truthy (textContent (email_body parsed)))
       && truthy (htmlContent (email_body parsed))
    then htmlToText (htmlContent (email_body parsed))
    else textContent (email_body parsed) in
  {| e_id := id;
     e_address := toAddress;
     e_from_address := addr_email fromParsed;
     e_from_name := addr_name fromParsed;
     e_subject := getOr (headers parsed) "subject" noSubject;
     e_text_content := textContent;
     e_html_content := htmlContent (email_body parsed);
     e_raw_email := rawEmail parsed;
     e_has_attachments :=
       if Z.of_nat (length (attachments (email_body parsed))) >? 0
       then 1 else 0;
     e_created_at := now |}.

(** [handleEmail(message, env)] on the database [db], at the time [now],
    with the identifiers [ids] that [generateId] returns. *)
Definition handleEmail (message : Message) (env : Env)
    (ids : nat -> jsstring) (now : Z) (db : Database) : Database :=
  let toAddress := toLowerCase (msg_to message) in
  if negb (isAllowedDomain toAddress env) then db
  else
    let parsed := parseMimeEmail (msg_raw message) in
    let id := ids 0%nat in
    match insertEmail db (emailRow message id now) with
    | Some db' =>
        storeAttachments db' id now ids 1 (attachments (email_body parsed))
    | None => db
    end.

End Storing.

(** ** The rate limit (utils.js) *)

Definition RATE_LIMIT_WINDOW_MS : Z := 60 * 1000.

Definition RATE_LIMIT_MAX_REQUESTS : gmap jsstring Z :=
  <[lit "/api/generate" := 10]>
  (<[lit "/api/inbox" := 60]>
  (<[lit "/api/message" := 60]>
  (<[lit "/api/delete" := 30]>
  (<[lit "default" := 100]> ∅)))).

(** [a || b] on numbers. *)
Definition orElseZ (a b : Z) : Z := if a =? 0 then b else a.

(** The constant [maxRequests] of [checkRateLimit], for an endpoint that is
    a path of a request. *)
Definition maxRequests (endpoint : jsstring) : Z :=
  orElseZ (default 0 (RATE_LIMIT_MAX_REQUESTS !! endpoint))
    (default 0 (RATE_LIMIT_MAX_REQUESTS !! lit "default")).

Record RateLimit := {
  allowed : bool;
  remaining : Z;
  resetAt : Z
}.

(** The answer of the handler of [checkRateLimit] when a statement throws:
    the request is let through. *)
Definition degraded : RateLimit :=
  {| allowed := true; remaining := -1; resetAt := 0 |}.

(** The constant [windowStart] of [checkRateLimit]. *)
Definition windowStart (now : Z) : Z :=
  now / RATE_LIMIT_WINDOW_MS * RATE_LIMIT_WINDOW_MS.

(** [checkRateLimit(env, ip, endpoint)], called at the time [now], awaits
    two statements, one after the other and in no transaction: statements
    of other requests can run between them.  This is the function up to the
    end of the first, the SELECT, on the table [rate_limits] as it is then,
    whose key is the address, the endpoint and the start of the window.
    [throws] tells whether the statement throws.  The result is the answer,
    when the function returns here, or else the count it has read. *)
Definition checkRateLimit_select (table : gmap (jsstring * jsstring * Z) Z)
    (now : Z) (ip endpoint : jsstring) (throws : bool) : RateLimit + Z :=
  if throws then inl degraded
  else
    let currentCount :=
      orElseZ (default 0 (table !! (ip, endpoint, windowStart now))) 0 in
    if currentCount >=? maxRequests endpoint then
      inl {| allowed := false; remaining := 0;
             resetAt := windowStart now + RATE_LIMIT_WINDOW_MS |}
    else inr currentCount.

(** The function from its second statement, the UPSERT, on the table as it
    is by then, with the count read before: the answer, and the table
    afterwards.  A statement that throws changes nothing. *)
Definition checkRateLimit_upsert (table : gmap (jsstring * jsstring * Z) Z)
    (now : Z) (ip endpoint : jsstring) (currentCount : Z) (throws : bool)
  : RateLimit * gmap (jsstring * jsstring * Z) Z :=
  if throws then (degraded, table)
  else
    ({| allowed := true;
        remaining := maxRequests endpoint - currentCount - 1;
        resetAt := windowStart now + RATE_LIMIT_WINDOW_MS |},
     <[(ip, endpoint, windowStart now) :=
         match table !! (ip, endpoint, windowStart now) with
         | Some c => c + 1
         | None => 1
         end]> table).

(** [checkRateLimit] when no statement of another request runs between its
    two statements. *)
Definition checkRateLimit (table : gmap (jsstring * jsstring * Z) Z)
    (now : Z) (ip endpoint : jsstring) (selectThrows upsertThrows : bool)
  : RateLimit * gmap (jsstring * jsstring * Z) Z :=
  match checkRateLimit_select table now ip endpoint selectThrows with
  | inl answer => (answer, table)
  | inr currentCount =>
      checkRateLimit_upsert table now ip endpoint currentCount upsertThrows
  end.



(** ** The address of the client and the answer to a refused request
       (utils.js) *)

(** What [request.headers.get] gives for the three headers [getClientIP]
    reads; [None] is [null]. *)
Record RequestHeaders := {
  cfConnectingIP : option jsstring;
  xRealIP : option jsstring;
  xForwardedFor : option jsstring
}.

(** [getClientIP(request)] *)
Definition getClientIP (request : RequestHeaders) : jsstring :=
  orElse (default [] (cfConnectingIP request))
    (orElse (default [] (xRealIP request))
       (orElse
          (match xForwardedFor request with
           | Some forwarded => trim (hd [] (split forwarded (lit ",")))
           | None => []
           end)
          (lit "unknown"))).

(** The number [rateLimitResponse(resetAt)] sends as [retryAfter] and in
    the header Retry-After, at the time [now]; the quotient is rounded
    up. *)
Definition retryAfter (resetAt now : Z) : Z :=
  let retryAfter := - (- (resetAt - now) / 1000) in
  if retryAfter >? 0 then retryAfter else 60.

(** ** The cleanup job (index.js) *)

Definition EMAIL_EXPIRE_MS : Z := 24 * 60 * 60 * 1000.

(** [DELETE FROM emails WHERE created_at < ?]: the rows of the messages go,
    and with each of them the rows of [attachments] that refer to it, as the
    schema has it (ON DELETE CASCADE). *)
Definition deleteEmailsBefore (db : Database) (expireTime : Z) : Database :=
  let deleted :=
    List.filter (fun e => e_created_at e <? expireTime) (db_emails db) in
  {| db_emails :=
       List.filter (fun e => negb (e_created_at e <? expireTime)) (db_emails db);
     db_attachments :=
       List.filter
         (fun a =>
            negb (existsb (fun e => jsstring_eqb (e_id e) (a_email_id a))
                    deleted))
         (db_attachments db) |}.

(** [DELETE FROM rate_limits WHERE window_start < ?] *)
Definition deleteRateLimitsBefore (table : gmap (jsstring * jsstring * Z) Z)
    (expireTime : Z) : gmap (jsstring * jsstring * Z) Z :=
  filter (fun row => expireTime <= snd (fst row)) table.

(** [cleanupOldEmails(env)] at the time [now], on the tables of the messages
    and of the rate limit; the statements are taken to succeed.  The table
    of the generated addresses is not part of this development. *)
Definition cleanupOldEmails
    (tables : Database * gmap (jsstring * jsstring * Z) Z) (now : Z)
  : Database * gmap (jsstring * jsstring * Z) Z :=
  let emailExpireTime := now - EMAIL_EXPIRE_MS in
  let rateLimitExpireTime := now - RATE_LIMIT_WINDOW_MS * 2 in
  (deleteEmailsBefore (fst tables) emailExpireTime,
   deleteRateLimitsBefore (snd tables) rateLimitExpireTime).

(** ** Notions the further statements use *)

(** White space in a text is single: every unit of white space is a plain
    space and is not followed by white space. *)
Fixpoint singleSpaced (t : jsstring) : bool :=
  match t with
  | [] => true
  | c :: t' =>
      (if isSpace c then
         (c =? 32) && negb (startsWithSpace t')
       else true)
      && singleSpaced t'
  end.

(** A text has no white space at either end. *)
Definition trimmed (t : jsstring) : bool :=
  negb (startsWithSpace t) && negb (startsWithSpace (rev t)).

(** The tables agree: no identifier stands twice in a table, and every
    attachment belongs to a message that is stored. *)
Definition consistent (db : Database) : Prop :=
  NoDup (map e_id (db_emails db))
  /\ NoDup (map a_id (db_attachments db))
  /\ Forall (fun a => In (a_email_id a) (map e_id (db_emails db)))
       (db_attachments db).

(** The rows [handleEmail] binds for the attachments of a message, the
    first of them with the identifier [ids k]. *)
Fixpoint attachmentRows (id : jsstring) (now : Z) (ids : nat -> jsstring)
    (k : nat) (atts : list Attachment) : list AttachmentRow :=
  match atts with
  | [] => []
  | attachment :: rest =>
      {| a_id := ids k;
         a_email_id := id;
         a_filename := filename attachment;
         a_content_type := contentType attachment;
         a_size := size attachment;
         a_content := content attachment;
         a_created_at := now |}
        :: attachmentRows id now ids (S k) rest
  end.





(** A part as a sender writes it behind a delimiter: the end of the
    delimiter line, the headers, an empty line, the body and the end of its
    last line. *)
Definition framedPart (partHeaders partBody : jsstring) : jsstring :=
  CRLF ++ partHeaders ++ CRLF ++ CRLF ++ partBody ++ CRLF.

(** A multipart body: the preamble, the parts, each behind a delimiter, and
    the closing delimiter with what follows it. *)
Definition multipartBody (boundary preamble : jsstring)
    (parts : list (jsstring * jsstring)) (epilogue : jsstring) : jsstring :=
  join (lit "--" ++ boundary)
    (preamble :: map (fun p => framedPart (fst p) (snd p)) parts
       ++ [lit "--" ++ epilogue]).

(** The delimiter cannot begin inside [section] when [section] is followed
    by a delimiter. *)
Definition delimited (boundary section : jsstring) : bool :=
  negb (includes (section ++ removelast (lit "--" ++ boundary))
          (lit "--" ++ boundary)).

(** A part in such a body: its headers begin with a name and hold no empty
    line, its body does not end in white space, and the delimiter does not
    begin inside it. *)
Definition wellFramed (boundary : jsstring) (part : jsstring * jsstring)
  : bool :=
  let (partHeaders, partBody) := part in
  truthy partHeaders
  && negb (startsWithSpace partHeaders)
  && negb (startsWith partHeaders (lit "--"))
  && negb (includes (partHeaders ++ [CR; LF; CR]) (CRLF ++ CRLF))
  && negb (startsWithSpace (rev partBody))
  && delimited boundary (framedPart partHeaders partBody).

(** A code point that a text can hold: not a surrogate. *)
Definition isScalar (cp : Z) : Prop :=
  0 <= cp < 55296 \/ 57344 <= cp < 1114112.

(** A text of UTF-16: every unit is one, and the surrogates come in
    pairs. *)
Fixpoint wellFormed (s : jsstring) : bool :=
  match s with
  | [] => true
  | c :: s' =>
      if (55296 <=? c) && (c <=? 56319) then
        match s' with
        | d :: s'' => (56320 <=? d) && (d <=? 57343) && wellFormed s''
        | [] => false
        end
      else
        (((0 <=? c) && (c <? 55296)) || ((57344 <=? c) && (c <=? 65535)))
        && wellFormed s'
  end.

(** A hexadecimal digit as a sender writes it, in capitals. *)
Definition hexDigit (v : Z) : Z := if v <? 10 then 48 + v else 55 + v.

(** The quoted-printable text of a byte sequence (RFC 2045), where the
    sender writes the bytes of [plain] as they are and every other byte as
    an equals sign and two digits. *)
Definition qpEncode (plain : Z -> bool) (bs : list Z) : jsstring :=
  flat_map
    (fun b =>
       if plain b && negb (b =? cu "=") then [b]
       else [cu "="; hexDigit (b / 16); hexDigit (b mod 16)])
    bs.

(** The bytes a sender of a body may leave as they are: the printable
    units of Basic Latin and the space. *)
Definition isPrintable (b : Z) : bool := (32 <=? b) && (b <=? 126).

(** The text of an encoded word in the encoding Q (RFC 2047): a space is
    written as an underscore, the bytes of [safe] as they are, and every
    other byte as an equals sign and two digits. *)
Definition qWordEncode (safe : Z -> bool) (bs : list Z) : jsstring :=
  flat_map
    (fun b =>
       if b =? cu " " then [cu "_"]
       else if safe b && negb (b =? cu "=") && negb (b =? cu "?")
               && negb (b =? cu "_")
       then [b]
       else [cu "="; hexDigit (b / 16); hexDigit (b mod 16)])
    bs.

(** An encoded word: the marks, the charset, the letter of the encoding
    and the encoded text. *)
Definition encodedWordText (charset : jsstring) (encoding : Z)
    (text : jsstring) : jsstring :=
  lit "=?" ++ charset ++ lit "?" ++ [encoding] ++ lit "?" ++ text ++ lit "?=".

(** ** A worker the statements are tried on *)

(** The worker without a list of domains of its own. *)
Definition plainEnv : Env := {| DOMAINS := None |}.

Definition emptyDatabase : Database :=
  {| db_emails := []; db_attachments := [] |}.

(** A message to an address of the worker, with the attachment of
    [binaryBody]. *)
Definition attachmentMessage : Message :=
  {| msg_to := lit "Joe@2art.fun";
     msg_raw :=
       lit "From: Alice Doe <Alice@Example.com>" ++ CRLF
       ++ lit "Content-Type: multipart/mixed; boundary=xyz" ++ CRLF ++ CRLF
       ++ binaryBody |}.

(** The identifiers id0, id1, ... *)
Definition sampleIds (k : nat) : jsstring := lit "id" ++ [48 + Z.of_nat k].

(** A table of the rate limit at the time 200000: the client 1.2.3.4 has
    used up the ten calls of /api/generate in the window that began at
    120000, and a row of the window that began at 0 is left over. *)
Definition usedUpLimits : gmap (jsstring * jsstring * Z) Z :=
  <[(lit "1.2.3.4", lit "/api/generate", 120000) := 10]>
  (<[(lit "1.2.3.4", lit "/api/generate", 0) := 4]> ∅).

(** A word with a letter beyond Basic Latin, and its bytes in base64 and in
    quoted-printable, each with a line end inside. *)
Definition accentedText : jsstring := lit "h" ++ [233] ++ lit "llo".

Definition accentedBase64 : jsstring := lit "aMOp" ++ CRLF ++ lit "bGxv".

Definition accentedQuotedPrintable : jsstring :=
  lit "h=C3=A9l=" ++ CRLF ++ lit "lo".

(** * Facts about strings *)

Lemma startsWith_spec (s p : jsstring) :
  startsWith s p = true <-> exists r, s = p ++ r.
Proof.
  revert s; induction p as [|a p IH]; intros s; simpl.
  - split; [intros _; by exists s | done].
  - destruct s as [|b s].
    + split; [done | intros [r Hr]; discriminate].
    + rewrite andb_true_iff, Z.eqb_eq, IH. split.
      * intros [-> [r ->]]. by exists r.
      * intros [r Hr]. injection Hr as -> ->. eauto.
Qed.

Lemma startsWith_app (p r : jsstring) : startsWith (p ++ r) p = true.
Proof. apply startsWith_spec. eauto. Qed.

(** [search] finds an occurrence, and the first one. *)
Lemma search_Some (s p : jsstring) (i : nat) :
  search s p = Some i ->
  s = take i s ++ p ++ drop (i + length p) s
  /\ forall j, (j < i)%nat -> startsWith (drop j s) p = false.
Proof.
  revert i; induction s as [|c s IH]; intros i; simpl.
  - destruct (startsWith [] p) eqn:E; [|done].
    intros [= <-]. apply startsWith_spec in E as [r Hr].
    destruct p; [|done]. split; [done | lia].
  - destruct (startsWith (c :: s) p) eqn:E.
    + intros [= <-]. apply startsWith_spec in E as [r Hr]. split; [|lia].
      simpl. rewrite Hr at 1. by rewrite Hr, drop_app_length.
    + destruct (search s p) as [k|] eqn:Es; [|done].
      intros [= <-]. destruct (IH k eq_refl) as [Heq Hmin]. split.
      * simpl. by rewrite <- Heq.
      * intros [|j] Hj; [done|]. simpl. apply Hmin. lia.
Qed.

Lemma search_None (s p : jsstring) (j : nat) :
  search s p = None -> startsWith (drop j s) p = false.
Proof.
  revert j; induction s as [|c s IH]; intros j; simpl.
  - destruct (startsWith [] p) eqn:E; [done|]. by rewrite drop_nil.
  - destruct (startsWith (c :: s) p) eqn:E; [done|].
    destruct (search s p) eqn:Es; [done|]. intros _.
    destruct j; [done|]. simpl. by apply IH.
Qed.

Lemma infix_refl s : infix s s.
Proof. exists [], []. by rewrite app_nil_r. Qed.

Lemma infix_trans a b c : infix a b -> infix b c -> infix a c.
Proof.
  intros (x & y & ->) (x' & y' & ->). exists (x' ++ x), (y ++ y').
  by rewrite <- !app_assoc.
Qed.

Lemma infix_drop n s : infix (drop n s) s.
Proof. exists (take n s), []. by rewrite app_nil_r, take_drop. Qed.

Lemma infix_take n s : infix (take n s) s.
Proof. exists [], (drop n s). simpl. by rewrite take_drop. Qed.

Lemma includes_spec (s p : jsstring) :
  includes s p = true <-> infix p s.
Proof.
  unfold includes. split.
  - destruct (search s p) as [i|] eqn:E; [|done]. intros _.
    apply search_Some in E as [E _]. by exists (take i s), (drop (i + length p) s).
  - intros (x & y & ->). destruct (search _ p) eqn:E; [done|].
    apply (search_None _ _ (length x)) in E.
    by rewrite drop_app_length, startsWith_app in E.
Qed.

Lemma includes_infix (t s p : jsstring) :
  infix t s -> includes s p = false -> includes t p = false.
Proof.
  intros Hts Hs. destruct (includes t p) eqn:E; [|done].
  apply includes_spec in E. rewrite <- Hs. symmetry. apply includes_spec.
  by eapply infix_trans.
Qed.

(** Before the first occurrence there is none. *)
Lemma search_take (s p : jsstring) (i : nat) :
  p <> [] -> search s p = Some i -> includes (take i s) p = false.
Proof.
  intros Hp Hs. apply search_Some in Hs as [Heq Hmin].
  destruct (includes (take i s) p) eqn:E; [|done].
  apply includes_spec in E as (x & y & E).
  assert (Hlen : (length x + length p + length y <= i)%nat).
  { apply (f_equal length) in E. rewrite !length_app in E.
    rewrite length_take in E. lia. }
  assert (length p <> 0)%nat by (destruct p; simpl; [done | lia]).
  specialize (Hmin (length x) ltac:(lia)).
  rewrite <- (take_drop i s), E, <- !app_assoc, drop_app_length in Hmin.
  by rewrite startsWith_app in Hmin.
Qed.

(** * Splitting at a separator *)

Lemma split_fuel_nonempty fuel s sep : split_fuel fuel s sep <> [].
Proof. destruct fuel; simpl; [done|]. by destruct (search s sep). Qed.

Lemma join_cons sep x l : l <> [] -> join sep (x :: l) = x ++ sep ++ join sep l.
Proof. by destruct l. Qed.

Lemma join_split_fuel fuel s sep : join sep (split_fuel fuel s sep) = s.
Proof.
  revert s; induction fuel as [|fuel IH]; intros s; simpl; [done|].
  destruct (search s sep) as [i|] eqn:E; [|done].
  rewrite join_cons by apply split_fuel_nonempty.
  rewrite IH. symmetry. by apply search_Some in E as [E _].
Qed.

Lemma split_fuel_clean fuel s sep :
  sep <> [] -> (length s <= fuel)%nat ->
  Forall (fun sec => includes sec sep = false) (split_fuel fuel s sep).
Proof.
  intros Hsep. revert s; induction fuel as [|fuel IH]; intros s Hlen; simpl.
  - destruct s; [|simpl in Hlen; lia]. constructor; [|done].
    destruct (includes [] sep) eqn:E; [|done].
    apply includes_spec in E as (x & y & E). by destruct x, sep.
  - destruct (search s sep) as [i|] eqn:E.
    + constructor; [by apply search_take|]. apply IH.
      rewrite length_drop. destruct sep; [done|]. simpl.
      apply search_Some in E as [E _]. apply (f_equal length) in E.
      rewrite !length_app, length_take in E. simpl in E. lia.
    + constructor; [|done]. unfold includes. by rewrite E.
Qed.

Lemma join_split s sep : sep <> [] -> join sep (split s sep) = s.
Proof. destruct sep; [done|]. intros _. apply join_split_fuel. Qed.

Lemma split_clean s sep :
  sep <> [] -> Forall (fun sec => includes sec sep = false) (split s sep).
Proof. destruct sep eqn:E; [done|]. intros _. by apply split_fuel_clean. Qed.

(** * Trimming and cutting stay inside the string *)

Lemma infix_trimStart s : infix (trimStart s) s.
Proof.
  induction s as [|c s IH]; simpl; [apply infix_refl|].
  destruct (isSpace c); [|apply infix_refl].
  eapply infix_trans; [apply IH|]. apply (infix_drop 1 (c :: s)).
Qed.

Lemma infix_rev t s : infix t s -> infix (rev t) (rev s).
Proof.
  intros (x & y & ->). exists (rev y), (rev x).
  by rewrite !rev_app_distr, <- app_assoc.
Qed.

Lemma infix_trim s : infix (trim s) s.
Proof.
  unfold trim, trimEnd. eapply infix_trans; [|apply infix_trimStart].
  rewrite <- (rev_involutive (trimStart s)) at 2.
  apply infix_rev, infix_trimStart.
Qed.

Lemma infix_substring s a b : infix (substring s a b) s.
Proof.
  unfold substring. eapply infix_trans; [apply infix_take | apply infix_drop].
Qed.

Lemma infix_dropFinalCRLF s : infix (dropFinalCRLF s) s.
Proof.
  unfold dropFinalCRLF. destruct (rev s) as [|b [|a r]] eqn:E;
    try apply infix_refl.
  destruct (_ && _); [|apply infix_refl].
  exists [], [a; b]. simpl. rewrite <- (rev_involutive s), E. simpl.
  by rewrite <- app_assoc.
Qed.

Create HintDb inside.
#[local] Hint Resolve infix_refl infix_take infix_drop infix_trimStart
  infix_trim infix_substring infix_dropFinalCRLF : inside.

Lemma Forall_omap_inside {A B} (f : A -> option B) (P : A -> Prop)
    (Q : B -> Prop) (l : list A) :
  Forall P l -> (forall x y, f x = Some y -> P x -> Q y) ->
  Forall Q (omap f l).
Proof.
  intros Hl Hf. induction Hl as [|x l Hx Hl IH]; simpl; [constructor|].
  destruct (f x) eqn:E; [constructor; eauto | done].
Qed.

Section SplitterFacts.
Context `{Engine}.

Lemma parseSection_inside raw part :
  parseSection raw = Some part -> infix (part_body part) raw.
Proof.
  unfold parseSection. destruct (_ || _); [done|].
  destruct (_ =? -1); [done|]. intros [= <-]. simpl.
  eapply infix_trans; [apply infix_dropFinalCRLF|].
  eapply infix_trans; [apply infix_substring | auto with inside].
Qed.

(** C10. [parseMultipart] cuts the body wherever the text [--] followed by
    the boundary occurs, at the start of a line or not: the sections put
    together again with that text between them are the body, no section
    holds the text, and so the body of no part holds it; a part whose
    content has it in the middle of a line comes out cut there. *)
Theorem parseMultipart_splits_everywhere (body boundary : jsstring) :
  let delimiter := lit "--" ++ boundary in
  join delimiter (split body delimiter) = body
  /\ Forall (fun section => includes section delimiter = false)
       (split body delimiter)
  /\ Forall (fun part => includes (part_body part) delimiter = false)
       (parseMultipart body boundary)
  /\ map part_body (parseMultipart brokenBody (lit "xyz")) = [lit "ab"].
Proof.
  intros delimiter. assert (Hd : delimiter <> []) by done.
  split; [by apply join_split|]. split; [by apply split_clean|].
  split; [|by vm_compute].
  unfold parseMultipart. fold delimiter.
  eapply Forall_omap_inside; [apply Forall_drop, split_clean, Hd|].
  intros raw part Hpart Hraw.
  eapply includes_infix; [by apply parseSection_inside | done].
Qed.
End SplitterFacts.

#[local] Arguments Z.eqb : simpl never.
#[local] Arguments Z.leb : simpl never.
#[local] Arguments Z.ltb : simpl never.
#[local] Arguments Z.gtb : simpl never.

(** * Replacing every match *)

Lemma replace_go_skip m k s : replace_go m k s = replace_go m 0 (drop k s).
Proof.
  revert k; induction s as [|c s IH]; intros k; simpl.
  - by rewrite drop_nil.
  - destruct k; [done|]. simpl. apply IH.
Qed.

Lemma replaceAll_match m c s r n :
  m (c :: s) = Some (r, n) ->
  replaceAll m (c :: s) = r ++ replaceAll m (drop (Nat.pred n) s).
Proof. unfold replaceAll. simpl. intros ->. by rewrite replace_go_skip. Qed.

Lemma replaceAll_copy m c s :
  m (c :: s) = None -> replaceAll m (c :: s) = c :: replaceAll m s.
Proof. unfold replaceAll. simpl. by intros ->. Qed.

(** Induction on a list with the hypothesis for every shorter list. *)
Lemma shorter_ind {A} (P : list A -> Prop) :
  (forall s, (forall t, (length t < length s)%nat -> P t) -> P s) ->
  forall s, P s.
Proof.
  intros Hstep s. remember (length s) as n eqn:Hn. revert s Hn.
  induction n as [n IH] using lt_wf_ind. intros s ->.
  apply Hstep. intros t Ht. by apply (IH (length t)).
Qed.

(** * Quoted-printable *)

Lemma softBreak_cases s :
  softBreak s =
  match s with
  | c :: d :: rest =>
      if negb (c =? cu "=") then None
      else if d =? LF then Some ([], 2%nat)
      else if negb (d =? CR) then None
      else match rest with
           | e :: _ => if e =? LF then Some ([], 3%nat) else None
           | [] => None
           end
  | _ => None
  end.
Proof.
  unfold softBreak, CRLF.
  destruct s as [|c [|d rest]]; simpl.
  - done.
  - by destruct (cu "=" =? c).
  - rewrite (Z.eqb_sym c), (Z.eqb_sym d LF), (Z.eqb_sym d CR).
    destruct (cu "=" =? c); simpl; [|done].
    destruct (LF =? d) eqn:E1, (CR =? d) eqn:E2; simpl; try done.
    + apply Z.eqb_eq in E1, E2. unfold LF, CR in *. lia.
    + destruct rest as [|e rest]; [done|]. rewrite (Z.eqb_sym e).
      by destruct (LF =? e).
Qed.

Lemma removeSoftLineBreaks_replaceAll s :
  replaceAll softBreak s = removeSoftLineBreaks s.
Proof.
  induction s as [s IH] using shorter_ind.
  destruct s as [|c s1]; [done|].
  pose proof (softBreak_cases (c :: s1)) as Hm.
  cbn [removeSoftLineBreaks].
  destruct s1 as [|d s2].
  { rewrite replaceAll_copy by done. by destruct (c =? cu "="). }
  destruct (c =? cu "="); simpl in Hm.
  - destruct (d =? LF).
    { rewrite (replaceAll_match _ _ _ _ _ Hm). simpl. apply IH. simpl. lia. }
    destruct (d =? CR); simpl in Hm.
    + destruct s2 as [|e s3].
      { rewrite replaceAll_copy by done. f_equal. apply IH. simpl. lia. }
      destruct (e =? LF).
      * rewrite (replaceAll_match _ _ _ _ _ Hm). simpl. apply IH. simpl. lia.
      * rewrite replaceAll_copy by done. f_equal. apply IH. simpl. lia.
    + rewrite replaceAll_copy by done. f_equal. apply IH. simpl. lia.
  - rewrite replaceAll_copy by done. f_equal. apply IH. simpl. lia.
Qed.

Lemma substring_middle (pre mid post : jsstring) (a b : Z) :
  a = Z.of_nat (length pre) ->
  b = Z.of_nat (length pre + length mid) ->
  substring (pre ++ mid ++ post) a b = mid.
Proof.
  intros -> ->. unfold substring. rewrite !length_app.
  replace (Z.to_nat _) with (length mid) by lia.
  replace (Z.to_nat _) with (length pre) by lia.
  by rewrite drop_app_length, take_app_length.
Qed.

Lemma parseInt16_pair a b : parseInt16 [a; b] = 16 * hexval a + hexval b.
Proof. unfold parseInt16. simpl. lia. Qed.

(** The loop of the source, started behind [pre], collects what the scan of
    the rest gives. *)
Lemma qp_loop_scan fuel : forall pre suf bytes,
  (length suf <= fuel)%nat ->
  qp_loop fuel (pre ++ suf) (Z.of_nat (length pre)) bytes
  = bytes ++ qp_scan suf.
Proof.
  induction fuel as [|fuel IH]; intros pre suf bytes Hfuel.
  { destruct suf; [|simpl in Hfuel; lia]. simpl. by rewrite app_nil_r. }
  destruct suf as [|c s1].
  { simpl. rewrite app_nil_r, Z.ltb_irrefl. by rewrite app_nil_r. }
  cbn [qp_loop].
  assert (Hnth : nth (Z.to_nat (Z.of_nat (length pre))) (pre ++ c :: s1) 0 = c).
  { rewrite Nat2Z.id. apply nth_middle. }
  rewrite Hnth.
  assert (Hlt : (Z.of_nat (length pre)
                 <? Z.of_nat (length (pre ++ c :: s1))) = true).
  { apply Z.ltb_lt. rewrite length_app. simpl. lia. }
  rewrite Hlt.
  assert (Hnext : forall bs,
    qp_loop fuel (pre ++ c :: s1) (Z.of_nat (length pre) + 1) bs
    = bs ++ qp_scan s1).
  { intros bs. replace (pre ++ c :: s1) with ((pre ++ [c]) ++ s1)
      by (by rewrite <- app_assoc).
    replace (Z.of_nat (length pre) + 1) with (Z.of_nat (length (pre ++ [c])))
      by (rewrite length_app; simpl; lia).
    apply IH. simpl in Hfuel. lia. }
  destruct s1 as [|a [|b s2]].
  - replace (_ <? _) with false
      by (symmetry; apply Z.ltb_ge; rewrite length_app; simpl; lia).
    rewrite andb_false_r, Hnext. simpl. by rewrite <- app_assoc.
  - replace (_ <? _) with false
      by (symmetry; apply Z.ltb_ge; rewrite length_app; simpl; lia).
    rewrite andb_false_r, Hnext. simpl. by rewrite <- app_assoc.
  - replace (_ <? _) with true
      by (symmetry; apply Z.ltb_lt; rewrite length_app; simpl; lia).
    rewrite andb_true_r.
    replace (substring _ _ _) with [a; b].
    2:{ symmetry. replace (pre ++ c :: a :: b :: s2)
          with ((pre ++ [c]) ++ [a; b] ++ s2) by (by rewrite <- app_assoc).
        apply substring_middle; rewrite length_app; simpl; lia. }
    cbn [qp_scan isHexPair]. rewrite <- andb_assoc.
    destruct (c =? cu "="); simpl.
    2:{ rewrite Hnext. by rewrite <- app_assoc. }
    destruct (isHexDigit a && isHexDigit b).
    2:{ rewrite Hnext. by rewrite <- app_assoc. }
    replace (pre ++ c :: a :: b :: s2) with ((pre ++ [c; a; b]) ++ s2)
      by (by rewrite <- app_assoc).
    replace (Z.of_nat (length pre) + 3)
      with (Z.of_nat (length (pre ++ [c; a; b])))
      by (rewrite length_app; simpl; lia).
    rewrite IH by (simpl in Hfuel; lia).
    by rewrite parseInt16_pair, <- app_assoc.
Qed.

Lemma qp_bytes_scan str : qp_bytes str = qp_scan (removeSoftLineBreaks str).
Proof.
  unfold qp_bytes. rewrite removeSoftLineBreaks_replaceAll.
  apply (qp_loop_scan _ [] (removeSoftLineBreaks str) []). done.
Qed.

(** What stands before an equals sign is decoded on its own. *)
Lemma removeSoftLineBreaks_before_eq s t :
  removeSoftLineBreaks (s ++ cu "=" :: t)
  = removeSoftLineBreaks s ++ removeSoftLineBreaks (cu "=" :: t).
Proof.
  induction s as [s IH] using shorter_ind.
  destruct s as [|c s1]; [done|].
  assert (IH1 := IH s1 ltac:(simpl; lia)).
  rewrite <- app_comm_cons. cbn [removeSoftLineBreaks].
  destruct (c =? cu "=") eqn:Ec; [|by rewrite IH1].
  destruct s1 as [|d s2]; [done|].
  rewrite <- app_comm_cons in *.
  destruct (d =? LF); [apply IH; simpl; lia|].
  destruct (d =? CR); [|by rewrite IH1].
  destruct s2 as [|e s3].
  { simpl app at 1. change (cu "=" =? LF) with false. cbv iota.
    by rewrite IH1. }
  rewrite <- app_comm_cons in *.
  destruct (e =? LF); [apply IH; simpl; lia|]. by rewrite IH1.
Qed.

Lemma qp_scan_three c a b s :
  qp_scan (c :: a :: b :: s)
  = if (c =? cu "=") && isHexDigit a && isHexDigit b
    then (16 * hexval a + hexval b) :: qp_scan s
    else c :: qp_scan (a :: b :: s).
Proof. done. Qed.

Lemma qp_scan_before_eq s t :
  qp_scan (s ++ cu "=" :: t) = qp_scan s ++ qp_scan (cu "=" :: t).
Proof.
  induction s as [s IH] using shorter_ind.
  destruct s as [|c s1]; [done|].
  assert (IH1 := IH s1 ltac:(simpl; lia)).
  rewrite <- app_comm_cons.
  destruct s1 as [|a [|b s2]].
  - simpl app. destruct t as [|b t]; [done|].
    rewrite qp_scan_three. change (isHexDigit (cu "=")) with false.
    by rewrite andb_false_r.
  - simpl app in *. rewrite qp_scan_three.
    change (isHexDigit (cu "=")) with false.
    rewrite andb_false_r. cbv iota. by rewrite IH1.
  - rewrite <- !app_comm_cons in *. rewrite !qp_scan_three.
    destruct (_ && _ && _).
    + rewrite <- app_comm_cons. f_equal. apply IH. simpl. lia.
    + by rewrite IH1.
Qed.

Lemma isHexDigit_range a : isHexDigit a = true -> 48 <= a <= 102.
Proof. unfold isHexDigit, isDigit. lia. Qed.

(** An escape at the very end of the text is decoded like any other. *)
Lemma qp_bytes_final_escape s a b :
  isHexDigit a = true -> isHexDigit b = true ->
  qp_bytes (s ++ [cu "="; a; b]) = qp_bytes s ++ [16 * hexval a + hexval b].
Proof.
  intros Ha Hb. rewrite !qp_bytes_scan, removeSoftLineBreaks_before_eq.
  assert (Hrsb : removeSoftLineBreaks [cu "="; a; b] = [cu "="; a; b]).
  { assert (Hne : (a =? cu "=") = false)
      by (change (cu "=") with 61; unfold isHexDigit, isDigit in Ha; lia).
    apply isHexDigit_range in Ha, Hb. cbn [removeSoftLineBreaks].
    change (cu "=" =? cu "=") with true. cbv iota.
    replace (a =? LF) with false by (unfold LF; lia).
    replace (a =? CR) with false by (unfold CR; lia).
    rewrite Hne. by destruct (b =? cu "="). }
  rewrite Hrsb, qp_scan_before_eq, qp_scan_three.
  change (cu "=" =? cu "=") with true. by rewrite Ha, Hb.
Qed.

Section QuotedPrintableFacts.
Context `{Engine}.

(** C2. [decodeQuotedPrintable] takes the soft line breaks out first and
    then scans from left to right: an equals sign followed by two
    hexadecimal digits gives the byte they denote, any other unit gives
    itself, stored as a byte.  The text A=3DB gives A=B, a soft line break
    between A and B gives AB, and an escape that ends the input gives its
    byte as well. *)
Theorem decodeQuotedPrintable_follows_spec (str charset : jsstring) :
  decodeQuotedPrintable str charset
  = TextDecoder_decode (getTextDecoder charset)
      (Uint8Array (qp_scan (removeSoftLineBreaks str)))
  /\ decodeQuotedPrintable (lit "A=3DB") (lit "utf-8") = lit "A=B"
  /\ decodeQuotedPrintable (lit "A=" ++ CRLF ++ lit "B") (lit "utf-8")
     = lit "AB"
  /\ (forall s a b, isHexDigit a = true -> isHexDigit b = true ->
        qp_bytes (s ++ [cu "="; a; b])
        = qp_bytes s ++ [16 * hexval a + hexval b]).
Proof.
  split; [|split; [|split]].
  - unfold decodeQuotedPrintable. by rewrite qp_bytes_scan.
  - by vm_compute.
  - by vm_compute.
  - apply qp_bytes_final_escape.
Qed.

End QuotedPrintableFacts.

(** * Header blocks *)

Lemma trimStart_keeps x c y :
  isSpace c = false -> trimStart (x ++ c :: y) <> [].
Proof.
  intros Hc. induction x as [|d x IH]; simpl; [by rewrite Hc|].
  by destruct (isSpace d).
Qed.

Lemma trim_keeps c s : isSpace c = false -> truthy (trim (c :: s)) = true.
Proof.
  intros Hc. unfold trim, trimEnd. simpl. rewrite Hc. simpl.
  destruct (rev (trimStart (rev s ++ [c]))) eqn:E; [|done].
  apply (f_equal (@rev Z)) in E. rewrite rev_involutive in E. simpl in E.
  by apply trimStart_keeps in E.
Qed.

Lemma substring_head c s i :
  0 < i -> exists t, substring (c :: s) 0 i = c :: t.
Proof.
  intros Hi. unfold substring.
  set (n := Z.of_nat (length (c :: s))).
  assert (0 < n) by (unfold n; simpl; lia).
  replace (Z.to_nat (Z.min _ _)) with 0%nat by lia.
  destruct (Z.to_nat _) eqn:E; [lia|]. simpl. eauto.
Qed.

Section HeaderFacts.
Context `{Engine}.

Lemma toLowerCase_no_upper s :
  Forall (fun c => isUpper c = false) (toLowerCase s).
Proof.
  unfold toLowerCase. induction s as [|c s IH]; simpl; [constructor|].
  apply Forall_app. split; [|done].
  destruct (c <? 128) eqn:Ec.
  - constructor; [|constructor]. unfold asciiLower, isUpper.
    destruct ((65 <=? c) && (c <=? 90)) eqn:E; lia.
  - apply Forall_forall. intros d Hd. apply list_elem_of_In in Hd.
    apply (unicodeLower_not_upper c); [lia | done].
Qed.

(** The line opens a header whose name is not empty. *)
Lemma headerKey_step st line k :
  headerKey line = Some k ->
  parseHeaders_step st line
  = {| hs_headers := flush st;
       currentKey := trim (substring line 0 (indexOf line (lit ":")));
       currentValue := headerValue line |}
  /\ truthy (trim (substring line 0 (indexOf line (lit ":")))) = true
  /\ k = toLowerCase (trim (substring line 0 (indexOf line (lit ":")))).
Proof.
  unfold headerKey, parseHeaders_step.
  destruct (startsWithSpace line) eqn:Es; [done|].
  destruct (_ >? 0) eqn:Ei; [|done]. intros [= <-].
  split; [done|]. split; [|done].
  destruct line as [|c line]; [done|]. simpl in Es.
  destruct (substring_head c line (indexOf (c :: line) (lit ":")))
    as [t ->]; [lia|].
  by apply trim_keeps.
Qed.

(** The line opens no header: the header at hand stays, a continuation is
    added to its value, any other line is dropped. *)
Lemma headerKey_none_step st line :
  headerKey line = None ->
  currentKey (parseHeaders_step st line) = currentKey st
  /\ currentValue (parseHeaders_step st line)
     = folded (currentValue st) [line]
  /\ (hs_headers (parseHeaders_step st line) = hs_headers st
      \/ hs_headers (parseHeaders_step st line) = flush st).
Proof.
  unfold headerKey, parseHeaders_step, folded. simpl.
  destruct (startsWithSpace line) eqn:Es.
  - intros _. simpl. auto.
  - destruct (_ >? 0) eqn:Ei; [done|]. simpl. auto.
Qed.
End HeaderFacts.

Section HeaderBlocks.
Context `{Engine}.

Lemma folded_cons value line lines :
  folded value (line :: lines) = folded (folded value [line]) lines.
Proof. unfold folded. simpl. by destruct (startsWithSpace line). Qed.

(** Lines that open no header leave the header at hand in place and fold
    their continuations into its value. *)
Lemma parseHeaders_segment seg : forall st,
  Forall (fun line => headerKey line = None) seg ->
  currentKey (fold_left parseHeaders_step seg st) = currentKey st
  /\ currentValue (fold_left parseHeaders_step seg st)
     = folded (currentValue st) seg.
Proof.
  induction seg as [|line seg IH]; intros st Hseg; [done|].
  inversion_clear Hseg as [|? ? Hline Hrest]. simpl.
  destruct (headerKey_none_step st line Hline) as (Hk & Hv & _).
  destruct (IH (parseHeaders_step st line) Hrest) as [-> ->].
  by rewrite Hk, Hv, <- folded_cons.
Qed.

Lemma settled_flush k x st : settled k x st -> flush st !! k = Some x.
Proof.
  intros [Hk Hne]. unfold flush. destruct (truthy _); [|done].
  destruct (jsstring_eqb _ _); [done|].
  by rewrite lookup_insert_ne by auto.
Qed.

(** No state of the loop holds the name __proto__. *)
Lemma flush_no_proto st :
  hs_headers st !! lit "__proto__" = None -> flush st !! lit "__proto__" = None.
Proof.
  intros Hnone. unfold flush. destruct (truthy _); [|done].
  unfold jsstring_eqb. case_bool_decide as Hkey; [done|].
  by rewrite lookup_insert_ne.
Qed.

Lemma step_no_proto st line :
  hs_headers st !! lit "__proto__" = None ->
  hs_headers (parseHeaders_step st line) !! lit "__proto__" = None.
Proof.
  intros Hnone. unfold parseHeaders_step.
  destruct (startsWithSpace line); [done|].
  destruct (_ >? 0); by apply flush_no_proto.
Qed.

Lemma parseHeaders_no_proto raw : parseHeaders raw !! lit "__proto__" = None.
Proof.
  unfold parseHeaders, parseHeaders_lines. apply flush_no_proto.
  generalize (splitLines raw) as lines. intros lines.
  assert (Hinit : hs_headers
                    {| hs_headers := ∅; currentKey := []; currentValue := [] |}
                  !! lit "__proto__" = None) by apply lookup_empty.
  revert Hinit. generalize (Build_HeaderState ∅ [] []).
  induction lines as [|l lines IH]; intros st Hst; [done|].
  simpl. by apply IH, step_no_proto.
Qed.

Lemma settled_step k x st line :
  settled k x st -> headerKey line <> Some k ->
  settled k x (parseHeaders_step st line).
Proof.
  intros Hst Hline. destruct (headerKey line) as [k'|] eqn:E.
  - destruct (headerKey_step st line k' E) as (-> & Ht & ->).
    split; simpl; [by apply settled_flush|]. intros _ Heq. by subst.
  - destruct (headerKey_none_step st line E) as (Hk & _ & Hh).
    split; [|rewrite Hk; apply Hst].
    destruct Hh as [-> | ->]; [apply Hst | by apply settled_flush].
Qed.

Lemma settled_fold k x lines : forall st,
  settled k x st -> Forall (fun line => headerKey line <> Some k) lines ->
  settled k x (fold_left parseHeaders_step lines st).
Proof.
  induction lines as [|line lines IH]; intros st Hst Hl; [done|].
  inversion_clear Hl. simpl. apply IH; [by apply settled_step | done].
Qed.

(** The last line that opens the header [k] decides what is stored for
    it, together with the continuation lines that follow it before the next
    header opens. *)
Lemma parseHeaders_last_wins pre line seg post k :
  headerKey line = Some k ->
  Forall (fun l => headerKey l = None) seg ->
  match post with [] => True | p :: _ => is_Some (headerKey p) end ->
  Forall (fun l => headerKey l <> Some k) post ->
  k <> lit "__proto__" ->
  flush (parseHeaders_lines (pre ++ line :: seg ++ post)) !! k
  = Some (decodeMimeHeader (folded (headerValue line) seg)).
Proof.
  intros Hline Hseg Hnext Hpost Hproto. unfold parseHeaders_lines.
  rewrite fold_left_app. simpl. rewrite fold_left_app.
  set (st0 := fold_left _ pre _).
  destruct (headerKey_step st0 line k Hline) as (-> & Ht & Hk).
  set (st1 := Build_HeaderState _ _ _).
  destruct (parseHeaders_segment seg st1 Hseg) as [Hkey Hval].
  set (st2 := fold_left _ seg st1) in *. simpl in Hkey, Hval.
  assert (Hflush : flush st2 !! k
                   = Some (decodeMimeHeader (folded (headerValue line) seg))).
  { unfold flush. rewrite Hkey, Ht, Hval, <- Hk.
    replace (jsstring_eqb k (lit "__proto__")) with false
      by (symmetry; unfold jsstring_eqb; by apply bool_decide_eq_false).
    apply lookup_insert_eq. }
  destruct post as [|p post]; [done|]. simpl.
  inversion_clear Hpost as [|? ? Hp Hrest]. destruct Hnext as [k' Hk'].
  apply settled_flush, settled_fold; [|done].
  destruct (headerKey_step st2 p k' Hk') as (-> & _ & Hlow).
  split; simpl; [done|]. intros _ Heq. apply Hp. rewrite Hk'. congruence.
Qed.

Lemma lowerKeys_flush st : lowerKeys (hs_headers st) -> lowerKeys (flush st).
Proof.
  intros Hm. unfold flush. destruct (truthy _); [|done].
  destruct (jsstring_eqb _ _); [done|]. intros k.
  rewrite lookup_insert. case_decide as Hk; [|apply Hm]. subst k.
  intros _. split; [eauto | apply toLowerCase_no_upper].
Qed.

Lemma lowerKeys_step st line :
  lowerKeys (hs_headers st) -> lowerKeys (hs_headers (parseHeaders_step st line)).
Proof.
  intros Hm. unfold parseHeaders_step.
  destruct (startsWithSpace line); [done|].
  destruct (_ >? 0); by apply lowerKeys_flush.
Qed.

Lemma lowerKeys_parseHeaders raw : lowerKeys (parseHeaders raw).
Proof.
  unfold parseHeaders, parseHeaders_lines. apply lowerKeys_flush.
  generalize (splitLines raw) as lines. intros lines.
  assert (Hinit : lowerKeys (hs_headers
            {| hs_headers := ∅; currentKey := []; currentValue := [] |})).
  { intros k. simpl. rewrite lookup_empty. by intros []. }
  revert Hinit. generalize (Build_HeaderState ∅ [] []).
  induction lines as [|l lines IH]; intros st Hst; [done|].
  simpl. by apply IH, lowerKeys_step.
Qed.

(** C6. A header named __proto__ is not stored, once or repeated: the
    assignment to the object literal runs the setter every object inherits,
    which ignores a text, so of two such lines the last decides nothing
    and the mapping stays empty.  Under every other name the mapping is as
    asked: its names are lower-cased; a line that begins with white space is
    joined to the value of the header before it with one space between, as
    in the header Subject folded over two lines; and of several lines with
    the same name the last one decides the value that is stored. *)
Theorem proto_header_is_not_stored (raw : jsstring) :
  parseHeaders protoHeaders = ∅
  /\ parseHeaders raw !! lit "__proto__" = None
  /\ lowerKeys (parseHeaders raw)
  /\ parseHeaders (lit "Subject: Hello" ++ CRLF ++ lit " World")
     = {[ lit "subject" := lit "Hello World" ]}
  /\ (forall pre line seg post k,
        splitLines raw = pre ++ line :: seg ++ post ->
        headerKey line = Some k ->
        Forall (fun l => headerKey l = None) seg ->
        match post with [] => True | p :: _ => is_Some (headerKey p) end ->
        Forall (fun l => headerKey l <> Some k) post ->
        k <> lit "__proto__" ->
        parseHeaders raw !! k
        = Some (decodeMimeHeader (folded (headerValue line) seg))).
Proof.
  split; [by vm_compute|]. split; [apply parseHeaders_no_proto|].
  split; [apply lowerKeys_parseHeaders|]. split; [by vm_compute|].
  intros pre line seg post k Hlines. unfold parseHeaders. rewrite Hlines.
  apply parseHeaders_last_wins.
Qed.

End HeaderBlocks.

(** * Parameters of a header value *)

Section ParameterFacts.
Context `{Engine}.

Lemma toLowerCase_app s t : toLowerCase (s ++ t) = toLowerCase s ++ toLowerCase t.
Proof. unfold toLowerCase. apply flat_map_app. Qed.

(** Where a name matches without regard to case, the lower-cased text has
    the lower-cased name. *)
Lemma startsWithCI_lower p : forall s,
  startsWithCI s p = true ->
  exists r, s = take (length p) s ++ r
            /\ toLowerCase (take (length p) s) = map asciiLower p.
Proof.
  induction p as [|a p IH]; intros s Hs; simpl in *.
  { by exists s. }
  destruct s as [|b s]; [done|].
  apply andb_true_iff in Hs as [Hab Hs].
  destruct (IH s Hs) as (r & Hr & Hlow). exists r. simpl. split.
  - by rewrite <- Hr.
  - unfold eqCI in Hab. change (toLowerCase (b :: take (length p) s))
      with ((if b <? 128 then [asciiLower b] else unicodeLower b)
            ++ toLowerCase (take (length p) s)).
    rewrite Hlow. replace (b <? 128) with true by lia. simpl.
    f_equal. lia.
Qed.

Lemma matchParamAt_name name stop s v :
  matchParamAt name stop s = Some v -> startsWithCI s name = true.
Proof. unfold matchParamAt. by destruct (startsWithCI s name). Qed.

Lemma startsWithCI_infix p s :
  startsWithCI s p = true -> infix (map asciiLower p) (toLowerCase s).
Proof.
  intros Hs. apply startsWithCI_lower in Hs as (r & Hr & Hlow).
  exists [], (toLowerCase r). simpl.
  by rewrite <- Hlow, <- toLowerCase_app, <- Hr.
Qed.

Lemma matchParam_name name stop s v :
  matchParam name stop s = Some v ->
  infix (map asciiLower name) (toLowerCase s).
Proof.
  induction s as [|c s IH]; cbn [matchParam].
  - destruct (matchParamAt name stop []) eqn:E; [|done]. intros _.
    by apply matchParamAt_name, startsWithCI_infix in E.
  - destruct (matchParamAt name stop (c :: s)) eqn:E.
    + intros _. by apply matchParamAt_name, startsWithCI_infix in E.
    + intros Hs. apply IH in Hs as (x & y & Hxy).
      change (c :: s) with ([c] ++ s). rewrite toLowerCase_app, Hxy.
      exists (toLowerCase [c] ++ x), y. by rewrite <- app_assoc.
Qed.

(** A content type that does not hold the text [boundary=] in any case has
    no boundary. *)
Lemma no_boundary_attribute ct :
  includes (toLowerCase ct) (lit "boundary=") = false ->
  matchParam (lit "boundary=") stopToken ct = None.
Proof.
  intros Hno. destruct (matchParam _ _ ct) eqn:E; [|done].
  apply matchParam_name, includes_spec in E.
  change (map asciiLower (lit "boundary=")) with (lit "boundary=") in E.
  congruence.
Qed.

Lemma toLowerCase_nil : toLowerCase [] = [].
Proof. done. Qed.

(** C3. A message whose Content-Type holds the word multipart and no
    boundary attribute is parsed to an empty text, an empty HTML text and no
    attachment. *)
Theorem multipart_without_boundary (raw ct : jsstring) :
  parseHeaders (headersRaw raw) !! lit "content-type" = Some ct ->
  includes (toLowerCase ct) (lit "multipart") = true ->
  includes (toLowerCase ct) (lit "boundary=") = false ->
  textContent (email_body (parseMimeEmail raw)) = []
  /\ htmlContent (email_body (parseMimeEmail raw)) = []
  /\ attachments (email_body (parseMimeEmail raw)) = [].
Proof.
  intros Hct Hmulti Hno.
  assert (Hget : getOr (parseHeaders (headersRaw raw)) "content-type"
                   (lit "text/plain") = ct).
  { unfold getOr, orElse. rewrite Hct. simpl.
    destruct ct; [|done]. by rewrite toLowerCase_nil in Hmulti. }
  unfold parseMimeEmail. simpl. rewrite Hget. unfold parseBody.
  by rewrite Hmulti, (no_boundary_attribute ct Hno).
Qed.

End ParameterFacts.

(** * Base64 there and back *)

#[local] Arguments Z.div : simpl never.
#[local] Arguments Z.modulo : simpl never.
#[local] Arguments Z.mul : simpl never.

Lemma land_shiftl_low x y k :
  0 <= k -> 0 <= y < 2 ^ k -> Z.land (Z.shiftl x k) y = 0.
Proof.
  intros Hk Hy. apply Z.bits_inj'. intros n Hn.
  rewrite Z.land_spec, Z.bits_0.
  destruct (Z.lt_ge_cases n k) as [Hlt | Hge].
  - by rewrite Z.shiftl_spec_low.
  - rewrite <- (Z.mod_small y (2 ^ k)) by lia.
    rewrite Z.mod_pow2_bits_high by lia. apply andb_false_r.
Qed.

Lemma lor_shiftl_add x y k :
  0 <= k -> 0 <= y < 2 ^ k -> Z.lor (Z.shiftl x k) y = x * 2 ^ k + y.
Proof.
  intros Hk Hy. pose proof (land_shiftl_low x y k Hk Hy) as Hland.
  rewrite <- Z.lxor_lor, <- Z.add_nocarry_lxor by done.
  by rewrite Z.shiftl_mul_pow2.
Qed.

Lemma byte_of_bits n k :
  0 <= k -> Z.land (Z.shiftr n k) 255 = (n / 2 ^ k) mod 256.
Proof.
  intros Hk. change 255 with (Z.ones 8). rewrite Z.land_ones by lia.
  by rewrite Z.shiftr_div_pow2.
Qed.

Ltac divmod := Z.div_mod_to_equations; lia.

(** Four sextets of three bytes give the three bytes back. *)
Lemma b64bytes_group a b c vs :
  0 <= a < 256 -> 0 <= b < 256 -> 0 <= c < 256 ->
  b64bytes (a / 4 :: (a mod 4) * 16 + b / 16 :: (b mod 16) * 4 + c / 64
              :: c mod 64 :: vs)
  = a :: b :: c :: b64bytes vs.
Proof.
  intros Ha Hb Hc. cbn [b64bytes].
  set (s1 := a / 4). set (s2 := (a mod 4) * 16 + b / 16).
  set (s3 := (b mod 16) * 4 + c / 64). set (s4 := c mod 64).
  assert (0 <= s1 < 64 /\ 0 <= s2 < 64 /\ 0 <= s3 < 64 /\ 0 <= s4 < 64)
    as (H1 & H2 & H3 & H4) by (unfold s1, s2, s3, s4; divmod).
  assert (Hn : Z.lor (Z.shiftl s1 18)
                 (Z.lor (Z.shiftl s2 12) (Z.lor (Z.shiftl s3 6) s4))
               = a * 65536 + b * 256 + c).
  { rewrite (lor_shiftl_add s3 s4 6) by lia.
    rewrite (lor_shiftl_add s2 _ 12) by lia.
    rewrite (lor_shiftl_add s1 _ 18) by lia.
    unfold s1, s2, s3, s4. change (2 ^ 6) with 64.
    change (2 ^ 12) with 4096. change (2 ^ 18) with 262144. divmod. }
  rewrite Hn.
  rewrite (byte_of_bits (a * 65536 + b * 256 + c) 16) by lia.
  rewrite (byte_of_bits (a * 65536 + b * 256 + c) 8) by lia.
  change 255 with (Z.ones 8). rewrite Z.land_ones by lia.
  change (2 ^ 16) with 65536. change (2 ^ 8) with 256.
  f_equal; [divmod|]. f_equal; [divmod|]. f_equal. divmod.
Qed.

Lemma b64bytes_two a b :
  0 <= a < 256 -> 0 <= b < 256 ->
  b64bytes [a / 4; (a mod 4) * 16 + b / 16; (b mod 16) * 4] = [a; b].
Proof.
  intros Ha Hb. cbn [b64bytes].
  set (s1 := a / 4). set (s2 := (a mod 4) * 16 + b / 16).
  set (s3 := (b mod 16) * 4).
  assert (0 <= s1 < 64 /\ 0 <= s2 < 64 /\ 0 <= s3 < 64)
    as (H1 & H2 & H3) by (unfold s1, s2, s3; divmod).
  assert (Hn : Z.lor (Z.shiftl s1 12) (Z.lor (Z.shiftl s2 6) s3)
               = a * 1024 + b * 4).
  { rewrite (lor_shiftl_add s2 s3 6) by lia.
    rewrite (lor_shiftl_add s1 _ 12) by lia.
    unfold s1, s2, s3. change (2 ^ 6) with 64. change (2 ^ 12) with 4096.
    divmod. }
  rewrite Hn.
  rewrite (byte_of_bits (a * 1024 + b * 4) 10) by lia.
  rewrite (byte_of_bits (a * 1024 + b * 4) 2) by lia.
  change (2 ^ 10) with 1024. change (2 ^ 2) with 4.
  f_equal; [divmod|]. f_equal. divmod.
Qed.

Lemma b64bytes_one a :
  0 <= a < 256 -> b64bytes [a / 4; (a mod 4) * 16] = [a].
Proof.
  intros Ha. cbn [b64bytes].
  rewrite (lor_shiftl_add (a / 4) _ 6) by divmod.
  rewrite (byte_of_bits (a / 4 * 2 ^ 6 + a mod 4 * 16) 4) by lia.
  change (2 ^ 6) with 64. change (2 ^ 4) with 16. f_equal. divmod.
Qed.

Lemma b64bytes_sextets bs : isBytes bs -> b64bytes (b64sextets bs) = bs.
Proof.
  induction bs as [bs IH] using shorter_ind. intros Hbs.
  destruct bs as [|a [|b [|c bs]]]; [done| | |].
  - inversion_clear Hbs. by apply b64bytes_one.
  - inversion_clear Hbs as [|? ? ? Hb]. inversion_clear Hb.
    by apply b64bytes_two.
  - inversion_clear Hbs as [|? ? ? Hb]. inversion_clear Hb as [|? ? ? Hc].
    inversion_clear Hc. cbn [b64sextets].
    rewrite b64bytes_group by done. do 3 f_equal. apply IH; [simpl; lia | done].
Qed.

Lemma b64val_char v : 0 <= v < 64 -> b64val (b64char v) = Some v.
Proof.
  intros Hv. unfold b64char.
  destruct (v <? 26) eqn:E1; [|destruct (v <? 52) eqn:E2;
    [|destruct (v <? 62) eqn:E3; [|destruct (v =? 62) eqn:E4]]];
  unfold b64val, isUpper, isLower, isDigit;
  repeat match goal with
         | |- context [if ?b then _ else _] => destruct b eqn:?
         end; first [f_equal; lia | lia].
Qed.

Lemma b64char_plain v :
  0 <= v < 64 ->
  isSpace (b64char v) = false /\ isAsciiWhitespace (b64char v) = false
  /\ (b64char v =? cu "=") = false.
Proof.
  intros Hv. change (cu "=") with 61. unfold b64char.
  destruct (v <? 26) eqn:E1; [|destruct (v <? 52) eqn:E2;
    [|destruct (v <? 62) eqn:E3; [|destruct (v =? 62) eqn:E4]]];
  unfold isSpace, isAsciiWhitespace; lia.
Qed.

Lemma b64sextets_range bs :
  isBytes bs -> Forall (fun v => 0 <= v < 64) (b64sextets bs).
Proof.
  induction bs as [bs IH] using shorter_ind. intros Hbs.
  destruct bs as [|a [|b [|c bs]]]; cbn [b64sextets].
  - constructor.
  - inversion_clear Hbs. repeat constructor; divmod.
  - inversion_clear Hbs as [|? ? ? Hb]. inversion_clear Hb.
    repeat constructor; divmod.
  - inversion_clear Hbs as [|? ? ? Hb]. inversion_clear Hb as [|? ? ? Hc].
    inversion_clear Hc.
    repeat (constructor; [divmod|]). apply IH; [simpl; lia | done].
Qed.

Lemma b64vals_chars vs :
  Forall (fun v => 0 <= v < 64) vs -> b64vals (map b64char vs) = Some vs.
Proof.
  induction 1 as [|v vs Hv _ IH]; simpl; [done|].
  by rewrite b64val_char, IH.
Qed.

(** The number of sextets is never one more than a multiple of four, and
    with the padding the text is made of groups of four. *)
Lemma b64sextets_length bs :
  (length (b64sextets bs) mod 4 <> 1
   /\ length (b64sextets bs) + length (b64padding bs)
      = 4 * ((length bs + 2) / 3))%nat.
Proof.
  induction bs as [bs IH] using shorter_ind.
  destruct bs as [|a [|b [|c bs]]]; [done..|].
  destruct (IH bs ltac:(simpl; lia)) as [Hmod Hlen].
  cbn [b64sextets length]. unfold b64padding in *. cbn [length].
  replace (S (S (S (length bs)))) with (length bs + 1 * 3)%nat by lia.
  rewrite Nat.Div0.mod_add.
  replace (length bs + 1 * 3 + 2)%nat with (length bs + 2 + 1 * 3)%nat by lia.
  rewrite Nat.div_add by lia. split; [|lia].
  replace (S (S (S (S (length (b64sextets bs))))))
    with (length (b64sextets bs) + 1 * 4)%nat by lia.
  by rewrite Nat.Div0.mod_add.
Qed.

Lemma stripPadding_encoded x pad :
  Forall (fun c => (c =? cu "=") = false) x ->
  pad = [] \/ (x <> [] /\ (pad = [cu "="] \/ pad = [cu "="; cu "="])) ->
  stripPadding (x ++ pad) = x.
Proof.
  intros Hx Hpad. unfold stripPadding. rewrite rev_app_distr.
  apply Forall_rev in Hx.
  destruct Hpad as [-> | [Hne [-> | ->]]]; simpl.
  - rewrite app_nil_r. destruct (rev x) as [|c r]; [done|].
    inversion_clear Hx as [|? ? Hc]. by rewrite Hc.
  - change (cu "=" =? cu "=") with true. cbv iota.
    destruct (rev x) as [|c r] eqn:E.
    { apply (f_equal (@rev Z)) in E. by rewrite rev_involutive in E. }
    inversion_clear Hx as [|? ? Hc]. rewrite Hc, <- E. apply rev_involutive.
  - change (cu "=" =? cu "=") with true. cbv iota. apply rev_involutive.
Qed.

Lemma filter_all_true (p : Z -> bool) (l : list Z) :
  Forall (fun x => p x = true) l -> filter (fun x => p x) l = l.
Proof.
  induction 1 as [|x l Hx _ IH]; [done|].
  rewrite filter_cons. destruct (decide _) as [|Hn]; [by rewrite IH|].
  by rewrite Hx in Hn.
Qed.

(** What the sender writes has neither white space nor a foreign unit. *)
Lemma b64encode_plain bs :
  isBytes bs ->
  Forall (fun c => (c =? cu "=") = false) (map b64char (b64sextets bs))
  /\ Forall (fun c => negb (isSpace c) = true) (b64encode bs)
  /\ Forall (fun c => negb (isAsciiWhitespace c) = true) (b64encode bs).
Proof.
  intros Hbs. apply b64sextets_range in Hbs.
  assert (Hpad : Forall (fun c => negb (isSpace c) = true
                                  /\ negb (isAsciiWhitespace c) = true)
                   (b64padding bs)).
  { unfold b64padding. destruct (_ mod 3)%nat as [|[|[|]]];
      repeat constructor. }
  unfold b64encode. split; [|split].
  - apply Forall_map. eapply Forall_impl; [exact Hbs|].
    intros v Hv. by apply b64char_plain.
  - apply Forall_app. split.
    + apply Forall_map. eapply Forall_impl; [exact Hbs|].
      intros v Hv. simpl. by destruct (b64char_plain v Hv) as (-> & _).
    + eapply Forall_impl; [exact Hpad|]. by intros c [? ?].
  - apply Forall_app. split.
    + apply Forall_map. eapply Forall_impl; [exact Hbs|].
      intros v Hv. simpl. by destruct (b64char_plain v Hv) as (_ & -> & _).
    + eapply Forall_impl; [exact Hpad|]. by intros c [? ?].
Qed.

(** Decoding what the sender wrote gives the bytes back. *)
Lemma atob_b64encode bs : isBytes bs -> atob (b64encode bs) = Some bs.
Proof.
  intros Hbs. destruct (b64encode_plain bs Hbs) as (Hne & _ & Hws).
  destruct (b64sextets_length bs) as [Hmod Hlen].
  unfold atob. rewrite (filter_all_true _ _ Hws).
  assert (Hfour : (Z.of_nat (length (b64encode bs)) mod 4 =? 0) = true).
  { unfold b64encode. rewrite length_app, length_map, Hlen.
    apply Z.eqb_eq. rewrite Nat2Z.inj_mul, Z.mul_comm.
    apply Z.mod_mul. lia. }
  rewrite Hfour.
  assert (Hstrip : stripPadding (b64encode bs) = map b64char (b64sextets bs)).
  { apply stripPadding_encoded; [done|]. unfold b64padding.
    destruct bs as [|a bs]; [by left|].
    destruct (_ mod 3)%nat as [|[|[|]]]; [by left | right | right | by left].
    - split; [by destruct bs as [|? [|? ?]] | by right].
    - split; [by destruct bs as [|? [|? ?]] | by left]. }
  rewrite Hstrip, length_map.
  replace (_ =? 1) with false.
  2:{ symmetry. apply Z.eqb_neq. intros Hone. apply Hmod.
      apply Nat2Z.inj. rewrite Nat2Z.inj_mod. exact Hone. }
  rewrite b64vals_chars by by apply b64sextets_range.
  simpl. f_equal. by apply b64bytes_sextets.
Qed.

(** * Attachments *)

Lemma land_255_byte x : 0 <= Z.land x 255 < 256.
Proof.
  change 255 with (Z.ones 8). rewrite Z.land_ones by lia.
  apply Z.mod_pos_bound. lia.
Qed.

Lemma b64bytes_bytes vs : Forall (fun b => 0 <= b < 256) (b64bytes vs).
Proof.
  induction vs as [vs IH] using shorter_ind.
  destruct vs as [|a [|b [|c [|d vs]]]]; simpl;
    repeat (constructor; [apply land_255_byte|]); try constructor.
  apply IH. simpl. lia.
Qed.

Lemma atob_bytes s binary :
  atob s = Some binary -> Forall (fun b => 0 <= b < 256) binary.
Proof.
  unfold atob. destruct (_ =? 1); [done|].
  destruct (b64vals _); [|done]. intros [= <-]. apply b64bytes_bytes.
Qed.

Lemma Uint8Array_bytes bs :
  Forall (fun b => 0 <= b < 256) bs -> Uint8Array bs = bs.
Proof.
  unfold Uint8Array. induction 1 as [|b bs Hb _ IH]; simpl; [done|].
  rewrite IH. f_equal. by apply Z.mod_small.
Qed.

Lemma Forall_infix (P : Z -> Prop) t s : infix t s -> Forall P s -> Forall P t.
Proof.
  intros (x & y & ->) Hs. apply Forall_app in Hs as [_ Hs].
  by apply Forall_app in Hs as [Hs _].
Qed.

Lemma takeWhile_prefix p s : exists r, s = takeWhile p s ++ r.
Proof.
  induction s as [|c s [r IH]]; simpl; [by exists []|].
  destruct (p c); [|by exists (c :: s)]. exists r. simpl. by rewrite <- IH.
Qed.

Lemma infix_takeWhile p s : infix (takeWhile p s) s.
Proof. destruct (takeWhile_prefix p s) as [r Hr]. by exists [], r. Qed.

Lemma infix_cons t c s : infix t s -> infix t (c :: s).
Proof. intros (x & y & ->). by exists (c :: x), y. Qed.

Lemma matchParamAt_inside name stop s v :
  matchParamAt name stop s = Some v -> infix v s.
Proof.
  unfold matchParamAt. destruct (startsWithCI s name); [|done].
  assert (Hr' : forall r : jsstring, infix r s ->
            infix (match r with
                   | c :: r1 => if isQuote c then r1 else r
                   | [] => r
                   end) s).
  { intros [|c r1] Hr; [done|]. destruct (isQuote c); [|done].
    eapply infix_trans; [|exact Hr]. apply infix_cons, infix_refl. }
  specialize (Hr' _ (infix_drop (length name) s)).
  destruct (takeWhile _ _) eqn:E; [done|]. intros [= <-]. rewrite <- E.
  eapply infix_trans; [apply infix_takeWhile | done].
Qed.

Lemma matchParam_inside name stop s v :
  matchParam name stop s = Some v -> infix v s.
Proof.
  induction s as [|c s IH]; cbn [matchParam].
  - destruct (matchParamAt name stop []) eqn:E; [|done].
    intros [= <-]. by apply matchParamAt_inside in E.
  - destruct (matchParamAt name stop (c :: s)) eqn:E.
    + intros [= <-]. by apply matchParamAt_inside in E.
    + intros Hs. by apply infix_cons, IH.
Qed.

(** Where no match starts, the text is copied. *)
Lemma replaceAll_none m s :
  (forall j, m (drop j s) = None) -> replaceAll m s = s.
Proof.
  induction s as [|c s IH]; intros Hm; [done|].
  rewrite replaceAll_copy by apply (Hm 0%nat). f_equal.
  apply IH. intros j. apply (Hm (S j)).
Qed.

Section AttachmentFacts.
Context `{Engine}.

(** A text without the opening of an encoded word is left as it is. *)
Lemma decodeMimeHeader_plain s :
  includes s (lit "=?") = false -> decodeMimeHeader s = s.
Proof.
  intros Hs. unfold decodeMimeHeader. destruct s as [|c s]; [done|].
  simpl negb. cbv iota. apply replaceAll_none. intros j.
  unfold encodedWord, matchEncodedWord.
  unfold includes in Hs. destruct (search _ _) eqn:E; [done|].
  by rewrite (search_None _ _ j E).
Qed.

Lemma attachments_nested parts : forall acc,
  attachments (fold_left parseBody_nested parts acc) = attachments acc.
Proof.
  induction parts as [|p parts IH]; intros acc; [done|].
  simpl. rewrite IH. unfold parseBody_nested.
  destruct (includes _ _); [done|]. by destruct (includes _ _).
Qed.

Lemma attachments_part acc part :
  attachments (parseBody_part acc part)
  = attachments acc ++ partAttachments part.
Proof.
  unfold parseBody_part, partAttachments.
  destruct (includes _ (lit "attachment")); [done|].
  rewrite app_nil_r.
  destruct (includes _ (lit "text/html")); [done|].
  destruct (includes _ (lit "text/plain")); [done|].
  destruct (includes _ (lit "multipart")); [|done].
  destruct (matchParam _ _ _); [|done]. apply attachments_nested.
Qed.

Lemma attachments_parts parts : forall acc,
  attachments (fold_left parseBody_part parts acc)
  = attachments acc ++ flat_map partAttachments parts.
Proof.
  induction parts as [|p parts IH]; intros acc; simpl.
  - by rewrite app_nil_r.
  - by rewrite IH, attachments_part, <- app_assoc.
Qed.

(** The attachments of a message are those of the parts of its body. *)
Lemma attachments_parseBody body ct te :
  attachments (parseBody body ct te)
  = if includes (toLowerCase ct) (lit "multipart") then
      match matchParam (lit "boundary=") stopToken ct with
      | Some boundary => flat_map partAttachments (parseMultipart body boundary)
      | None => []
      end
    else [].
Proof.
  unfold parseBody. destruct (includes _ (lit "multipart")).
  - destruct (matchParam _ _ ct); [|done]. by rewrite attachments_parts.
  - by destruct (includes _ _).
Qed.

(** C1. A part of a multipart body whose disposition holds the word
    attachment and whose transfer encoding holds base64 becomes an
    attachment whose content is the byte sequence the base64 decoding of
    the body of the part gives, byte for byte and without any decoding to
    text, and whose size is the number of these bytes, not the length of
    the encoded text: where the body is the base64 text of a binary
    fixture, the content is the fixture. *)
Theorem base64_attachment_is_binary
    (body ct te boundary : jsstring) (part : Part) :
  includes (toLowerCase ct) (lit "multipart") = true ->
  matchParam (lit "boundary=") stopToken ct = Some boundary ->
  In part (parseMultipart body boundary) ->
  includes (toLowerCase (getOr (part_headers part) "content-disposition" []))
    (lit "attachment") = true ->
  includes
    (toLowerCase (getOr (part_headers part) "content-transfer-encoding" []))
    (lit "base64") = true ->
  exists a,
    In a (attachments (parseBody body ct te))
    /\ content a = decodeBase64ToBinary (part_body part)
    /\ size a = Z.of_nat (length (content a))
    /\ (forall binary,
          atob (replaceAll (oneOf isSpace []) (part_body part)) = Some binary ->
          content a = binary /\ size a = Z.of_nat (length binary))
    /\ (forall fixture,
          isBytes fixture ->
          replaceAll (oneOf isSpace []) (part_body part) = b64encode fixture ->
          content a = fixture /\ size a = Z.of_nat (length fixture)).
Proof.
  intros Hmulti Hb Hpart Hdisp Henc.
  set (te' := getOr (part_headers part) "content-transfer-encoding" []) in *.
  assert (Hte : orElse te' [] = te') by (unfold orElse; by destruct te').
  assert (Hbin : forall binary,
            atob (replaceAll (oneOf isSpace []) (part_body part)) = Some binary ->
            decodeBase64ToBinary (part_body part) = binary).
  { intros binary Hbin. unfold decodeBase64ToBinary. rewrite Hbin.
    apply Uint8Array_bytes. by eapply atob_bytes. }
  eexists. split; [|split; [|split; [|split]]].
  - rewrite attachments_parseBody, Hmulti, Hb. apply in_flat_map.
    exists part. split; [done|]. unfold partAttachments.
    rewrite Hdisp. by left.
  - simpl. fold te'. by rewrite Hte, Henc.
  - done.
  - intros binary Hatob. simpl. fold te'. rewrite Hte, Henc.
    by rewrite (Hbin binary Hatob).
  - intros fixture Hbytes Hbody. simpl. fold te'. rewrite Hte, Henc.
    rewrite (Hbin fixture); [done|]. rewrite Hbody.
    by apply atob_b64encode.
Qed.

(** C9, as the program has it.  The name of an attachment is cut out of the
    lower-cased disposition, and is the word attachment when there is none,
    so the text that is cut out has no capital letter; the name stored is
    that text with its encoded words decoded, which is the text itself when
    it holds no encoded word. *)
Theorem attachment_filename_lowercase
    (body ct te : jsstring) (a : Attachment) :
  In a (attachments (parseBody body ct te)) ->
  exists boundary part,
    matchParam (lit "boundary=") stopToken ct = Some boundary
    /\ In part (parseMultipart body boundary)
    /\ Forall (fun c => isUpper c = false) (capturedFilename part)
    /\ filename a = decodeMimeHeader (capturedFilename part)
    /\ (includes (capturedFilename part) (lit "=?") = false ->
        filename a = capturedFilename part).
Proof.
  rewrite attachments_parseBody.
  destruct (includes _ _); [|done].
  destruct (matchParam _ _ ct) as [boundary|]; [|done].
  intros Ha. apply in_flat_map in Ha as (part & Hpart & Ha).
  unfold partAttachments in Ha. destruct (includes _ _); [|done].
  destruct Ha as [<- | []]. exists boundary, part.
  split; [done|]. split; [done|]. split; [|split].
  - unfold capturedFilename.
    destruct (matchParam _ _ _) as [v|] eqn:E; simpl.
    + apply matchParam_inside in E. eapply Forall_infix; [exact E|].
      apply toLowerCase_no_upper.
    + repeat constructor.
  - done.
  - intros Hplain. simpl. by apply decodeMimeHeader_plain.
Qed.

End AttachmentFacts.

(** * Charset labels *)

Lemma replaceAll_strip p s :
  replaceAll (oneOf (fun c => negb (p c)) []) s = List.filter p s.
Proof.
  induction s as [|c s IH]; [done|]. simpl List.filter.
  destruct (p c) eqn:E.
  - rewrite replaceAll_copy by (simpl; by rewrite E). by rewrite IH.
  - rewrite (replaceAll_match _ _ _ [] 1%nat) by (simpl; by rewrite E).
    simpl. apply IH.
Qed.

Lemma jsstring_eqb_false a b : a <> b -> jsstring_eqb a b = false.
Proof. intros Hne. unfold jsstring_eqb. by apply bool_decide_eq_false. Qed.

Section CharsetFacts.
Context `{Engine}.

Lemma normalizedCharset_filter charset :
  normalizedCharset charset
  = List.filter isLabelUnit (toLowerCase (orElse charset (lit "utf-8"))).
Proof. apply replaceAll_strip. Qed.

Lemma getTextDecoder_resolve charset :
  getTextDecoder charset = resolveLabel (normalizedCharset charset).
Proof.
  unfold getTextDecoder, charsetMap.
  generalize (normalizedCharset charset) as n. intros n.
  repeat (rewrite lookup_insert; case_decide;
          [subst n; by vm_compute|]).
  rewrite lookup_empty. unfold resolveLabel.
  by rewrite !jsstring_eqb_false by done.
Qed.

(** A unit of Basic Latin that is no letter, digit or hyphen does not
    count. *)
Lemma getTextDecoder_punctuation x c y :
  c < 128 -> isLabelUnit (asciiLower c) = false ->
  getTextDecoder (x ++ c :: y) = getTextDecoder (x ++ y).
Proof.
  intros Hc Hp. rewrite !getTextDecoder_resolve.
  rewrite !normalizedCharset_filter.
  assert (Hdrop : List.filter isLabelUnit (toLowerCase (x ++ c :: y))
                  = List.filter isLabelUnit (toLowerCase (x ++ y))).
  { rewrite !toLowerCase_app. change (c :: y) with ([c] ++ y).
    rewrite toLowerCase_app, !List.filter_app. f_equal.
    unfold toLowerCase at 1. simpl.
    replace (c <? 128) with true by lia. simpl. by rewrite Hp. }
  assert (Ht : truthy (x ++ c :: y) = true) by (by destruct x).
  unfold orElse at 1. rewrite Ht, Hdrop.
  destruct (x ++ y) as [|d z] eqn:Exy; [by vm_compute | done].
Qed.

(** C5, as the program has it.  The lookup lower-cases the label and drops
    every unit other than the letters a to z, the digits and the hyphen;
    it resolves gbk and gb2312 to gbk, gb18030, big5, iso88591 and
    iso-8859-1 to iso-8859-1, windows1252 and windows-1252 to windows-1252,
    and any other normalized label to utf-8; two labels that differ only in
    units of Basic Latin that are dropped get the same decoder. *)
Theorem getTextDecoder_lookup (charset : jsstring) :
  normalizedCharset charset
  = List.filter isLabelUnit (toLowerCase (orElse charset (lit "utf-8")))
  /\ getTextDecoder charset = resolveLabel (normalizedCharset charset)
  /\ (forall x c y,
        charset = x ++ c :: y -> c < 128 ->
        isLabelUnit (asciiLower c) = false ->
        getTextDecoder charset = getTextDecoder (x ++ y)).
Proof.
  split; [apply normalizedCharset_filter|].
  split; [apply getTextDecoder_resolve|].
  intros x c y ->. apply getTextDecoder_punctuation.
Qed.

End CharsetFacts.

(** * Where the program departs from what is asked of it *)

Section Departures.
Context `{Engine}.

(** C4. A token whose text is no base64 does not stay as it was written:
    [decodeBase64] handles the failure itself and gives the text between
    the marks back, so the handler of [decodeMimeHeader], which would leave
    the token alone, is never reached.  The other tokens of the value are
    decoded all the same. *)
Theorem undecodable_word_loses_its_marks :
  decodeMimeHeader (lit "=?utf-8?B?!!!?=") = lit "!!!"
  /\ decodeMimeHeader (lit "=?utf-8?B?!!!?=") <> lit "=?utf-8?B?!!!?="
  /\ decodeMimeHeader (lit "=?utf-8?B?!!!?= =?utf-8?Q?ok?=") = lit "!!! ok".
Proof. split; [|split]; by vm_compute. Qed.

(** C7. A message with line feeds only is not cut at its blank line: all of
    it is taken as the header block and the body is empty, where the same
    message with CR and LF is cut into its header block and its body. *)
Theorem lf_only_message_is_not_split :
  headersRaw lfMessage = lfMessage
  /\ bodyRaw lfMessage = []
  /\ textContent (email_body (parseMimeEmail lfMessage)) = []
  /\ headersRaw crlfMessage = lit "Subject: Hi"
  /\ bodyRaw crlfMessage = lit "Body"
  /\ textContent (email_body (parseMimeEmail crlfMessage)) = lit "Body".
Proof. repeat split; by vm_compute. Qed.

End Departures.

(** C8. The ampersand is unescaped before the angle brackets, so the text an
    escaped ampersand leaves behind is unescaped once more: the escaped form
    of the text [&lt;] comes out as the angle bracket, not as [&lt;].  Tags
    are stripped as asked. *)
Theorem htmlToText_unescapes_twice :
  htmlToText (lit "&amp;lt;") = lit "<"
  /\ htmlToText (lit "&amp;lt;") <> lit "&lt;"
  /\ htmlToText (lit "<p>Hi <b>there</b></p>") = lit "Hi there".
Proof. split; [|split]; by vm_compute. Qed.

(** * The statements that do not hold as they are written *)

(** C5 as it is written fails: the hyphen is kept by the normalization, so
    the label ISO_8859-1 becomes iso8859-1, which the table does not have,
    and gets utf-8, while iso88591 gets iso-8859-1. *)
Lemma charset_label_counterexample :
  normalizedCharset (lit "ISO_8859-1") = lit "iso8859-1"
  /\ getTextDecoder (lit "ISO_8859-1") = lit "utf-8"
  /\ getTextDecoder (lit "iso88591") = lit "iso-8859-1"
  /\ getTextDecoder (lit "ISO_8859-1") <> getTextDecoder (lit "iso88591").
Proof. repeat split; by vm_compute. Qed.

(** C9 as it is written fails: a name cut out of the lower-cased
    disposition can still be an encoded word, and decoding it gives a
    capital letter. *)
Lemma attachment_filename_counterexample :
  map filename
    (attachments
       (parseBody encodedNameBody (lit "multipart/mixed; boundary=xyz") []))
  = [lit "A"]
  /\ Exists (fun c => isUpper c = true) (lit "A").
Proof. split; [by vm_compute | by left]. Qed.

(** * The statements at work *)

Lemma base64_attachment_is_binary_witness :
  exists a,
    In a (attachments
            (parseBody binaryBody (lit "multipart/mixed; boundary=xyz") []))
    /\ content a = [0; 1; 2; 255] /\ size a = 4.
Proof.
  destruct (base64_attachment_is_binary binaryBody
              (lit "multipart/mixed; boundary=xyz") [] (lit "xyz")
              (hd (Build_Part ∅ []) (parseMultipart binaryBody (lit "xyz"))))
    as (a & Hin & _ & _ & _ & Hfix).
  - by vm_compute.
  - by vm_compute.
  - vm_compute. by left.
  - by vm_compute.
  - by vm_compute.
  - exists a. split; [exact Hin|]. apply (Hfix [0; 1; 2; 255]).
    + repeat constructor; lia.
    + by vm_compute.
Defined.

Lemma decodeQuotedPrintable_follows_spec_witness :
  qp_bytes (lit "A" ++ [cu "="; cu "3"; cu "D"])
  = qp_bytes (lit "A") ++ [16 * hexval (cu "3") + hexval (cu "D")].
Proof.
  apply (decodeQuotedPrintable_follows_spec [] []); by vm_compute.
Defined.

Lemma multipart_without_boundary_witness :
  let raw := lit "Content-Type: multipart/mixed" ++ CRLF ++ CRLF ++ binaryBody in
  textContent (email_body (parseMimeEmail raw)) = []
  /\ htmlContent (email_body (parseMimeEmail raw)) = []
  /\ attachments (email_body (parseMimeEmail raw)) = [].
Proof.
  apply (multipart_without_boundary _ (lit "multipart/mixed"));
    by vm_compute.
Defined.

Lemma getTextDecoder_lookup_witness :
  getTextDecoder (lit "ISO-8859_-1") = getTextDecoder (lit "ISO-8859-1").
Proof.
  apply (proj2 (proj2 (getTextDecoder_lookup (lit "ISO-8859_-1")))
           (lit "ISO-8859") (cu "_") (lit "-1")); by vm_compute.
Defined.

Lemma proto_header_is_not_stored_witness :
  parseHeaders twoSubjects !! lit "subject" = Some (lit "second line").
Proof.
  apply (proj2 (proj2 (proj2 (proj2 (proto_header_is_not_stored twoSubjects))))
           [lit "Subject: first"; lit "X-Mailer: none"]
           (lit "SUBJECT: second") [lit "  line"] [] (lit "subject")).
  - by vm_compute.
  - by vm_compute.
  - by repeat constructor.
  - exact I.
  - constructor.
  - by vm_compute.
Defined.

Lemma attachment_filename_lowercase_witness :
  let ct := lit "multipart/mixed; boundary=xyz" in
  let a := hd (Build_Attachment [] [] [] 0)
             (attachments (parseBody binaryBody ct [])) in
  filename a = lit "report.bin"
  /\ exists boundary part,
       matchParam (lit "boundary=") stopToken ct = Some boundary
       /\ In part (parseMultipart binaryBody boundary)
       /\ Forall (fun c => isUpper c = false) (capturedFilename part)
       /\ filename a = decodeMimeHeader (capturedFilename part)
       /\ (includes (capturedFilename part) (lit "=?") = false ->
           filename a = capturedFilename part).
Proof.
  split; [by vm_compute|].
  apply (attachment_filename_lowercase binaryBody
           (lit "multipart/mixed; boundary=xyz") []).
  vm_compute. by left.
Defined.

(** * White space put in order *)

Lemma takeWhile_stops p s :
  match drop (length (takeWhile p s)) s with
  | [] => True
  | d :: _ => p d = false
  end.
Proof.
  induction s as [|c s IH]; simpl; [done|].
  destruct (p c) eqn:E; simpl; [done | exact E].
Qed.

Lemma spaces_none c s : isSpace c = false -> spaces (c :: s) = None.
Proof. intros Hc. unfold spaces. simpl. by rewrite Hc. Qed.

Lemma spaces_some c s :
  isSpace c = true ->
  spaces (c :: s)
  = Some ([cu " "], S (length (takeWhile isSpace s))).
Proof. intros Hc. unfold spaces. simpl. by rewrite Hc. Qed.

Lemma replaceAll_spaces_head c s :
  isSpace c = false ->
  replaceAll spaces (c :: s) = c :: replaceAll spaces s.
Proof. intros Hc. apply replaceAll_copy. by apply spaces_none. Qed.

Lemma singleSpaced_collapse s : singleSpaced (replaceAll spaces s) = true.
Proof.
  induction s as [s IH] using shorter_ind.
  destruct s as [|c s]; [done|].
  destruct (isSpace c) eqn:Ec.
  - rewrite (replaceAll_match _ _ _ _ _ (spaces_some c s Ec)). simpl Nat.pred.
    pose proof (takeWhile_stops isSpace s) as Hstop.
    assert (Hlen : (length (drop (length (takeWhile isSpace s)) s)
                    < length (c :: s))%nat).
    { rewrite length_drop. simpl. lia. }
    specialize (IH _ Hlen).
    destruct (drop _ s) as [|d r]; [done|].
    rewrite replaceAll_spaces_head in * by done.
    change ([cu " "] ++ d :: replaceAll spaces r)
      with (32 :: d :: replaceAll spaces r).
    cbn [singleSpaced startsWithSpace]. rewrite Hstop.
    change (isSpace 32) with true. cbn [singleSpaced] in IH.
    by rewrite Hstop in IH.
  - rewrite replaceAll_spaces_head by done. cbn [singleSpaced].
    rewrite Ec. apply IH. simpl. lia.
Qed.

Lemma singleSpaced_suffix x y :
  singleSpaced (x ++ y) = true -> singleSpaced y = true.
Proof.
  induction x as [|c x IH]; [done|]. simpl.
  intros Hxy. apply andb_true_iff in Hxy as [_ Hxy]. by apply IH.
Qed.

Lemma singleSpaced_prefix x y :
  singleSpaced (x ++ y) = true -> singleSpaced x = true.
Proof.
  induction x as [|c x IH]; [done|]. simpl.
  intros Hxy. apply andb_true_iff in Hxy as [Hc Hxy].
  rewrite (IH Hxy), andb_true_r.
  destruct (isSpace c); [|done].
  apply andb_true_iff in Hc as [-> Hc]. simpl.
  destruct x as [|d x]; [done|]. exact Hc.
Qed.

Lemma singleSpaced_app x y :
  singleSpaced x = true -> singleSpaced y = true ->
  startsWithSpace y = false -> singleSpaced (x ++ y) = true.
Proof.
  intros Hx Hy Hhead. induction x as [|c x IH]; [done|].
  simpl in *. apply andb_true_iff in Hx as [Hc Hx].
  rewrite (IH Hx), andb_true_r.
  destruct (isSpace c); [|done].
  apply andb_true_iff in Hc as [-> Hc]. simpl.
  destruct x as [|d x]; simpl; [by rewrite Hhead | exact Hc].
Qed.

Lemma trimStart_suffix s : exists x, s = x ++ trimStart s.
Proof.
  induction s as [|c s [x IH]]; [by exists []|]. simpl.
  destruct (isSpace c); [|by exists []]. exists (c :: x). simpl. by f_equal.
Qed.

Lemma trimEnd_prefix s : exists y, s = trimEnd s ++ y.
Proof.
  unfold trimEnd. destruct (trimStart_suffix (rev s)) as [x Hx].
  exists (rev x). rewrite <- rev_app_distr, <- Hx. by rewrite rev_involutive.
Qed.

Lemma trimStart_head s : startsWithSpace (trimStart s) = false.
Proof.
  induction s as [|c s IH]; [done|]. simpl.
  destruct (isSpace c) eqn:E; [done|]. simpl. exact E.
Qed.

Lemma trimEnd_head s :
  startsWithSpace s = false -> startsWithSpace (trimEnd s) = false.
Proof.
  intros Hs. destruct (trimEnd_prefix s) as [y Hy].
  destruct (trimEnd s) as [|c t]; [done|].
  rewrite Hy in Hs. exact Hs.
Qed.

Lemma trim_trimmed s : trimmed (trim s) = true.
Proof.
  unfold trimmed, trim.
  rewrite trimEnd_head by apply trimStart_head.
  unfold trimEnd. by rewrite rev_involutive, trimStart_head.
Qed.

Lemma singleSpaced_trim s :
  singleSpaced s = true -> singleSpaced (trim s) = true.
Proof.
  intros Hs. unfold trim.
  destruct (trimStart_suffix s) as [x Hx].
  destruct (trimEnd_prefix (trimStart s)) as [y Hy].
  rewrite Hx in Hs. apply singleSpaced_suffix in Hs.
  rewrite Hy in Hs. by apply singleSpaced_prefix in Hs.
Qed.

(** X1. The text [htmlToText] returns has no white space but single spaces
    between its words: no line break, no tab, no two spaces in a row, and
    none at either end. *)
Theorem htmlToText_single_spaced (html : jsstring) :
  singleSpaced (htmlToText html) = true /\ trimmed (htmlToText html) = true.
Proof.
  unfold htmlToText. destruct (truthy html); simpl; [|done].
  split; [apply singleSpaced_trim, singleSpaced_collapse | apply trim_trimmed].
Qed.

Lemma substring_prefix s n :
  0 <= n -> substring s 0 n = take (Z.to_nat n) s.
Proof.
  intros Hn. unfold substring.
  set (len := Z.of_nat (length s)).
  assert (0 <= len) by (unfold len; lia).
  replace (Z.to_nat (Z.min (Z.min (Z.max 0 0) len) (Z.min (Z.max n 0) len)))
    with 0%nat by lia.
  rewrite drop_0.
  destruct (Z.le_gt_cases n len).
  - f_equal. lia.
  - rewrite !take_ge; [done | unfold len in *; lia | unfold len in *; lia].
Qed.

(** X2. The preview [extractPreview] gives for a bound that is not negative has
    at most three units more than the bound, has no white space but single
    spaces, and does not begin with white space; a text that fits the bound
    once its white space is put in order is given whole, a longer one is cut
    at the bound and ends in three dots. *)
Theorem extractPreview_bounded (text : jsstring) (maxLength : Z) :
  0 <= maxLength ->
  Z.of_nat (length (extractPreview text maxLength)) <= maxLength + 3
  /\ singleSpaced (extractPreview text maxLength) = true
  /\ startsWithSpace (extractPreview text maxLength) = false
  /\ (Z.of_nat (length (trim (replaceAll spaces text))) <= maxLength ->
      extractPreview text maxLength = trim (replaceAll spaces text))
  /\ (maxLength < Z.of_nat (length (trim (replaceAll spaces text))) ->
      extractPreview text maxLength
      = take (Z.to_nat maxLength) (trim (replaceAll spaces text))
        ++ lit "...").
Proof.
  intros Hmax. unfold extractPreview.
  destruct text as [|c text]; [simpl; repeat split; try done; lia|].
  simpl negb. cbv iota.
  set (cleaned := trim (replaceAll spaces (c :: text))).
  assert (Hss : singleSpaced cleaned = true)
    by apply singleSpaced_trim, singleSpaced_collapse.
  assert (Htr : trimmed cleaned = true) by apply trim_trimmed.
  apply andb_true_iff in Htr as [Hhead _]. apply negb_true_iff in Hhead.
  rewrite substring_prefix by done.
  destruct (Z.of_nat (length cleaned) <=? maxLength) eqn:E.
  - repeat split; try done; lia.
  - assert (Hcut : singleSpaced (take (Z.to_nat maxLength) cleaned ++ lit "...")
                   = true).
    { apply singleSpaced_app; [|done..].
      apply (singleSpaced_prefix _ (drop (Z.to_nat maxLength) cleaned)).
      by rewrite take_drop. }
    split; [|split; [done|split; [|split; [lia|done]]]].
    + rewrite length_app, length_take. simpl length. lia.
    + clearbody cleaned. destruct (Z.to_nat maxLength) as [|k]; [done|].
      destruct cleaned as [|d cl]; [done | exact Hhead].
Qed.

(** * Prefixes and domains *)

Lemma fold_left_append {A} (f : A -> jsstring) (l : list A) (acc : jsstring) :
  fold_left (fun r x => r ++ f x) l acc = acc ++ flat_map f l.
Proof.
  revert acc; induction l as [|x l IH]; intros acc; simpl.
  - by rewrite app_nil_r.
  - by rewrite IH, <- app_assoc.
Qed.

Lemma prefixChars_at i :
  0 <= i < 36 ->
  exists c, charAt prefixChars i = [c] /\ (isLower c || isDigit c) = true.
Proof.
  intros Hi. unfold charAt.
  replace ((0 <=? i) && (i <? Z.of_nat (length prefixChars))) with true
    by (change (Z.of_nat (length prefixChars)) with 36; lia).
  eexists. split; [done|].
  assert (Hall : forallb (fun c => isLower c || isDigit c) prefixChars = true)
    by done.
  rewrite forallb_forall in Hall. apply Hall, nth_In.
  change (length prefixChars) with 36%nat. lia.
Qed.

(** X3. The prefix [generatePrefix] makes has as many units as were asked for,
    each of them a letter from a to z or a digit, whatever the random
    values are. *)
Theorem generatePrefix_alphabet (random : list Z) :
  length (generatePrefix random) = length random
  /\ Forall (fun c => (isLower c || isDigit c) = true) (generatePrefix random).
Proof.
  assert (Heq : generatePrefix random
                = flat_map (fun v => charAt prefixChars (v mod 256 mod 36))
                    random).
  { unfold generatePrefix, Uint8Array. rewrite fold_left_append. simpl app.
    induction random as [|v random IH]; [done|]. simpl. by rewrite IH. }
  rewrite Heq. clear Heq.
  induction random as [|v random [IHlen IHall]]; [by split|].
  cbn [flat_map].
  destruct (prefixChars_at (v mod 256 mod 36)) as (c & -> & Hc); [divmod|].
  simpl. split; [by rewrite IHlen | by constructor].
Qed.

Lemma endsWith_spec s p : endsWith s p = true <-> exists x, s = x ++ p.
Proof.
  unfold endsWith. rewrite startsWith_spec. split.
  - intros [r Hr]. exists (rev r).
    rewrite <- (rev_involutive s), Hr, rev_app_distr.
    by rewrite rev_involutive.
  - intros [x ->]. exists (rev x). by rewrite rev_app_distr.
Qed.

Lemma truthy_spec (s : jsstring) : truthy s = true <-> s <> [].
Proof. by destruct s. Qed.

Section DomainFacts.
Context `{Engine}.

(** Every domain [getDomains] gives is lower-cased, is not empty, and is an
    entry of the list in the environment (or of the default list) without
    the white space around it. *)
Lemma getDomains_entries env d :
  In d (getDomains env) ->
  d <> []
  /\ Forall (fun c => isUpper c = false) d
  /\ exists entry,
       In entry (split (orElse (default [] (DOMAINS env)) defaultDomains)
                   (lit ","))
       /\ d = toLowerCase (trim entry).
Proof.
  unfold getDomains. rewrite filter_In, in_map_iff.
  intros [(entry & <- & Hentry) Ht]. split; [by apply truthy_spec|].
  split; [apply toLowerCase_no_upper | eauto].
Qed.

(** X4. An address is let in exactly when it is not empty and, lower-cased,
    ends with the sign [@] and one of the domains of [getDomains]; such a
    domain is never empty, so an empty entry in the list lets nothing in. *)
Theorem isAllowedDomain_spec (address : jsstring) (env : Env) :
  isAllowedDomain address env = true
  <-> address <> []
      /\ exists local domain,
           In domain (getDomains env)
           /\ domain <> []
           /\ Forall (fun c => isUpper c = false) domain
           /\ toLowerCase address = local ++ lit "@" ++ domain.
Proof.
  unfold isAllowedDomain. split.
  - destruct address as [|c rest]; [done|]. simpl negb. cbv iota.
    rewrite existsb_exists. intros (domain & Hin & Hend).
    apply endsWith_spec in Hend as [local Hend]. split; [done|].
    destruct (getDomains_entries env domain Hin) as (Hne & Hlow & _).
    by exists local, domain.
  - intros [Hne (local & domain & Hin & _ & _ & Hlow)].
    destruct address as [|c rest]; [done|]. simpl negb. cbv iota.
    apply existsb_exists. exists domain. split; [done|].
    apply endsWith_spec. by exists local.
Qed.

End DomainFacts.

(** * Addresses of senders *)

Lemma takeWhile_app_stop p x d y :
  Forall (fun c => p c = true) x -> p d = false ->
  takeWhile p (x ++ d :: y) = x.
Proof.
  intros Hx Hd. induction Hx as [|c x Hc _ IH]; simpl.
  - by rewrite Hd.
  - by rewrite Hc, IH.
Qed.

Lemma takeWhile_all p x :
  Forall (fun c => p c = true) x -> takeWhile p x = x.
Proof. induction 1 as [|c x Hc _ IH]; simpl; [done|]. by rewrite Hc, IH. Qed.

Lemma firstDown_hit {A} (f : nat -> option A) n x :
  f n = Some x -> firstDown f n = Some x.
Proof. intros Hf. destruct n; simpl; by rewrite Hf. Qed.

Lemma firstDown_next {A} (f : nat -> option A) n :
  f (S n) = None -> firstDown f (S n) = firstDown f n.
Proof. intros Hf. simpl. by rewrite Hf. Qed.

Lemma trimStart_spaces w s :
  Forall (fun c => isSpace c = true) w -> trimStart (w ++ s) = trimStart s.
Proof. induction 1 as [|c w Hc _ IH]; simpl; [done|]. by rewrite Hc. Qed.

Lemma trimEnd_spaces s w :
  Forall (fun c => isSpace c = true) w -> trimEnd (s ++ w) = trimEnd s.
Proof.
  intros Hw. unfold trimEnd. rewrite rev_app_distr.
  rewrite trimStart_spaces; [done|]. by apply Forall_rev.
Qed.

Lemma trimStart_app s w :
  trimStart s <> [] -> trimStart (s ++ w) = trimStart s ++ w.
Proof.
  induction s as [|c s IH]; simpl; [done|].
  destruct (isSpace c); [exact IH | done].
Qed.

Lemma trimStart_all_spaces s :
  trimStart s = [] -> Forall (fun c => isSpace c = true) s.
Proof.
  induction s as [|c s IH]; simpl; [constructor|].
  destruct (isSpace c) eqn:E; [|done]. intros Hs. constructor; auto.
Qed.

(** White space behind a text does not count when it is trimmed. *)
Lemma trim_spaces_behind s w :
  Forall (fun c => isSpace c = true) w -> trim (s ++ w) = trim s.
Proof.
  intros Hw. unfold trim. destruct (trimStart s) as [|c t] eqn:E.
  - apply trimStart_all_spaces in E.
    rewrite (trimStart_spaces s w E).
    rewrite <- (app_nil_r w), (trimStart_spaces w [] Hw). done.
  - rewrite trimStart_app by (by rewrite E). rewrite E.
    by apply trimEnd_spaces.
Qed.

(** The run of the address and the closing bracket. *)
Lemma addrRun_closed e :
  e <> [] -> Forall (fun c => (c =? cu ">") = false) e ->
  addrRun (e ++ lit ">") = Some e /\ addrRun e = Some e.
Proof.
  intros Hne He. unfold addrRun.
  assert (Hp : Forall (fun c => negb (c =? cu ">") = true) e).
  { eapply Forall_impl; [exact He|]. by intros c ->. }
  split.
  - change (lit ">") with (cu ">" :: []).
    rewrite (takeWhile_app_stop _ e (cu ">") [] Hp) by done.
    rewrite drop_app_length. by destruct e.
  - rewrite (takeWhile_all _ e Hp), drop_all. by destruct e.
Qed.

Section AddressFacts.
Context `{Engine}.

(** X5. An address in angle brackets behind a display name, which may stand in
    double quotes, is parsed into the name without the white space around
    it and the address, lower-cased. *)
Theorem parseEmailAddress_angle (name email : jsstring) :
  email <> [] ->
  Forall (fun c => (c =? cu ">") = false) email ->
  Forall (fun c => ((c =? 34) || (c =? cu "<")) = false) name ->
  parseEmailAddress (Some (name ++ lit " <" ++ email ++ lit ">"))
  = {| addr_name := trim name; addr_email := toLowerCase (trim email) |}
  /\ parseEmailAddress
       (Some ([34] ++ name ++ [34] ++ lit " <" ++ email ++ lit ">"))
     = {| addr_name := trim name; addr_email := toLowerCase (trim email) |}.
Proof.
  intros Hne Hemail Hname.
  destruct (addrRun_closed email Hne Hemail) as [Hrun _].
  assert (Hp : Forall (fun c => negb ((c =? 34) || (c =? cu "<")) = true)
                 name).
  { eapply Forall_impl; [exact Hname|]. by intros c ->. }
  assert (Horelse : orElse email [] = email) by (by destruct email).
  split.
  - unfold parseEmailAddress.
    replace (truthy (name ++ lit " <" ++ email ++ lit ">")) with true
      by (by destruct name).
    simpl negb. cbv iota.
    assert (Hm : addressMatch (name ++ lit " <" ++ email ++ lit ">")
                 = Some (Some (name ++ lit " "), email)).
    { assert (Hgroup : addrName false (name ++ lit " <" ++ email ++ lit ">")
                       = Some (name ++ lit " ", email)).
      { unfold addrName.
        change (name ++ lit " <" ++ email ++ lit ">")
          with (name ++ [cu " "] ++ cu "<" :: (email ++ lit ">")).
        rewrite app_assoc.
        rewrite (takeWhile_app_stop _ (name ++ [cu " "]) (cu "<"));
          [|apply Forall_app; split; [exact Hp | by constructor] | done].
        apply firstDown_hit.
        rewrite drop_app_length, take_app_length.
        replace (false || negb (length (name ++ [cu " "]) =? 0)%nat) with true
          by (rewrite length_app; simpl; by rewrite Nat.add_1_r).
        unfold addrQuote. change (cu "<" =? 34) with false. cbv iota.
        unfold addrSpaces. simpl takeWhile. simpl firstDown.
        unfold addrRest. change (cu "<" =? cu "<") with true. cbv iota.
        by rewrite Hrun. }
      unfold addressMatch.
      destruct name as [|c name'].
      - simpl app in *. change (cu " " =? 34) with false. cbv iota.
        by rewrite Hgroup.
      - inversion Hname as [|? ? Hc _]; subst.
        rewrite <- app_comm_cons.
        replace (c =? 34) with false
          by (symmetry; by apply orb_false_iff in Hc as [-> _]).
        rewrite app_comm_cons. by rewrite Hgroup. }
    rewrite Hm. simpl default. rewrite Horelse.
    f_equal. replace (orElse (name ++ lit " ") []) with (name ++ lit " ")
      by (by destruct name).
    apply trim_spaces_behind. by constructor.
  - change ([34] ++ name ++ [34] ++ lit " <" ++ email ++ lit ">")
      with (34 :: (name ++ 34 :: cu " " :: cu "<" :: (email ++ lit ">"))).
    unfold parseEmailAddress. simpl truthy. simpl negb. cbv iota.
    assert (Hgroup : addrName true
                       (name ++ 34 :: cu " " :: cu "<" :: (email ++ lit ">"))
                     = Some (name, email)).
    { unfold addrName.
      rewrite (takeWhile_app_stop _ name 34) by done.
      apply firstDown_hit.
      rewrite drop_app_length, take_app_length. simpl orb.
      unfold addrQuote. change (34 =? 34) with true. cbv iota.
      unfold addrSpaces.
      simpl takeWhile. change (isSpace (cu " ")) with true. cbv iota.
      change (isSpace (cu "<")) with false. cbv iota.
      simpl length. rewrite (firstDown_hit _ 1%nat email); [done|].
      simpl. unfold addrRest. change (cu "<" =? cu "<") with true.
      cbv iota. by rewrite Hrun. }
    unfold addressMatch. change (34 =? 34) with true. cbv iota.
    rewrite Hgroup. simpl default. rewrite Horelse. f_equal.
    by destruct name.
Qed.

End AddressFacts.

Section BareAddress.
Context `{Engine}.

Lemma addrRest_nil : addrRest [] = None.
Proof. done. Qed.

Lemma addrRest_one c :
  (c =? cu "<") = false -> (c =? cu ">") = false -> addrRest [c] = Some [c].
Proof.
  intros Hlt Hgt. unfold addrRest, addrRun. rewrite Hlt. simpl.
  by rewrite Hgt.
Qed.

Lemma firstDown_zero {A} (f : nat -> option A) : firstDown f 0 = f 0%nat.
Proof. simpl. by destruct (f 0%nat). Qed.

Lemma addrSpaces_one moved c :
  (c =? cu "<") = false -> (c =? cu ">") = false ->
  addrSpaces moved [c] = if moved then Some [c] else None.
Proof.
  intros Hlt Hgt. unfold addrSpaces.
  assert (Hzero : (if moved || negb (0 =? 0)%nat
                   then addrRest (drop 0 [c]) else None)
                  = if moved then Some [c] else None).
  { cbn [Nat.eqb negb drop]. rewrite orb_false_r.
    destruct moved; [by apply addrRest_one | done]. }
  cbn [takeWhile]. destruct (isSpace c); cbn [length].
  - rewrite firstDown_next; [|by rewrite orb_true_r].
    by rewrite firstDown_zero.
  - by rewrite firstDown_zero.
Qed.

(** X6. An address without brackets and quotes: the expression gives all but
    the last unit to its first group, so the address that comes out is the
    last unit alone, and what stands before it comes out as the name. *)
Theorem parseEmailAddress_bare (front : jsstring) (last : Z) :
  Forall (fun c => ((c =? 34) || (c =? cu "<") || (c =? cu ">")) = false)
    (front ++ [last]) ->
  parseEmailAddress (Some (front ++ [last]))
  = {| addr_name := trim front; addr_email := toLowerCase (trim [last]) |}.
Proof.
  intros Hall.
  assert (Hp : Forall (fun c => negb ((c =? 34) || (c =? cu "<")) = true)
                 (front ++ [last])).
  { eapply Forall_impl; [exact Hall|]. intros c Hc.
    apply orb_false_iff in Hc as [-> _]. done. }
  apply Forall_app in Hall as [Hfront Hlast].
  inversion_clear Hlast as [|? ? Hc _].
  apply orb_false_iff in Hc as [Hc Hgt]. apply orb_false_iff in Hc as [Hq Hlt].
  assert (Hname : addrName false (front ++ [last])
                  = if truthy front then Some (front, [last]) else None).
  { unfold addrName. rewrite (takeWhile_all _ _ Hp).
    rewrite length_app. simpl length. rewrite Nat.add_1_r.
    rewrite firstDown_next.
    2:{ replace (S (length front)) with (length (front ++ [last]))
          by (rewrite length_app; simpl; lia).
        rewrite drop_all. by destruct (_ || _). }
    destruct front as [|d front'].
    - cbn [length truthy]. rewrite firstDown_zero.
      cbn [Nat.eqb negb orb drop app]. unfold addrQuote. rewrite Hq.
      by rewrite addrSpaces_one.
    - apply firstDown_hit. rewrite drop_app_length, take_app_length.
      simpl orb. unfold addrQuote. rewrite Hq.
      by rewrite addrSpaces_one. }
  assert (Hm : addressMatch (front ++ [last])
               = Some (if truthy front then Some front else None, [last])).
  { unfold addressMatch.
    assert (Hgroup : match front ++ [last] with
                     | c :: u =>
                         if c =? 34 then
                           match addrName true u with
                           | Some r => Some r
                           | None => addrName false (front ++ [last])
                           end
                         else addrName false (front ++ [last])
                     | [] => addrName false (front ++ [last])
                     end = addrName false (front ++ [last])).
    { destruct front as [|d front']; simpl app; cbv beta iota.
      - by rewrite Hq.
      - inversion_clear Hfront as [|? ? Hd _].
        apply orb_false_iff in Hd as [Hd _].
        apply orb_false_iff in Hd as [-> _]. done. }
    rewrite Hgroup, Hname. destruct front as [|d front']; cbn [truthy app].
    - by rewrite addrRest_one.
    - done. }
  unfold parseEmailAddress.
  replace (truthy (front ++ [last])) with true by (by destruct front).
  simpl negb. cbv iota. rewrite Hm.
  by destruct front.
Qed.

End BareAddress.

(** * What is stored *)

Lemma existsb_id {A} (f : A -> jsstring) (l : list A) (id : jsstring) :
  existsb (fun r => jsstring_eqb (f r) id) l = true <-> In id (map f l).
Proof.
  rewrite existsb_exists, in_map_iff. unfold jsstring_eqb. split.
  - intros (r & Hr & Heq). apply bool_decide_eq_true in Heq. eauto.
  - intros (r & Heq & Hr). exists r. split; [done|].
    by apply bool_decide_eq_true.
Qed.

Lemma insertEmail_Some db row db' :
  insertEmail db row = Some db' ->
  ~ In (e_id row) (map e_id (db_emails db))
  /\ db' = {| db_emails := db_emails db ++ [row];
              db_attachments := db_attachments db |}.
Proof.
  unfold insertEmail. destruct (existsb _ _) eqn:E; [done|].
  intros [= <-]. split; [|done]. intros Hin.
  apply existsb_id in Hin. congruence.
Qed.

Lemma insertEmail_fresh db row :
  ~ In (e_id row) (map e_id (db_emails db)) ->
  insertEmail db row
  = Some {| db_emails := db_emails db ++ [row];
            db_attachments := db_attachments db |}.
Proof.
  intros Hfresh. unfold insertEmail. destruct (existsb _ _) eqn:E; [|done].
  apply existsb_id in E. done.
Qed.

Lemma insertAttachment_Some db row db' :
  insertAttachment db row = Some db' ->
  ~ In (a_id row) (map a_id (db_attachments db))
  /\ db' = {| db_emails := db_emails db;
              db_attachments := db_attachments db ++ [row] |}.
Proof.
  unfold insertAttachment. destruct (existsb _ _) eqn:E; [done|].
  intros [= <-]. split; [|done]. intros Hin.
  apply existsb_id in Hin. congruence.
Qed.

Lemma insertAttachment_fresh db row :
  ~ In (a_id row) (map a_id (db_attachments db)) ->
  insertAttachment db row
  = Some {| db_emails := db_emails db;
            db_attachments := db_attachments db ++ [row] |}.
Proof.
  intros Hfresh. unfold insertAttachment.
  destruct (existsb _ _) eqn:E; [|done]. apply existsb_id in E. done.
Qed.

Lemma NoDup_snoc {A} (l : list A) (x : A) :
  NoDup l -> ~ In x l -> NoDup (l ++ [x]).
Proof.
  intros Hl Hx. apply NoDup_app. split; [done|].
  split; [|apply NoDup_singleton].
  intros y Hy Hy'. apply list_elem_of_In in Hy.
  apply list_elem_of_singleton in Hy'. by subst.
Qed.

(** The loop over the attachments adds rows of the message [id] and
    nothing else, and keeps the identifiers apart. *)
Lemma storeAttachments_keeps id now ids atts : forall k db,
  NoDup (map a_id (db_attachments db)) ->
  exists rows,
    storeAttachments db id now ids k atts
    = {| db_emails := db_emails db;
         db_attachments := db_attachments db ++ rows |}
    /\ NoDup (map a_id (db_attachments db ++ rows))
    /\ Forall (fun a => a_email_id a = id) rows
    /\ (length rows <= length atts)%nat.
Proof.
  induction atts as [|att atts IH]; intros k db Hdb; simpl.
  - exists []. rewrite app_nil_r. by destruct db.
  - match goal with
    | |- context [insertAttachment db ?r] => set (row := r)
    end.
    destruct (insertAttachment db row) as [db'|] eqn:E.
    + apply insertAttachment_Some in E as [Hfresh ->].
      destruct (IH (S k) {| db_emails := db_emails db;
                            db_attachments := db_attachments db ++ [row] |})
        as (rows & -> & Hnd & Hall & Hlen).
      { simpl. rewrite map_app. simpl. by apply NoDup_snoc. }
      simpl in *. rewrite <- app_assoc in *. exists (row :: rows).
      split; [done|]. split; [done|].
      split; [by constructor | simpl; lia].
    + exists []. rewrite app_nil_r. split; [by destruct db|].
      split; [done|]. split; [constructor | simpl; lia].
Qed.

(** With new identifiers every attachment gets its row. *)
Lemma storeAttachments_fresh id now ids atts : forall k db,
  NoDup (map a_id (attachmentRows id now ids k atts)) ->
  (forall a, In a (attachmentRows id now ids k atts) ->
             ~ In (a_id a) (map a_id (db_attachments db))) ->
  storeAttachments db id now ids k atts
  = {| db_emails := db_emails db;
       db_attachments :=
         db_attachments db ++ attachmentRows id now ids k atts |}.
Proof.
  induction atts as [|att atts IH]; intros k db Hnd Hfresh; simpl.
  - rewrite app_nil_r. by destruct db.
  - simpl in Hnd. apply NoDup_cons in Hnd as [Hhead Hnd].
    rewrite insertAttachment_fresh by (apply Hfresh; by left).
    rewrite IH; simpl.
    + by rewrite <- app_assoc.
    + done.
    + intros a Ha. rewrite map_app, in_app_iff. simpl.
      intros [Hin | [Heq | []]].
      * apply (Hfresh a); [by right | done].
      * apply Hhead. rewrite Heq. apply list_elem_of_In. by apply in_map.
Qed.

Section StoringFacts.
Context `{Engine}.

(** X7. [handleEmail] only adds rows: at most one message and rows of
    attachments that belong to it, none without the message; it keeps the
    tables in agreement; and it stores nothing for a recipient outside the
    domains of the worker. *)
Theorem handleEmail_keeps_consistent
    (message : Message) (env : Env) (ids : nat -> jsstring) (now : Z)
    (db : Database) :
  consistent db ->
  consistent (handleEmail message env ids now db)
  /\ (exists rows stored,
        db_emails (handleEmail message env ids now db)
        = db_emails db ++ rows
        /\ db_attachments (handleEmail message env ids now db)
           = db_attachments db ++ stored
        /\ (length rows <= 1)%nat
        /\ (rows = [] -> stored = [])
        /\ Forall (fun a => a_email_id a = ids 0%nat) stored)
  /\ (isAllowedDomain (toLowerCase (msg_to message)) env = false ->
      handleEmail message env ids now db = db).
Proof.
  intros (Hemails & Hatts & Hrefs). unfold handleEmail.
  assert (Hsame : consistent db
                  /\ exists rows stored,
                       db_emails db = db_emails db ++ rows
                       /\ db_attachments db = db_attachments db ++ stored
                       /\ (length rows <= 1)%nat
                       /\ (rows = [] -> stored = [])
                       /\ Forall (fun a => a_email_id a = ids 0%nat)
                            stored).
  { split; [done|]. exists [], []. rewrite !app_nil_r.
    repeat split; try done. simpl. lia. }
  destruct (isAllowedDomain _ env); simpl negb; cbv iota;
    [|by destruct Hsame as [? ?]].
  split; [|split; [|done]].
  - destruct (insertEmail db _) as [db'|] eqn:E; [|apply Hsame].
    apply insertEmail_Some in E as [Hfresh ->]. simpl in Hfresh.
    destruct (storeAttachments_keeps (ids 0%nat) now ids
                (attachments (email_body (parseMimeEmail (msg_raw message))))
                1 {| db_emails := db_emails db ++ [emailRow message (ids 0%nat) now];
                     db_attachments := db_attachments db |} Hatts)
      as (rows & -> & Hnd & Hall & _).
    simpl in *. split; [|split; [done|]].
    + simpl. rewrite map_app. simpl. by apply NoDup_snoc.
    + simpl. apply Forall_app. split.
      * eapply Forall_impl; [exact Hrefs|]. intros a Ha.
        rewrite map_app, in_app_iff. by left.
      * eapply Forall_impl; [exact Hall|]. intros a ->.
        rewrite map_app, in_app_iff. right. by left.
  - destruct (insertEmail db _) as [db'|] eqn:E; [|apply Hsame].
    apply insertEmail_Some in E as [Hfresh ->].
    destruct (storeAttachments_keeps (ids 0%nat) now ids
                (attachments (email_body (parseMimeEmail (msg_raw message))))
                1 {| db_emails := db_emails db ++ [emailRow message (ids 0%nat) now];
                     db_attachments := db_attachments db |} Hatts)
      as (rows & -> & Hnd & Hall & _).
    simpl. exists [emailRow message (ids 0%nat) now], rows.
    repeat split; first [done | simpl; lia].
Qed.

Lemma attachmentRows_flag (id : jsstring) (now : Z) (ids : nat -> jsstring)
    (k : nat) (l : list Attachment) :
  ((if Z.of_nat (length l) >? 0 then 1 else 0) = 1
   <-> attachmentRows id now ids k l <> [])
  /\ ((if Z.of_nat (length l) >? 0 then 1 else 0) = 0
      <-> attachmentRows id now ids k l = []).
Proof.
  destruct l as [|a l]; simpl attachmentRows.
  - replace (Z.of_nat (length (@nil Attachment)) >? 0) with false
      by reflexivity.
    split; split; intros; first [done | lia].
  - replace (Z.of_nat (length (a :: l)) >? 0) with true by reflexivity.
    split; split; intros; first [done | lia].
Qed.

(** X8. For a recipient of the worker and with new identifiers, [handleEmail]
    stores the message and one row for every attachment the parser found,
    in their order, and marks the message as having attachments exactly
    when there is such a row. *)
Theorem handleEmail_stores
    (message : Message) (env : Env) (ids : nat -> jsstring) (now : Z)
    (db : Database) :
  let atts := attachments (email_body (parseMimeEmail (msg_raw message))) in
  let rows := attachmentRows (ids 0%nat) now ids 1 atts in
  isAllowedDomain (toLowerCase (msg_to message)) env = true ->
  ~ In (ids 0%nat) (map e_id (db_emails db)) ->
  NoDup (map a_id rows) ->
  (forall a, In a rows -> ~ In (a_id a) (map a_id (db_attachments db))) ->
  handleEmail message env ids now db
  = {| db_emails := db_emails db ++ [emailRow message (ids 0%nat) now];
       db_attachments := db_attachments db ++ rows |}
  /\ length rows = length atts
  /\ (e_has_attachments (emailRow message (ids 0%nat) now) = 1 <-> rows <> [])
  /\ (e_has_attachments (emailRow message (ids 0%nat) now) = 0 <-> rows = []).
Proof.
  intros atts rows Hallowed Hid Hnd Hfresh. unfold handleEmail.
  rewrite Hallowed. simpl negb. cbv iota.
  rewrite insertEmail_fresh by done.
  rewrite storeAttachments_fresh by done. split; [done|].
  assert (Hlen : forall k l,
            length (attachmentRows (ids 0%nat) now ids k l) = length l).
  { intros k l. revert k. induction l as [|a l IH]; intros k; simpl; [done|].
    by rewrite IH. }
  split; [apply Hlen|].
  apply (attachmentRows_flag (ids 0%nat) now ids 1 atts).
Qed.

End StoringFacts.

(** * The rate limit *)








(** * The two blocks of a message *)

Lemma search_app_first (x p y : jsstring) :
  (forall j, (j < length x)%nat -> startsWith (drop j (x ++ p ++ y)) p = false) ->
  search (x ++ p ++ y) p = Some (length x).
Proof.
  induction x as [|c x IH]; intros Hnone.
  - simpl. destruct (p ++ y) eqn:E; simpl.
    + destruct p; [done | done].
    + rewrite <- E. by rewrite startsWith_app.
  - pose proof (Hnone 0%nat ltac:(simpl; lia)) as H0. rewrite drop_0 in H0.
    change ((c :: x) ++ p ++ y) with (c :: (x ++ p ++ y)) in *.
    simpl search. rewrite H0. rewrite IH; [done|].
    intros j Hj. apply (Hnone (S j)). simpl. lia.
Qed.

(** An occurrence of [p] that begins inside [x] lies in [x] followed by
    all of [p] but its last unit. *)
Lemma startsWith_overlap (x p y : jsstring) (j : nat) :
  includes (x ++ removelast p) p = false ->
  (j < length x)%nat -> startsWith (drop j (x ++ p ++ y)) p = false.
Proof.
  intros Hclean Hj. destruct (startsWith _ p) eqn:E; [|done].
  destruct p as [|c p] using rev_ind; [|clear IHp].
  { rewrite app_nil_r in Hclean. unfold includes in Hclean.
    simpl in Hclean. by destruct x. }
  rewrite removelast_last in Hclean.
  apply startsWith_spec in E as [r Hr].
  assert (Hin : infix (p ++ [c]) (x ++ p));
    [|apply includes_spec in Hin; congruence].
  assert (Hlen : (j + length (p ++ [c]) <= length (x ++ p))%nat).
  { rewrite !length_app. simpl. lia. }
  assert (Htake : take (length (p ++ [c])) (drop j (x ++ p)) = p ++ [c]).
  { assert (E2 : take (length (p ++ [c])) (drop j ((x ++ p) ++ [c] ++ y))
                 = p ++ [c]).
    { replace ((x ++ p) ++ [c] ++ y) with (x ++ (p ++ [c]) ++ y)
        by (by rewrite <- !app_assoc).
      rewrite Hr. apply take_app_length. }
    rewrite drop_app_le in E2 by lia. rewrite take_app_le in E2; [done|].
    rewrite length_drop. lia. }
  set (n := length (p ++ [c])) in *.
  exists (take j (x ++ p)), (drop n (drop j (x ++ p))).
  rewrite <- Htake. by rewrite !take_drop.
Qed.

Lemma search_framed (x p y : jsstring) :
  includes (x ++ removelast p) p = false ->
  search (x ++ p ++ y) p = Some (length x).
Proof.
  intros Hclean. apply search_app_first. intros j Hj.
  by apply startsWith_overlap.
Qed.

Lemma substring_front (x y : jsstring) :
  substring (x ++ y) 0 (Z.of_nat (length x)) = x.
Proof.
  rewrite <- (app_nil_l (x ++ y)).
  apply (substring_middle [] x y); simpl; lia.
Qed.

Lemma substringFrom_back (x y : jsstring) (a : Z) :
  a = Z.of_nat (length x) -> substringFrom (x ++ y) a = y.
Proof.
  intros ->. unfold substringFrom.
  rewrite <- (app_nil_r y) at 1. rewrite app_assoc.
  rewrite <- (app_nil_r ((x ++ y) ++ [])) at 1. 
  rewrite <- !app_assoc.
  apply (substring_middle x y []); [done|]. rewrite !length_app. simpl. lia.
Qed.

Lemma split_nil sep : sep <> [] -> split [] sep = [[]].
Proof. by destruct sep. Qed.

Section MessageFacts.
Context `{Engine}.

Lemma decodeContent_nil te cs : decodeContent [] te cs = [].
Proof. done. Qed.

Lemma parseBody_nil ct te : parseBody [] ct te = emptyBody.
Proof.
  unfold parseBody. destruct (includes _ (lit "multipart")).
  - destruct (matchParam _ _ ct); [|done].
    unfold parseMultipart. rewrite split_nil by done. done.
  - by destruct (includes _ (lit "text/html")).
Qed.

(** X11. A message without an empty line between CR-LF line ends, or with that
    empty line at its very head, has no body for the parser: the whole text
    is read as the header block and nothing is found as content. *)
Theorem parseMimeEmail_without_blank_line (raw : jsstring) :
  includes raw (CRLF ++ CRLF) = false \/ startsWith raw (CRLF ++ CRLF) = true ->
  headers (parseMimeEmail raw) = parseHeaders raw
  /\ email_body (parseMimeEmail raw) = emptyBody
  /\ rawEmail (parseMimeEmail raw) = raw.
Proof.
  intros Hraw.
  assert (Hidx : (indexOf raw (CRLF ++ CRLF) >? 0) = false).
  { unfold indexOf. destruct Hraw as [Hnone | Hhead].
    - unfold includes in Hnone. by destruct (search raw _).
    - destruct raw; simpl in *; [done|]. by rewrite Hhead. }
  unfold parseMimeEmail, headersRaw, bodyRaw. rewrite Hidx. simpl.
  split; [done|]. split; [apply parseBody_nil | done].
Qed.

Lemma framed_index (head body : jsstring) :
  head <> [] ->
  includes (head ++ [CR; LF; CR]) (CRLF ++ CRLF) = false ->
  indexOf (head ++ CRLF ++ CRLF ++ body) (CRLF ++ CRLF)
  = Z.of_nat (length head)
  /\ 0 < Z.of_nat (length head).
Proof.
  intros Hhead Hclean. unfold indexOf.
  change (head ++ CRLF ++ CRLF ++ body) with (head ++ (CRLF ++ CRLF) ++ body).
  rewrite search_framed by done. split; [done|]. destruct head; [done|].
  simpl. lia.
Qed.

Lemma parseMimeEmail_framed (head body : jsstring) :
  head <> [] ->
  includes (head ++ [CR; LF; CR]) (CRLF ++ CRLF) = false ->
  parseMimeEmail (head ++ CRLF ++ CRLF ++ body)
  = {| headers := parseHeaders head;
       email_body :=
         parseBody body
           (getOr (parseHeaders head) "content-type" (lit "text/plain"))
           (getOr (parseHeaders head) "content-transfer-encoding" []);
       rawEmail := head ++ CRLF ++ CRLF ++ body |}.
Proof.
  intros Hhead Hclean.
  destruct (framed_index head body Hhead Hclean) as [Hidx Hpos].
  unfold parseMimeEmail, headersRaw, bodyRaw. rewrite Hidx.
  replace (Z.of_nat (length head) >? 0) with true by lia.
  rewrite substring_front.
  change (head ++ CRLF ++ CRLF ++ body) with (head ++ (CRLF ++ CRLF) ++ body).
  rewrite app_assoc.
  rewrite substringFrom_back by (rewrite length_app; simpl; lia).
  done.
Qed.

Lemma decodeContent_as_is (content transferEncoding charset : jsstring) :
  includes (toLowerCase transferEncoding) (lit "base64") = false ->
  includes (toLowerCase transferEncoding) (lit "quoted-printable") = false ->
  decodeContent content transferEncoding charset = content.
Proof.
  intros Hbase64 Hqp. unfold decodeContent.
  replace (orElse transferEncoding []) with transferEncoding
    by (by destruct transferEncoding).
  rewrite Hbase64, Hqp. by destruct content.
Qed.

(** X12. A header block, an empty line and a body: the parser reads the headers
    from the block and the content from the body, whatever the body holds.
    The block is not empty and has no empty line of its own, not even one
    that ends in the CR-LF before the empty line. *)
Theorem parseMimeEmail_frames (head body : jsstring) :
  head <> [] ->
  includes (head ++ [CR; LF; CR]) (CRLF ++ CRLF) = false ->
  let parsed := parseMimeEmail (head ++ CRLF ++ CRLF ++ body) in
  headers parsed = parseHeaders head
  /\ email_body parsed
     = parseBody body
         (getOr (parseHeaders head) "content-type" (lit "text/plain"))
         (getOr (parseHeaders head) "content-transfer-encoding" []).
Proof.
  intros Hhead Hclean parsed. subst parsed.
  by rewrite parseMimeEmail_framed.
Qed.

(** X13. A message whose headers name neither a content type nor a transfer
    encoding is plain text: the body is the text as it stands. *)
Theorem parseMimeEmail_plain_message (head body : jsstring) :
  head <> [] ->
  includes (head ++ [CR; LF; CR]) (CRLF ++ CRLF) = false ->
  parseHeaders head !! lit "content-type" = None ->
  parseHeaders head !! lit "content-transfer-encoding" = None ->
  email_body (parseMimeEmail (head ++ CRLF ++ CRLF ++ body))
  = {| textContent := body; htmlContent := []; attachments := [] |}.
Proof.
  intros Hhead Hclean Htype Hencoding.
  rewrite parseMimeEmail_framed by done.
  cbn [email_body]. unfold getOr. rewrite Htype, Hencoding. simpl default.
  change (orElse [] (lit "text/plain")) with (lit "text/plain").
  change (orElse [] []) with (@nil Z).
  unfold parseBody.
  replace (includes (toLowerCase (lit "text/plain")) (lit "multipart"))
    with false by (vm_compute; reflexivity).
  replace (includes (toLowerCase (lit "text/plain")) (lit "text/html"))
    with false by (vm_compute; reflexivity).
  f_equal. by apply decodeContent_as_is.
Qed.

End MessageFacts.

(** * The parts of a multipart body *)

Lemma search_nil sep : sep <> [] -> search [] sep = None.
Proof. by destruct sep. Qed.

Lemma split_fuel_more sep : sep <> [] -> forall f f' s,
  (length s <= f)%nat -> (length s <= f')%nat ->
  split_fuel f s sep = split_fuel f' s sep.
Proof.
  intros Hsep. induction f as [|f IH]; intros f' s Hf Hf'.
  - destruct s; [|simpl in Hf; lia]. destruct f'; cbn [split_fuel]; [done|].
    by rewrite search_nil.
  - destruct f' as [|f'].
    + destruct s; [|simpl in Hf'; lia]. cbn [split_fuel].
      by rewrite search_nil.
    + cbn [split_fuel]. destruct (search s sep) as [i|] eqn:E; [|done]. f_equal.
      assert (s <> []).
      { intros ->. rewrite search_nil in E; done. }
      assert (0 < length sep)%nat by (destruct sep; [done | simpl; lia]).
      assert (0 < length s)%nat by (destruct s; [done | simpl; lia]).
      apply IH; rewrite length_drop; lia.
Qed.

Lemma split_framed (x sep y : jsstring) :
  sep <> [] ->
  includes (x ++ removelast sep) sep = false ->
  split (x ++ sep ++ y) sep = x :: split y sep.
Proof.
  intros Hsep Hclean. unfold split. destruct sep as [|c sep'] eqn:E; [done|].
  rewrite <- E in *.
  assert (Hlen : length (x ++ sep ++ y) = S (length x + Nat.pred (length sep) + length y)).
  { rewrite !length_app. subst sep. simpl. lia. }
  rewrite Hlen. simpl split_fuel. rewrite search_framed by done.
  rewrite take_app_length. f_equal.
  rewrite app_assoc, <- length_app, drop_app_length.
  apply split_fuel_more; [done | | done].
  subst sep. simpl. lia.
Qed.

Lemma split_whole (x sep : jsstring) :
  sep <> [] -> includes x sep = false -> split x sep = [x].
Proof.
  intros Hsep Hclean. unfold split. destruct sep as [|c sep'] eqn:E; [done|].
  rewrite <- E in *. unfold includes in Hclean.
  destruct (length x); simpl; [done|]. by destruct (search x sep).
Qed.

Lemma split_join (sep : jsstring) (l : list jsstring) (z : jsstring) :
  sep <> [] ->
  Forall (fun x => includes (x ++ removelast sep) sep = false) l ->
  includes z sep = false ->
  split (join sep (l ++ [z])) sep = l ++ [z].
Proof.
  intros Hsep Hl Hz. induction Hl as [|x l Hx _ IH].
  - simpl. by apply split_whole.
  - change ((x :: l) ++ [z]) with (x :: (l ++ [z])).
    rewrite join_cons by (by destruct l).
    rewrite split_framed by done. by rewrite IH.
Qed.

Lemma trimEnd_keeps s c :
  isSpace c = false -> trimEnd (s ++ [c]) = s ++ [c].
Proof.
  intros Hc. unfold trimEnd. rewrite rev_app_distr. simpl. rewrite Hc.
  change (c :: rev s) with (rev [c] ++ rev s).
  by rewrite <- rev_app_distr, rev_involutive.
Qed.

Lemma trimEnd_cons c s :
  isSpace c = false -> trimEnd (c :: s) = c :: trimEnd s.
Proof.
  intros Hc. unfold trimEnd. simpl rev.
  destruct (trimStart (rev s)) eqn:E.
  - rewrite trimStart_spaces by (by apply trimStart_all_spaces).
    simpl. by rewrite Hc.
  - rewrite trimStart_app by congruence. rewrite E.
    by rewrite rev_app_distr.
Qed.

Lemma trim_framed (h b : jsstring) :
  h <> [] -> startsWithSpace h = false ->
  b <> [] -> startsWithSpace (rev b) = false ->
  trim (framedPart h b) = h ++ CRLF ++ CRLF ++ b.
Proof.
  intros Hh Hhead Hb Hlast. unfold framedPart, trim.
  rewrite (trimStart_spaces CRLF) by (by repeat constructor).
  assert (Hts : forall t, trimStart (h ++ t) = h ++ t).
  { intros t. destruct h as [|c h]; [done|]. simpl in *. by rewrite Hhead. }
  rewrite Hts.
  destruct b as [|d b] using rev_ind; [done|]. clear IHb.
  rewrite rev_app_distr in Hlast. simpl in Hlast.
  replace (h ++ CRLF ++ CRLF ++ (b ++ [d]) ++ CRLF)
    with ((h ++ CRLF ++ CRLF ++ b ++ [d]) ++ CRLF)
    by (by rewrite <- !app_assoc).
  rewrite trimEnd_spaces by (by repeat constructor).
  replace (h ++ CRLF ++ CRLF ++ b ++ [d])
    with ((h ++ CRLF ++ CRLF ++ b) ++ [d])
    by (by rewrite <- !app_assoc).
  rewrite trimEnd_keeps by done. by rewrite <- !app_assoc.
Qed.

Lemma dropFinalCRLF_keeps b :
  startsWithSpace (rev b) = false -> dropFinalCRLF b = b.
Proof.
  unfold dropFinalCRLF. destruct (rev b) as [|y [|x r]]; try done.
  simpl. intros Hy. destruct (Z.eqb_spec x CR); [|done].
  destruct (Z.eqb_spec y LF); [|done]. by subst.
Qed.

Lemma startsWith_app_false (p : jsstring) : forall s t,
  (length p <= length s)%nat -> startsWith s p = false ->
  startsWith (s ++ t) p = false.
Proof.
  induction p as [|a p IH]; intros s t Hlen Hs; [done|].
  destruct s as [|b s]; [simpl in Hlen; lia|]. simpl in *.
  destruct (a =? b); [|done]. simpl in *. apply IH; [lia | done].
Qed.

Lemma omap_cons_eq {A B} (f : A -> option B) (x : A) (l : list A) :
  omap f (x :: l)
  = match f x with Some y => y :: omap f l | None => omap f l end.
Proof. done. Qed.

Lemma omap_one_none {A B} (f : A -> option B) (x : A) :
  f x = None -> omap f [x] = [].
Proof. intros Hx. rewrite omap_cons_eq. by rewrite Hx. Qed.

Section PartFacts.
Context `{Engine}.

Lemma parseSection_framed (h b : jsstring) :
  h <> [] -> startsWithSpace h = false ->
  startsWith h (lit "--") = false ->
  includes (h ++ [CR; LF; CR]) (CRLF ++ CRLF) = false ->
  b <> [] -> startsWithSpace (rev b) = false ->
  parseSection (framedPart h b)
  = Some {| part_headers := parseHeaders h; part_body := b |}.
Proof.
  intros Hh Hhead Hdash Hclean Hb Hlast. unfold parseSection.
  rewrite trim_framed by done.
  assert (Hstart : startsWith (h ++ CRLF ++ CRLF ++ b) (lit "--") = false).
  { destruct h as [|c [|d h]]; [done | |].
    - simpl in *. destruct (cu "-" =? c); [|done]. done.
    - apply startsWith_app_false; [simpl; lia | done]. }
  rewrite Hstart.
  replace (truthy (h ++ CRLF ++ CRLF ++ b)) with true by (by destruct h).
  simpl orb. cbv iota.
  destruct (framed_index h b Hh Hclean) as [Hidx Hpos]. rewrite Hidx.
  replace (Z.of_nat (length h) =? -1) with false by lia.
  rewrite substring_front.
  change (h ++ CRLF ++ CRLF ++ b) with (h ++ (CRLF ++ CRLF) ++ b).
  rewrite app_assoc.
  rewrite substringFrom_back by (rewrite length_app; simpl; lia).
  by rewrite dropFinalCRLF_keeps.
Qed.

Lemma parseSection_closing (epilogue : jsstring) :
  parseSection (lit "--" ++ epilogue) = None.
Proof.
  unfold parseSection, trim.
  change (lit "--" ++ epilogue) with (cu "-" :: cu "-" :: epilogue).
  simpl trimStart. replace (isSpace (cu "-")) with false by reflexivity.
  rewrite !trimEnd_cons by reflexivity. done.
Qed.

Lemma parseSection_empty (h : jsstring) :
  h <> [] -> startsWithSpace h = false ->
  startsWith h (lit "--") = false ->
  includes (h ++ [CR; LF; CR]) (CRLF ++ CRLF) = false ->
  parseSection (framedPart h []) = None.
Proof.
  intros Hh Hhead Hdash Hclean. unfold parseSection, framedPart, trim.
  rewrite (trimStart_spaces CRLF) by (by repeat constructor).
  assert (Hts : forall t, trimStart (h ++ t) = h ++ t).
  { intros t. destruct h as [|c h]; [done|]. simpl in *. by rewrite Hhead. }
  rewrite Hts. rewrite trimEnd_spaces by (by repeat constructor).
  destruct (trimEnd_prefix h) as [y Hy].
  assert (Hstart : startsWith (trimEnd h) (lit "--") = false).
  { destruct (startsWith (trimEnd h) _) eqn:E; [|done].
    apply startsWith_spec in E as [r Hr]. rewrite Hr in Hy.
    rewrite <- app_assoc in Hy. rewrite Hy, startsWith_app in Hdash. done. }
  rewrite Hstart.
  assert (Htruthy : truthy (trimEnd h) = true).
  { destruct h as [|c h]; [done|]. simpl in Hhead. by rewrite trimEnd_cons. }
  rewrite Htruthy. simpl orb. cbv iota.
  assert (Hnone : includes (trimEnd h) (CRLF ++ CRLF) = false).
  { apply (includes_infix _ (h ++ [CR; LF; CR])); [|done].
    exists [], (y ++ [CR; LF; CR]). simpl. rewrite app_assoc. by rewrite <- Hy. }
  unfold includes in Hnone. unfold indexOf.
  by destruct (search (trimEnd h) (CRLF ++ CRLF)).
Qed.

Lemma wellFramed_parseSection boundary h b :
  wellFramed boundary (h, b) = true ->
  parseSection (framedPart h b)
  = if truthy b
    then Some {| part_headers := parseHeaders h; part_body := b |}
    else None.
Proof.
  unfold wellFramed. rewrite !andb_true_iff, !negb_true_iff.
  intros (((((Hh & Hhead) & Hdash) & Hclean) & Hlast) & _).
  apply truthy_spec in Hh. destruct b as [|d b].
  - by apply parseSection_empty.
  - by apply parseSection_framed.
Qed.

(** X14. A multipart body as a sender frames it gives its parts back, the
    headers parsed and the body as it was written, without the preamble and
    without what follows the closing delimiter.  A part whose body is empty
    is not among them. *)
Theorem parseMultipart_framed
    (boundary preamble : jsstring) (parts : list (jsstring * jsstring))
    (epilogue : jsstring) :
  delimited boundary preamble = true ->
  forallb (wellFramed boundary) parts = true ->
  includes (lit "--" ++ epilogue) (lit "--" ++ boundary) = false ->
  parseMultipart (multipartBody boundary preamble parts epilogue) boundary
  = map (fun p => {| part_headers := parseHeaders (fst p);
                     part_body := snd p |})
      (List.filter (fun p => truthy (snd p)) parts).
Proof.
  intros Hpre Hparts Hclose. unfold parseMultipart, multipartBody.
  change (preamble :: map (fun p => framedPart (fst p) (snd p)) parts
            ++ [lit "--" ++ epilogue])
    with ((preamble :: map (fun p => framedPart (fst p) (snd p)) parts)
            ++ [lit "--" ++ epilogue]).
  rewrite split_join; [|done| |done].
  - rewrite <- app_comm_cons. cbn [drop]. rewrite drop_0, omap_app.
    rewrite (omap_one_none _ _ (parseSection_closing epilogue)), app_nil_r.
    induction parts as [|[h b] parts IH]; [done|].
    simpl in Hparts. apply andb_true_iff in Hparts as [Hpart Hparts].
    cbn [map List.filter fst snd]. rewrite omap_cons_eq.
    rewrite (wellFramed_parseSection boundary) by done.
    destruct (truthy b); cbn [map]; by rewrite IH.
  - constructor.
    + unfold delimited in Hpre. by apply negb_true_iff in Hpre.
    + apply Forall_forall. intros x Hx. apply list_elem_of_In in Hx.
      apply in_map_iff in Hx as ([h b] & <- & Hin).
      rewrite forallb_forall in Hparts. specialize (Hparts _ Hin).
      unfold wellFramed in Hparts. apply andb_true_iff in Hparts as [_ Hd].
      unfold delimited in Hd. by apply negb_true_iff in Hd.
Qed.

Lemma substringFrom_drop (s : jsstring) (a : Z) :
  exists n, substringFrom s a = drop n s.
Proof.
  unfold substringFrom, substring. cbv zeta.
  set (N := Z.of_nat (length s)). set (a' := Z.min (Z.max a 0) N).
  replace (Z.min (Z.max N 0) N) with N by lia.
  replace (Z.min a' N) with a' by lia. replace (Z.max a' N) with N by lia.
  exists (Z.to_nat a'). apply take_ge. rewrite length_drop. lia.
Qed.

Lemma drop_last_unit (s : jsstring) (n : nat) :
  startsWithSpace (rev s) = false -> startsWithSpace (rev (drop n s)) = false.
Proof.
  intros Hs. rewrite <- (take_drop n s), rev_app_distr in Hs.
  destruct (rev (drop n s)); [done|]. done.
Qed.

(** X15. No part ends in white space: the white space at the end of a section
    is removed before the body is cut out, the line end that the parser
    then means to remove is never there, and a body that ends in blank
    lines or spaces loses them. *)
Theorem parseMultipart_bodies_trimmed (body boundary : jsstring) :
  Forall (fun part =>
            startsWithSpace (rev (part_body part)) = false
            /\ exists section, In section (split body (lit "--" ++ boundary))
                 /\ exists n, part_body part = drop n (trim section))
    (parseMultipart body boundary).
Proof.
  unfold parseMultipart.
  apply (Forall_omap_inside parseSection
           (fun section => In section (split body (lit "--" ++ boundary)))).
  - apply Forall_forall. intros x Hx. apply list_elem_of_In in Hx.
    assert (Hin : In x (take 1 (split body (lit "--" ++ boundary))
                        ++ drop 1 (split body (lit "--" ++ boundary))))
      by (apply in_or_app; by right).
    by rewrite take_drop in Hin.
  - intros raw part Hpart Hin. unfold parseSection in Hpart. cbv zeta in Hpart.
    destruct (_ || _); [done|]. destruct (_ =? -1); [done|].
    injection Hpart as <-. cbn [part_body].
    destruct (substringFrom_drop (trim raw)
                (indexOf (trim raw) (CR :: LF :: CRLF) + 4)) as [n ->].
    assert (Hend : startsWithSpace (rev (drop n (trim raw))) = false).
    { apply drop_last_unit. pose proof (trim_trimmed raw) as Ht.
      unfold trimmed in Ht. apply andb_true_iff in Ht as [_ Ht].
      by apply negb_true_iff in Ht. }
    rewrite dropFinalCRLF_keeps by done. split; [done|]. eauto.
Qed.

End PartFacts.

(** * Attachments and parameters *)

Lemma infix_join (sep x : jsstring) (l : list jsstring) :
  In x l -> infix x (join sep l).
Proof.
  induction l as [|y l IH]; [done|]. intros [-> | Hin].
  - destruct l as [|z l]; [apply infix_refl|]. rewrite join_cons by done.
    exists [], (sep ++ join sep (z :: l)). done.
  - destruct l as [|z l]; [done|]. rewrite join_cons by done.
    destruct (IH Hin) as (u & v & ->).
    exists (y ++ sep ++ u), v. by rewrite <- !app_assoc.
Qed.

Lemma split_inside (s sep x : jsstring) :
  sep <> [] -> In x (split s sep) -> infix x s.
Proof.
  intros Hsep Hin. rewrite <- (join_split s sep) at 1 by done.
  by apply infix_join.
Qed.

Lemma hd_split (s sep : jsstring) :
  sep <> [] ->
  infix (hd [] (split s sep)) s /\ includes (hd [] (split s sep)) sep = false.
Proof.
  intros Hsep. pose proof (split_clean s sep Hsep) as Hclean.
  destruct (split s sep) as [|x l] eqn:E.
  - simpl. split; [by exists [], s | by destruct sep].
  - simpl. split.
    + apply (split_inside s sep); [done|]. rewrite E. by left.
    + by inversion Hclean.
Qed.

Lemma takeWhile_all_true p s : Forall (fun c => p c = true) (takeWhile p s).
Proof.
  induction s as [|c s IH]; simpl; [constructor|].
  destruct (p c) eqn:E; by constructor.
Qed.

Lemma matchParamAt_value name stop s v :
  matchParamAt name stop s = Some v ->
  v <> [] /\ Forall (fun c => stop c = false) v.
Proof.
  unfold matchParamAt. destruct (startsWithCI s name); [|done].
  set (r := match drop (length name) s with
            | [] => _
            | c :: r1 => _
            end).
  pose proof (takeWhile_all_true (fun c => negb (stop c)) r) as Hall.
  destruct (takeWhile _ r); [done|]. intros [= <-]. split; [done|].
  eapply Forall_impl; [exact Hall|]. intros c Hc. simpl in Hc.
  by apply negb_true_iff in Hc.
Qed.

Lemma matchParam_value name stop s v :
  matchParam name stop s = Some v ->
  v <> [] /\ Forall (fun c => stop c = false) v.
Proof.
  induction s as [|c s IH]; simpl.
  - destruct (matchParamAt name stop []) eqn:E; [|done].
    intros [= <-]. by apply matchParamAt_value in E.
  - destruct (matchParamAt name stop (c :: s)) eqn:E; [|done].
    intros [= <-]. by apply matchParamAt_value in E.
Qed.

Section ShapeFacts.
Context `{Engine}.

(** X16. Every attachment the parser returns comes from a multipart message;
    its size is the number of its bytes; its type is the text before the
    first semicolon of the lower-cased Content-Type of its part, without
    white space around it. *)
Theorem attachment_shape (body ct te : jsstring) (a : Attachment) :
  In a (attachments (parseBody body ct te)) ->
  includes (toLowerCase ct) (lit "multipart") = true
  /\ size a = Z.of_nat (length (content a))
  /\ includes (contentType a) (lit ";") = false
  /\ trimmed (contentType a) = true
  /\ Forall (fun c => isUpper c = false) (contentType a).
Proof.
  rewrite attachments_parseBody.
  destruct (includes (toLowerCase ct) (lit "multipart")); [|done].
  destruct (matchParam _ _ ct) as [boundary|]; [|done].
  intros Hin. apply in_flat_map in Hin as (part & _ & Hin).
  unfold partAttachments in Hin.
  destruct (includes _ (lit "attachment")); [|done].
  destruct Hin as [<- | []]. unfold attachmentOf. cbn [size content contentType].
  set (partType := toLowerCase (getOr (part_headers part) "content-type" [])).
  destruct (hd_split partType (lit ";")) as [Hinside Hclean]; [done|].
  split; [done|]. split; [done|]. split; [|split].
  - eapply includes_infix; [apply infix_trim | done].
  - apply trim_trimmed.
  - apply (Forall_infix _ _ partType).
    + eapply infix_trans; [apply infix_trim | done].
    + apply toLowerCase_no_upper.
Qed.

(** X17. The charset read from a Content-Type is never empty and holds no quote,
    no semicolon and no white space; it is utf-8 unless it stands in the
    Content-Type. *)
Theorem extractCharset_token (contentType : option jsstring) :
  extractCharset contentType <> []
  /\ Forall (fun c => stopToken c = false) (extractCharset contentType)
  /\ (extractCharset contentType = lit "utf-8"
      \/ exists ct, contentType = Some ct /\ infix (extractCharset contentType) ct).
Proof.
  assert (Hdefault : lit "utf-8" <> []
                     /\ Forall (fun c => stopToken c = false) (lit "utf-8")).
  { split; [done|]. repeat constructor. }
  unfold extractCharset. destruct contentType as [ct|].
  - destruct (negb (truthy ct)).
    + destruct Hdefault. split; [done|]. split; [done|]. by left.
    + destruct (matchParam _ _ ct) as [v|] eqn:E; simpl.
      * destruct (matchParam_value _ _ _ _ E). split; [done|]. split; [done|].
        right. exists ct. split; [done|]. by apply matchParam_inside in E.
      * destruct Hdefault. split; [done|]. split; [done|]. by left.
  - destruct Hdefault. split; [done|]. split; [done|]. by left.
Qed.

End ShapeFacts.

(** * Reading a parameter *)

Lemma startsWithCI_app (p : jsstring) : forall s r,
  startsWithCI s p = true -> startsWithCI (s ++ r) p = true.
Proof.
  induction p as [|a p IH]; intros s r Hs; [done|].
  destruct s as [|b s]; [done|]. simpl in *.
  apply andb_true_iff in Hs as [-> Hs]. simpl. by apply IH.
Qed.

Lemma startsWithCI_length (p : jsstring) : forall s,
  startsWithCI s p = true -> (length p <= length s)%nat.
Proof.
  induction p as [|a p IH]; intros s Hs; simpl; [lia|].
  destruct s as [|b s]; [done|]. simpl in *.
  apply andb_true_iff in Hs as [_ Hs]. apply IH in Hs. lia.
Qed.

Lemma matchParam_skip name stop (pre t : jsstring) :
  (forall j, (j < length pre)%nat ->
             startsWithCI (drop j (pre ++ t)) name = false) ->
  matchParam name stop (pre ++ t) = matchParam name stop t.
Proof.
  induction pre as [|c pre IH]; intros Hnone; [done|].
  change ((c :: pre) ++ t) with (c :: (pre ++ t)). cbn [matchParam].
  unfold matchParamAt at 1.
  pose proof (Hnone 0%nat ltac:(simpl; lia)) as H0. rewrite drop_0 in H0.
  change ((c :: pre) ++ t) with (c :: (pre ++ t)) in H0. rewrite H0.
  apply IH. intros j Hj. apply (Hnone (S j)). simpl. lia.
Qed.

Lemma matchParam_here name stop (s v : jsstring) :
  matchParamAt name stop s = Some v -> matchParam name stop s = Some v.
Proof. intros Hs. destruct s; simpl; by rewrite Hs. Qed.

Section ParameterReading.
Context `{Engine}.

Lemma toLowerCase_infix t s : infix t s -> infix (toLowerCase t) (toLowerCase s).
Proof.
  intros (x & y & ->). rewrite !toLowerCase_app.
  by exists (toLowerCase x), (toLowerCase y).
Qed.

(** A name that begins inside [pre] lies in [pre] followed by all of the
    name but its last unit. *)
Lemma startsWithCI_overlap (pre key y name : jsstring) (j : nat) :
  name <> [] -> length key = length name ->
  includes (toLowerCase (pre ++ removelast key)) (map asciiLower name) = false ->
  (j < length pre)%nat ->
  startsWithCI (drop j (pre ++ key ++ y)) name = false.
Proof.
  intros Hname Hlen Hclean Hj.
  destruct (startsWithCI _ name) eqn:E; [|done].
  pose proof (startsWithCI_length _ _ E) as Hlong.
  apply startsWithCI_lower in E as (r & Hr & Hlower).
  assert (Hkey : key <> []) by (destruct key, name; done).
  rewrite (app_removelast_last 0 Hkey) in Hr, Hlower, Hlong.
  rewrite <- !app_assoc in Hr, Hlower, Hlong.
  rewrite (app_assoc pre) in Hr, Hlower, Hlong.
  assert (Hroom : (j + length name <= length (pre ++ removelast key))%nat).
  { rewrite length_app.
    assert (length key = S (length (removelast key))).
    { rewrite (app_removelast_last 0 Hkey) at 1. rewrite length_app.
      simpl. lia. }
    lia. }
  rewrite drop_app_le in Hlower by lia.
  rewrite take_app_le in Hlower by (rewrite length_drop; lia).
  assert (Hin : infix (map asciiLower name)
                  (toLowerCase (pre ++ removelast key))).
  { rewrite <- Hlower. apply toLowerCase_infix.
    eapply infix_trans; [apply infix_take | apply infix_drop]. }
  apply includes_spec in Hin. congruence.
Qed.

(** X18. The charset of a Content-Type is read at the first place where the
    name of the parameter stands, in either case of its letters, with or
    without a quote before the value, up to the first quote, semicolon or
    white space. *)
Theorem extractCharset_reads (pre key quote value rest : jsstring) :
  includes (toLowerCase (pre ++ removelast key)) (lit "charset=") = false ->
  startsWithCI key (lit "charset=") = true ->
  length key = 8%nat ->
  quote = [] \/ quote = [34] \/ quote = [39] ->
  value <> [] ->
  Forall (fun c => stopToken c = false) value ->
  match rest with [] => True | d :: _ => stopToken d = true end ->
  extractCharset (Some (pre ++ key ++ quote ++ value ++ rest)) = value.
Proof.
  intros Hpre Hkey Hlen Hquote Hvalue Hplain Hrest.
  unfold extractCharset.
  replace (negb (truthy (pre ++ key ++ quote ++ value ++ rest))) with false
    by (destruct pre; [by destruct key | done]).
  rewrite matchParam_skip.
  2:{ intros j Hj. apply startsWithCI_overlap; try done. }
  rewrite (matchParam_here _ _ _ value); [done|].
  unfold matchParamAt. rewrite startsWithCI_app by done.
  change (length (lit "charset=")) with 8%nat. rewrite <- Hlen.
  rewrite drop_app_length.
  assert (Hhead : match quote ++ value ++ rest with
                  | [] => quote ++ value ++ rest
                  | c :: r1 => if isQuote c then r1 else quote ++ value ++ rest
                  end = value ++ rest).
  { destruct Hquote as [-> | [-> | ->]]; [|done|done].
    destruct value as [|c value]; [done|]. simpl.
    inversion Hplain as [|? ? Hc _]. unfold stopToken in Hc.
    apply orb_false_iff in Hc as [Hc _]. apply orb_false_iff in Hc as [Hc _].
    by rewrite Hc. }
  rewrite Hhead.
  assert (Htake : takeWhile (fun c => negb (stopToken c)) (value ++ rest)
                  = value).
  { assert (Hall : Forall (fun c => negb (stopToken c) = true) value).
    { eapply Forall_impl; [exact Hplain|]. intros c Hc. simpl. by rewrite Hc. }
    destruct rest as [|d rest].
    - rewrite app_nil_r. by apply takeWhile_all.
    - apply takeWhile_app_stop; [done|]. by rewrite Hrest. }
  rewrite Htake. by destruct value.
Qed.

End ParameterReading.

(** * Texts in UTF-8 *)

Lemma land_ones_mod (b k : Z) : 0 <= k -> Z.land b (Z.ones k) = b mod 2 ^ k.
Proof. intros Hk. by apply Z.land_ones. Qed.

Lemma land_63 b : Z.land b 63 = b mod 64.
Proof. apply (land_ones_mod b 6). lia. Qed.

Lemma land_31 b : Z.land b 31 = b mod 32.
Proof. apply (land_ones_mod b 5). lia. Qed.

Lemma land_15 b : Z.land b 15 = b mod 16.
Proof. apply (land_ones_mod b 4). lia. Qed.

Lemma land_7 b : Z.land b 7 = b mod 8.
Proof. apply (land_ones_mod b 3). lia. Qed.

Lemma land_1023 b : Z.land b 1023 = b mod 1024.
Proof. apply (land_ones_mod b 10). lia. Qed.

Lemma shiftr_div (a k : Z) : 0 <= k -> Z.shiftr a k = a / 2 ^ k.
Proof. intros Hk. by apply Z.shiftr_div_pow2. Qed.

Lemma utf8_bytes_arith cp :
  utf8_bytes cp
  = if cp <? 128 then [cp]
    else if cp <? 2048 then [192 + cp / 64; 128 + cp mod 64]
    else if cp <? 65536 then
      [224 + cp / 4096; 128 + (cp / 64) mod 64; 128 + cp mod 64]
    else
      [240 + cp / 262144; 128 + (cp / 4096) mod 64;
       128 + (cp / 64) mod 64; 128 + cp mod 64].
Proof.
  unfold utf8_bytes. rewrite !land_63.
  rewrite (shiftr_div cp 6), (shiftr_div cp 12), (shiftr_div cp 18) by lia.
  done.
Qed.

Lemma utf8_points_lead b bs cp lo hi :
  utf8_points (b :: bs) (cp, 0, lo, hi)
  = emit (fst (utf8_lead b)) (utf8_points bs (snd (utf8_lead b))).
Proof. cbn [utf8_points]. by destruct (utf8_lead b). Qed.

Lemma utf8_points_cont b bs cp n lo hi :
  n <> 0 -> lo <= b <= hi ->
  utf8_points (b :: bs) (cp, n, lo, hi)
  = if n =? 1 then (cp * 64 + b mod 64) :: utf8_points bs (0, 0, 128, 191)
    else utf8_points bs (cp * 64 + b mod 64, n - 1, 128, 191).
Proof.
  intros Hn Hb. cbn [utf8_points].
  replace (n =? 0) with false by lia.
  replace ((lo <=? b) && (b <=? hi)) with true by lia.
  rewrite land_63.
  rewrite (lor_shiftl_add cp (b mod 64) 6)
    by first [lia | change (2 ^ 6) with 64; divmod].
  done.
Qed.

Ltac tests :=
  repeat match goal with
    | |- context [?a <=? ?b] => destruct (Z.leb_spec a b); try divmod
    | |- context [?a <? ?b] => destruct (Z.ltb_spec a b); try divmod
    | |- context [?a =? ?b] => destruct (Z.eqb_spec a b); try divmod
    end.

Lemma utf8_lead_one cp :
  0 <= cp < 128 -> utf8_lead cp = (Some cp, (0, 0, 128, 191)).
Proof. intros Hcp. unfold utf8_lead. by tests. Qed.

Lemma utf8_lead_two cp :
  128 <= cp < 2048 ->
  utf8_lead (192 + cp / 64) = (None, (cp / 64, 1, 128, 191)).
Proof.
  intros Hcp. unfold utf8_lead. rewrite land_31.
  replace ((192 + cp / 64) mod 32) with (cp / 64) by divmod.
  by tests.
Qed.

Lemma utf8_lead_three cp :
  2048 <= cp < 65536 ->
  utf8_lead (224 + cp / 4096)
  = (None, (cp / 4096, 2,
            (if cp <? 4096 then 160 else 128),
            (if (53248 <=? cp) && (cp <? 57344) then 159 else 191))).
Proof.
  intros Hcp. unfold utf8_lead. rewrite land_15.
  replace ((224 + cp / 4096) mod 16) with (cp / 4096) by divmod.
  by tests.
Qed.

Lemma utf8_lead_four cp :
  65536 <= cp < 1114112 ->
  utf8_lead (240 + cp / 262144)
  = (None, (cp / 262144, 3,
            (if cp <? 262144 then 144 else 128),
            (if (1048576 <=? cp) then 143 else 191))).
Proof.
  intros Hcp. unfold utf8_lead. rewrite land_7.
  replace ((240 + cp / 262144) mod 8) with (cp / 262144) by divmod.
  by tests.
Qed.

Lemma utf8_points_bytes cp rest :
  isScalar cp ->
  utf8_points (utf8_bytes cp ++ rest) (0, 0, 128, 191)
  = cp :: utf8_points rest (0, 0, 128, 191).
Proof.
  intros Hcp. rewrite utf8_bytes_arith.
  destruct (Z.ltb_spec cp 128) as [H1 | H1].
  { cbn [app]. rewrite utf8_points_lead, utf8_lead_one; [done|].
    unfold isScalar in Hcp. lia. }
  destruct (Z.ltb_spec cp 2048) as [H2 | H2].
  { cbn [app]. rewrite utf8_points_lead, utf8_lead_two by lia.
    cbn [fst snd emit].
    rewrite utf8_points_cont by (try done; divmod).
    change (1 =? 1) with true. cbv iota. f_equal. divmod. }
  destruct (Z.ltb_spec cp 65536) as [H3 | H3].
  { cbn [app]. rewrite utf8_points_lead, utf8_lead_three by lia.
    cbn [fst snd emit].
    rewrite utf8_points_cont.
    2: done.
    2:{ unfold isScalar in Hcp. tests; cbn [andb]; cbv iota; divmod. }
    change (2 =? 1) with false. cbv iota.
    rewrite utf8_points_cont by (try done; divmod).
    change (2 - 1 =? 1) with true. cbv iota. f_equal. divmod. }
  cbn [app]. unfold isScalar in Hcp.
  rewrite utf8_points_lead, utf8_lead_four by lia.
  cbn [fst snd emit].
  rewrite utf8_points_cont.
  2: done.
  2:{ tests; cbn [andb]; cbv iota; divmod. }
  change (3 =? 1) with false. cbv iota.
  rewrite utf8_points_cont by (try done; divmod).
  change (3 - 1 =? 1) with false. cbv iota.
  rewrite utf8_points_cont by (try done; divmod).
  change (3 - 1 - 1 =? 1) with true. cbv iota. f_equal. divmod.
Qed.

Lemma utf8_bytes_range cp : isScalar cp -> isBytes (utf8_bytes cp).
Proof.
  intros Hcp. unfold isScalar in Hcp. rewrite utf8_bytes_arith. unfold isBytes.
  tests; repeat constructor; divmod.
Qed.

Lemma utf8_points_encode cps :
  Forall isScalar cps ->
  utf8_points (flat_map utf8_bytes cps) (0, 0, 128, 191) = cps.
Proof.
  induction 1 as [|cp cps Hcp _ IH]; [done|]. cbn [flat_map].
  rewrite utf8_points_bytes by done. by rewrite IH.
Qed.

Lemma utf8_bytes_encode cps :
  Forall isScalar cps -> isBytes (flat_map utf8_bytes cps).
Proof.
  induction 1 as [|cp cps Hcp _ IH]; [constructor|]. cbn [flat_map].
  apply Forall_app. split; [by apply utf8_bytes_range | done].
Qed.

Lemma codePoints_wellFormed s :
  wellFormed s = true ->
  Forall isScalar (codePoints s)
  /\ flat_map utf16_units (codePoints s) = s
  /\ dropBOM (codePoints s) = codePoints (dropBOM s).
Proof.
  induction s as [s IH] using shorter_ind. destruct s as [|c s]; [done|].
  cbn [wellFormed codePoints].
  destruct ((55296 <=? c) && (c <=? 56319)) eqn:Ehigh.
  - destruct s as [|d s]; [done|]. intros Hs.
    apply andb_true_iff in Hs as [Hd Hs].
    rewrite Hd. destruct (IH s) as (Hall & Hunits & _); [simpl; lia | done |].
    rewrite Z.shiftl_mul_pow2 by lia. change (2 ^ 10) with 1024.
    split; [|split].
    + constructor; [|done]. unfold isScalar. lia.
    + cbn [flat_map]. rewrite Hunits. unfold utf16_units.
      replace (_ <? 65536) with false by lia.
      rewrite land_1023, (shiftr_div _ 10) by lia. change (2 ^ 10) with 1024.
      cbn [app]. f_equal; [divmod|]. f_equal. divmod.
    + unfold dropBOM.
      replace (_ =? 65279) with false by lia.
      replace (c =? 65279) with false by lia.
      cbn [codePoints]. rewrite Ehigh, Hd.
      by rewrite Z.shiftl_mul_pow2 by lia.
  - intros Hs. apply andb_true_iff in Hs as [Hc Hs].
    replace ((56320 <=? c) && (c <=? 57343)) with false by lia.
    destruct (IH s) as (Hall & Hunits & _); [simpl; lia | done |].
    split; [|split].
    + constructor; [|done]. unfold isScalar. lia.
    + cbn [flat_map]. rewrite Hunits. unfold utf16_units.
      by replace (c <? 65536) with true by lia.
    + unfold dropBOM. destruct (c =? 65279); [done|].
      cbn [codePoints]. rewrite Ehigh.
      by replace ((56320 <=? c) && (c <=? 57343)) with false by lia.
Qed.

Lemma wellFormed_dropBOM s : wellFormed s = true -> wellFormed (dropBOM s) = true.
Proof.
  destruct s as [|c s]; [done|]. unfold dropBOM.
  destruct (Z.eqb_spec c 65279) as [-> | Hc]; [|done].
  cbn [wellFormed]. replace ((55296 <=? 65279) && (65279 <=? 56319)) with false by lia.
  intros Hs. by apply andb_true_iff in Hs as [_ Hs].
Qed.

(** Encoding a text in UTF-8 and decoding it gives the text back, but for
    a byte order mark at its head, which the decoder takes away. *)
Lemma utf8_round_trip s :
  wellFormed s = true ->
  utf8_decode (TextEncoder_encode s) = dropBOM s
  /\ isBytes (TextEncoder_encode s).
Proof.
  intros Hs. unfold utf8_decode, TextEncoder_encode.
  destruct (codePoints_wellFormed s Hs) as (Hall & Hunits & Hbom).
  split; [|by apply utf8_bytes_encode].
  rewrite utf8_points_encode by done. rewrite Hbom.
  by apply codePoints_wellFormed, wellFormed_dropBOM.
Qed.

(** * Bodies in base64 and quoted-printable *)

Lemma replaceAll_spaces_filter s :
  replaceAll (oneOf isSpace []) s = List.filter (fun c => negb (isSpace c)) s.
Proof.
  induction s as [|c s IH]; [done|]. simpl List.filter.
  destruct (isSpace c) eqn:E; simpl negb; cbv iota.
  - rewrite (replaceAll_match _ c s [] 1%nat) by (simpl; by rewrite E).
    simpl. by rewrite drop_0.
  - rewrite replaceAll_copy by (simpl; by rewrite E). by rewrite IH.
Qed.

Lemma orElse_nil a : orElse a [] = a.
Proof. by destruct a. Qed.

Lemma qp_scan_literal c s :
  (c =? cu "=") = false -> qp_scan (c :: s) = c :: qp_scan s.
Proof.
  intros Hc. destruct s as [|a [|b s]]; [done | done |].
  rewrite qp_scan_three. by rewrite Hc.
Qed.

Lemma hexDigit_value v :
  0 <= v < 16 -> isHexDigit (hexDigit v) = true /\ hexval (hexDigit v) = v.
Proof.
  intros Hv. unfold hexDigit, isHexDigit, hexval, isDigit.
  destruct (Z.ltb_spec v 10).
  - replace ((48 <=? 48 + v) && (48 + v <=? 57)) with true by lia.
    split; [done | lia].
  - replace ((48 <=? 55 + v) && (55 + v <=? 57)) with false by lia.
    replace ((65 <=? 55 + v) && (55 + v <=? 70)) with true by lia.
    split; [done | lia].
Qed.

Lemma qp_scan_encode plain bs :
  isBytes bs -> qp_scan (qpEncode plain bs) = bs.
Proof.
  induction 1 as [|b bs Hb _ IH]; [done|].
  unfold qpEncode in *. cbn [flat_map].
  destruct (plain b && negb (b =? cu "=")) eqn:E.
  - apply andb_true_iff in E as [_ E]. apply negb_true_iff in E.
    cbn [app]. rewrite qp_scan_literal by done. by rewrite IH.
  - cbn [app]. rewrite qp_scan_three.
    destruct (hexDigit_value (b / 16)) as [Hd1 Hv1]; [divmod|].
    destruct (hexDigit_value (b mod 16)) as [Hd2 Hv2]; [divmod|].
    rewrite Hd1, Hd2, Hv1, Hv2, IH.
    replace (cu "=" =? cu "=") with true by reflexivity.
    simpl andb. cbv iota. f_equal. divmod.
Qed.

Lemma isAsciiWhitespace_isSpace c :
  isAsciiWhitespace c = true -> isSpace c = true.
Proof. unfold isAsciiWhitespace, isSpace. lia. Qed.

Lemma stripPadding_keeps c d :
  In c d -> c <> cu "=" -> In c (stripPadding d).
Proof.
  intros Hin Hc. unfold stripPadding. apply in_rev in Hin.
  destruct (rev d) as [|c0 r] eqn:E; [done|].
  destruct (Z.eqb_spec c0 (cu "=")) as [-> | Hc0].
  - destruct Hin as [<- | Hin]; [done|].
    destruct r as [|d0 r']; [done|].
    destruct (Z.eqb_spec d0 (cu "=")) as [-> | Hd0].
    + destruct Hin as [<- | Hin]; [done|]. by apply in_rev in Hin.
    + by apply in_rev in Hin.
  - apply in_rev. by rewrite E.
Qed.

Lemma b64vals_invalid c s : In c s -> b64val c = None -> b64vals s = None.
Proof.
  intros Hin Hc. induction s as [|d s IH]; [done|]. simpl.
  destruct Hin as [-> | Hin].
  - by rewrite Hc.
  - rewrite (IH Hin). by destruct (b64val d).
Qed.

Lemma atob_invalid c s :
  In c s -> isSpace c = false -> c <> cu "=" -> b64val c = None ->
  atob s = None.
Proof.
  intros Hin Hspace Hpad Hval. unfold atob.
  set (d := filter _ s).
  assert (Hd : In c d).
  { apply list_elem_of_In. apply list_elem_of_filter. split.
    - destruct (isAsciiWhitespace c) eqn:E; [|done].
      apply isAsciiWhitespace_isSpace in E. congruence.
    - by apply list_elem_of_In. }
  assert (Hd' : In c (if Z.of_nat (length d) mod 4 =? 0 then stripPadding d
                      else d)).
  { destruct (_ =? 0); [by apply stripPadding_keeps | done]. }
  destruct (_ =? 1); [done|]. by rewrite (b64vals_invalid c).
Qed.

Section BodyFacts.
Context `{Engine}.

Lemma TextDecoder_utf8 bs : TextDecoder_decode (lit "utf-8") bs = utf8_decode bs.
Proof. done. Qed.

(** X19. A text sent in UTF-8 and base64, with line ends or other white space
    anywhere in the encoded text, is decoded to the text, for every charset
    that [getTextDecoder] takes as utf-8; a byte order mark at its head is
    taken away. *)
Theorem decodeContent_base64_text
    (text encoded transferEncoding charset : jsstring) :
  wellFormed text = true ->
  List.filter (fun c => negb (isSpace c)) encoded
  = b64encode (TextEncoder_encode text) ->
  includes (toLowerCase transferEncoding) (lit "base64") = true ->
  getTextDecoder charset = lit "utf-8" ->
  decodeContent encoded transferEncoding charset = dropBOM text.
Proof.
  intros Htext Hencoded Hbase64 Hcharset.
  destruct (utf8_round_trip text Htext) as [Hround Hbytes].
  assert (Hdecode : decodeBase64 encoded charset = dropBOM text).
  { unfold decodeBase64. rewrite replaceAll_spaces_filter, Hencoded.
    rewrite atob_b64encode by done. rewrite Uint8Array_bytes by done.
    by rewrite Hcharset, TextDecoder_utf8. }
  unfold decodeContent. rewrite orElse_nil, Hbase64.
  destruct encoded; [|done]. rewrite <- Hdecode. unfold decodeBase64.
  by rewrite Hcharset.
Qed.

(** X20. A text sent in UTF-8 and quoted-printable, whichever bytes the sender
    leaves as they are and wherever it breaks the lines, is decoded to the
    text in the same way. *)
Theorem decodeContent_quoted_printable_text
    (plain : Z -> bool) (text encoded transferEncoding charset : jsstring) :
  wellFormed text = true ->
  removeSoftLineBreaks encoded = qpEncode plain (TextEncoder_encode text) ->
  includes (toLowerCase transferEncoding) (lit "base64") = false ->
  includes (toLowerCase transferEncoding) (lit "quoted-printable") = true ->
  getTextDecoder charset = lit "utf-8" ->
  decodeContent encoded transferEncoding charset = dropBOM text.
Proof.
  intros Htext Hencoded Hbase64 Hqp Hcharset.
  destruct (utf8_round_trip text Htext) as [Hround Hbytes].
  assert (Hdecode : decodeQuotedPrintable encoded charset = dropBOM text).
  { unfold decodeQuotedPrintable. rewrite qp_bytes_scan, Hencoded.
    rewrite qp_scan_encode by done. rewrite Uint8Array_bytes by done.
    by rewrite Hcharset, TextDecoder_utf8. }
  unfold decodeContent. rewrite orElse_nil, Hbase64, Hqp.
  destruct encoded; [|done]. rewrite <- Hdecode.
  unfold decodeQuotedPrintable. by rewrite Hcharset.
Qed.

(** X21. A text that holds a unit base64 cannot hold is not decoded: as a body
    or a word of a header it is returned as it is, as an attachment it is
    stored in UTF-8. *)
Theorem decodeBase64_keeps_invalid (str charset : jsstring) (c : Z) :
  In c str -> isSpace c = false -> c <> cu "=" -> b64val c = None ->
  decodeBase64 str charset = str
  /\ decodeBase64ToBinary str = TextEncoder_encode str.
Proof.
  intros Hin Hspace Hpad Hval.
  assert (Hatob : atob (replaceAll (oneOf isSpace []) str) = None).
  { apply (atob_invalid c); try done. rewrite replaceAll_spaces_filter.
    apply filter_In. split; [done|]. by rewrite Hspace. }
  unfold decodeBase64, decodeBase64ToBinary. by rewrite Hatob.
Qed.

End BodyFacts.

(** * Encoded words *)

Lemma replaceAll_prefix m (pre t : jsstring) :
  (forall j, (j < length pre)%nat -> m (drop j (pre ++ t)) = None) ->
  replaceAll m (pre ++ t) = pre ++ replaceAll m t.
Proof.
  induction pre as [|c pre IH]; intros Hnone; [done|].
  change ((c :: pre) ++ t) with (c :: (pre ++ t)).
  rewrite replaceAll_copy by (apply (Hnone 0%nat); simpl; lia).
  rewrite IH; [done|]. intros j Hj. apply (Hnone (S j)). simpl. lia.
Qed.

Lemma matchEncodedWord_other c s :
  c <> cu "=" -> matchEncodedWord (c :: s) = None.
Proof.
  intros Hc. unfold matchEncodedWord. simpl startsWith.
  by replace (cu "=" =? c) with false by lia.
Qed.

Lemma matchEncodedWord_word (charset : jsstring) (e : Z) (text post : jsstring) :
  charset <> [] ->
  Forall (fun c => negb (c =? cu "?") = true) charset ->
  Forall (fun c => negb (c =? cu "?") = true) text ->
  ((asciiUpper e =? cu "B") || (asciiUpper e =? cu "Q")) = true ->
  matchEncodedWord (encodedWordText charset e text ++ post)
  = Some (charset, e, text, length (encodedWordText charset e text)).
Proof.
  intros Hne Hcharset Htext He. unfold matchEncodedWord, encodedWordText.
  rewrite <- !app_assoc. rewrite startsWith_app.
  change (drop 2 (lit "=?" ++ ?x)) with x.
  change (lit "?" ++ [e] ++ lit "?" ++ text ++ lit "?=" ++ post)
    with (cu "?" :: e :: cu "?" :: text ++ cu "?" :: cu "=" :: post).
  rewrite takeWhile_app_stop by done.
  rewrite drop_app_length.
  destruct charset as [|c0 charset]; [done|].
  replace ((cu "?" =? cu "?") && (cu "?" =? cu "?")) with true by reflexivity.
  rewrite He. simpl andb. cbv iota.
  rewrite takeWhile_app_stop by done. rewrite drop_app_length.
  replace (startsWith (cu "?" :: cu "=" :: post) (lit "?=")) with true
    by (symmetry; apply (startsWith_app (lit "?=") post)).
  do 2 f_equal. rewrite !length_app. simpl. lia.
Qed.

Lemma hexDigit_range v :
  0 <= v < 16 -> 48 <= hexDigit v <= 57 \/ 65 <= hexDigit v <= 70.
Proof. intros Hv. unfold hexDigit. destruct (Z.ltb_spec v 10); lia. Qed.

Lemma b64char_range v :
  0 <= v < 64 -> b64char v <> cu "?".
Proof.
  intros Hv. unfold b64char.
  repeat match goal with
         | |- context [?a <? ?b] => destruct (Z.ltb_spec a b)
         | |- context [?a =? ?b] => destruct (Z.eqb_spec a b)
         end; change (cu "?") with 63; lia.
Qed.

Lemma b64encode_no_mark bs :
  isBytes bs -> Forall (fun c => negb (c =? cu "?") = true) (b64encode bs).
Proof.
  intros Hbs. unfold b64encode. apply Forall_app. split.
  - apply Forall_map. eapply Forall_impl; [apply b64sextets_range, Hbs|].
    intros v Hv. simpl. apply negb_true_iff.
    pose proof (b64char_range v Hv). lia.
  - unfold b64padding. destruct (_ mod 3)%nat as [|[|[|?]]]; by repeat constructor.
Qed.

Lemma qWordEncode_no_mark safe bs :
  isBytes bs -> Forall (fun c => negb (c =? cu "?") = true) (qWordEncode safe bs).
Proof.
  induction 1 as [|b bs Hb _ IH]; [constructor|].
  unfold qWordEncode in *. cbn [flat_map]. apply Forall_app. split; [|done].
  destruct (b =? cu " "); [by repeat constructor|].
  destruct (_ && _) eqn:E.
  - apply andb_true_iff in E as [E _]. apply andb_true_iff in E as [_ E].
    by repeat constructor.
  - pose proof (hexDigit_range (b / 16) ltac:(divmod)).
    pose proof (hexDigit_range (b mod 16) ltac:(divmod)).
    repeat constructor; apply negb_true_iff; change (cu "?") with 63; lia.
Qed.

Lemma literally_underscore c s :
  literally (lit "_") (lit " ") (c :: s)
  = if c =? cu "_" then Some (lit " ", 1%nat) else None.
Proof.
  unfold literally. simpl startsWith. rewrite andb_true_r.
  rewrite (Z.eqb_sym (cu "_") c). done.
Qed.

Lemma underscores_literal c s :
  c <> cu "_" ->
  replaceAll (literally (lit "_") (lit " ")) (c :: s)
  = c :: replaceAll (literally (lit "_") (lit " ")) s.
Proof.
  intros Hc. apply replaceAll_copy. rewrite literally_underscore.
  by replace (c =? cu "_") with false by lia.
Qed.

(** Putting the spaces back into the text of a word in Q gives a text in
    quoted-printable. *)
Lemma underscores_qWordEncode safe bs :
  isBytes bs ->
  replaceAll (literally (lit "_") (lit " ")) (qWordEncode safe bs)
  = qpEncode (fun b => (b =? cu " ")
                       || (safe b && negb (b =? cu "?") && negb (b =? cu "_")))
      bs.
Proof.
  induction 1 as [|b bs Hb _ IH]; [done|].
  unfold qWordEncode, qpEncode in *. cbn [flat_map].
  destruct (Z.eqb_spec b (cu " ")) as [-> | Hsp].
  - cbn [app orb andb negb].
    rewrite (replaceAll_match _ _ _ (lit " ") 1%nat)
      by (by rewrite literally_underscore).
    cbn [Nat.pred]. rewrite drop_0, IH. done.
  - cbn [orb].
    destruct (Z.eqb_spec b (cu "=")) as [-> | Heq].
    + cbn [negb andb]. rewrite !andb_false_r. cbn [app andb].
      rewrite !underscores_literal by done. by rewrite IH.
    + cbn [negb]. rewrite !andb_true_r.
      replace (safe b && negb (b =? cu "?") && negb (b =? cu "_") && true)
        with (safe b && negb (b =? cu "?") && negb (b =? cu "_"))
        by (by rewrite andb_true_r).
      destruct (safe b && negb (b =? cu "?") && negb (b =? cu "_")) eqn:E.
      * apply andb_true_iff in E as [_ E]. apply negb_true_iff in E.
        cbn [app]. rewrite underscores_literal by lia. by rewrite IH.
      * pose proof (hexDigit_range (b / 16) ltac:(divmod)).
        pose proof (hexDigit_range (b mod 16) ltac:(divmod)).
        cbn [app].
        rewrite !underscores_literal by (change (cu "_") with 95; first [done | lia]).
        by rewrite IH.
Qed.

Lemma removeSoftLineBreaks_literal c s :
  c <> cu "=" -> removeSoftLineBreaks (c :: s) = c :: removeSoftLineBreaks s.
Proof.
  intros Hc. cbn [removeSoftLineBreaks].
  by replace (c =? cu "=") with false by lia.
Qed.

Lemma removeSoftLineBreaks_escape h s :
  h <> LF /\ h <> CR ->
  removeSoftLineBreaks (cu "=" :: h :: s)
  = cu "=" :: removeSoftLineBreaks (h :: s).
Proof.
  intros [Hlf Hcr]. cbn [removeSoftLineBreaks].
  replace (cu "=" =? cu "=") with true by reflexivity.
  replace (h =? LF) with false by lia. replace (h =? CR) with false by lia.
  done.
Qed.

Lemma removeSoftLineBreaks_encode plain bs :
  isBytes bs -> removeSoftLineBreaks (qpEncode plain bs) = qpEncode plain bs.
Proof.
  induction 1 as [|b bs Hb _ IH]; [done|].
  unfold qpEncode in *. cbn [flat_map].
  destruct (plain b && negb (b =? cu "=")) eqn:E.
  - apply andb_true_iff in E as [_ E]. apply negb_true_iff in E.
    cbn [app]. rewrite removeSoftLineBreaks_literal by lia. by rewrite IH.
  - pose proof (hexDigit_range (b / 16) ltac:(divmod)) as H1.
    pose proof (hexDigit_range (b mod 16) ltac:(divmod)) as H2.
    cbn [app].
    rewrite removeSoftLineBreaks_escape by (unfold LF, CR; lia).
    rewrite !removeSoftLineBreaks_literal by (change (cu "=") with 61; lia).
    by rewrite IH.
Qed.

Lemma List_filter_all (p : Z -> bool) (l : list Z) :
  Forall (fun x => p x = true) l -> List.filter p l = l.
Proof. induction 1 as [|x l Hx _ IH]; simpl; [done|]. by rewrite Hx, IH. Qed.

Section WordFacts.
Context `{Engine}.

Lemma encodedWord_skip (pre t : jsstring) :
  Forall (fun c => c <> cu "=") pre ->
  replaceAll encodedWord (pre ++ t) = pre ++ replaceAll encodedWord t.
Proof.
  intros Hpre. apply replaceAll_prefix. intros j Hj.
  rewrite drop_app_le by lia.
  destruct (drop j pre) as [|c r] eqn:E.
  { apply (f_equal (@length Z)) in E. rewrite length_drop in E. simpl in E. lia. }
  assert (Hc : c <> cu "=").
  { rewrite Forall_forall in Hpre. apply Hpre. apply list_elem_of_In.
    assert (Hin : In c (drop j pre)) by (rewrite E; by left).
    assert (Hin' : In c (take j pre ++ drop j pre))
      by (apply in_or_app; by right).
    by rewrite take_drop in Hin'. }
  unfold encodedWord. cbn [app]. by rewrite matchEncodedWord_other.
Qed.

Lemma encodedWord_decoded (pre charset : jsstring) (e : Z)
    (text post : jsstring) :
  Forall (fun c => c <> cu "=") pre ->
  charset <> [] ->
  Forall (fun c => negb (c =? cu "?") = true) charset ->
  Forall (fun c => negb (c =? cu "?") = true) text ->
  ((asciiUpper e =? cu "B") || (asciiUpper e =? cu "Q")) = true ->
  decodeMimeHeader (pre ++ encodedWordText charset e text ++ post)
  = pre ++ decodeWord (encodedWordText charset e text) charset e text
        ++ decodeMimeHeader post.
Proof.
  intros Hpre Hne Hcharset Htext He. unfold decodeMimeHeader.
  replace (negb (truthy (pre ++ encodedWordText charset e text ++ post)))
    with false by (by destruct pre).
  rewrite encodedWord_skip by done. f_equal.
  assert (Hword : encodedWord (encodedWordText charset e text ++ post)
                  = Some (decodeWord (encodedWordText charset e text)
                            charset e text,
                          length (encodedWordText charset e text))).
  { unfold encodedWord. rewrite matchEncodedWord_word by done.
    by rewrite take_app_length. }
  remember (encodedWordText charset e text) as word eqn:Eword.
  destruct word as [|c word].
  { unfold encodedWordText in Eword. done. }
  change ((c :: word) ++ post) with (c :: (word ++ post)) in *.
  rewrite (replaceAll_match _ _ _ _ _ Hword). f_equal.
  simpl length. simpl Nat.pred. rewrite drop_app_length.
  by destruct post.
Qed.

(** X22. A word in base64 of a text in UTF-8 is replaced by the text, under
    either case of the letter B and any charset that [getTextDecoder]
    takes as utf-8; what stands before the word is left alone and what
    follows is decoded on its own. *)
Theorem decodeMimeHeader_base64_word
    (pre charset : jsstring) (e : Z) (text post : jsstring) :
  Forall (fun c => c <> cu "=") pre ->
  charset <> [] ->
  Forall (fun c => c <> cu "?") charset ->
  e = cu "B" \/ e = cu "b" ->
  wellFormed text = true ->
  getTextDecoder charset = lit "utf-8" ->
  decodeMimeHeader
    (pre ++ encodedWordText charset e (b64encode (TextEncoder_encode text))
         ++ post)
  = pre ++ dropBOM text ++ decodeMimeHeader post.
Proof.
  intros Hpre Hne Hcharset He Htext Hlabel.
  destruct (utf8_round_trip text Htext) as [Hround Hbytes].
  rewrite encodedWord_decoded; try done.
  - do 2 f_equal. unfold decodeWord.
    replace (jsstring_eqb (toUpperCase [e]) (lit "B")) with true
      by (by destruct He as [-> | ->]).
    unfold decodeBase64. rewrite replaceAll_spaces_filter.
    destruct (b64encode_plain _ Hbytes) as (_ & Hplain & _).
    rewrite List_filter_all by done.
    rewrite atob_b64encode by done. rewrite Uint8Array_bytes by done.
    by rewrite Hlabel, TextDecoder_utf8.
  - eapply Forall_impl; [exact Hcharset|]. intros c Hc. cbv beta in *.
    apply negb_true_iff. change (cu "?") with 63 in *. lia.
  - by apply b64encode_no_mark.
  - by destruct He as [-> | ->].
Qed.

(** X23. A word in the encoding Q of a text in UTF-8 is replaced by the text in
    the same way, the underscores read as spaces. *)
Theorem decodeMimeHeader_q_word
    (safe : Z -> bool) (pre charset : jsstring) (e : Z) (text post : jsstring) :
  Forall (fun c => c <> cu "=") pre ->
  charset <> [] ->
  Forall (fun c => c <> cu "?") charset ->
  e = cu "Q" \/ e = cu "q" ->
  wellFormed text = true ->
  getTextDecoder charset = lit "utf-8" ->
  decodeMimeHeader
    (pre ++ encodedWordText charset e (qWordEncode safe (TextEncoder_encode text))
         ++ post)
  = pre ++ dropBOM text ++ decodeMimeHeader post.
Proof.
  intros Hpre Hne Hcharset He Htext Hlabel.
  destruct (utf8_round_trip text Htext) as [Hround Hbytes].
  rewrite encodedWord_decoded; try done.
  - do 2 f_equal. unfold decodeWord.
    replace (jsstring_eqb (toUpperCase [e]) (lit "B")) with false
      by (by destruct He as [-> | ->]).
    replace (jsstring_eqb (toUpperCase [e]) (lit "Q")) with true
      by (by destruct He as [-> | ->]).
    unfold decodeQuotedPrintable.
    rewrite underscores_qWordEncode by done.
    rewrite qp_bytes_scan, removeSoftLineBreaks_encode by done.
    rewrite qp_scan_encode by done. rewrite Uint8Array_bytes by done.
    by rewrite Hlabel, TextDecoder_utf8.
  - eapply Forall_impl; [exact Hcharset|]. intros c Hc. cbv beta in *.
    apply negb_true_iff. change (cu "?") with 63 in *. lia.
  - by apply qWordEncode_no_mark.
  - by destruct He as [-> | ->].
Qed.

End WordFacts.

(** * Further facts about the headers and the worker *)

Section AbsentHeaders.
Context `{Engine}.

(** The name [k] is in no entry of the mapping and is not at hand. *)
Lemma absent_step k st line :
  hs_headers st !! k = None ->
  (truthy (currentKey st) = true -> toLowerCase (currentKey st) <> k) ->
  headerKey line <> Some k ->
  hs_headers (parseHeaders_step st line) !! k = None
  /\ (truthy (currentKey (parseHeaders_step st line)) = true ->
      toLowerCase (currentKey (parseHeaders_step st line)) <> k).
Proof.
  intros Hnone Hkey Hline.
  assert (Hflush : flush st !! k = None).
  { unfold flush. destruct (truthy (currentKey st)) eqn:E; [|done].
    destruct (jsstring_eqb _ _); [done|].
    rewrite lookup_insert. rewrite decide_False by (by apply Hkey). done. }
  unfold parseHeaders_step. unfold headerKey in Hline.
  destruct (startsWithSpace line); [done|].
  destruct (indexOf line (lit ":") >? 0); simpl.
  - split; [done|]. intros _ Heq. apply Hline. by rewrite Heq.
  - done.
Qed.

(** X24. A name that no line of a header block opens is not in the mapping. *)
Theorem parseHeaders_absent (raw k : jsstring) :
  Forall (fun line => headerKey line <> Some k) (splitLines raw) ->
  parseHeaders raw !! k = None.
Proof.
  intros Hlines. unfold parseHeaders, parseHeaders_lines.
  assert (Hgen : forall lines st,
            Forall (fun line => headerKey line <> Some k) lines ->
            hs_headers st !! k = None ->
            (truthy (currentKey st) = true -> toLowerCase (currentKey st) <> k) ->
            flush (fold_left parseHeaders_step lines st) !! k = None).
  { induction lines as [|line lines IH]; intros st Hall Hnone Hkey.
    - simpl. unfold flush. destruct (truthy (currentKey st)) eqn:E; [|done].
      destruct (jsstring_eqb _ _); [done|].
      rewrite lookup_insert. rewrite decide_False by (by apply Hkey). done.
    - inversion Hall as [|? ? Hline Hrest]; subst. simpl.
      destruct (absent_step k st line Hnone Hkey Hline) as [Hnone' Hkey'].
      by apply IH. }
  apply Hgen; [done | apply lookup_empty | done].
Qed.

End AbsentHeaders.

Lemma trimmed_lit_unknown : trimmed (lit "unknown") = true.
Proof. reflexivity. Qed.

(** X25. The address of the client is never empty; when it is taken from
    X-Forwarded-For or missing it holds no comma and no white space around
    it. *)
Theorem getClientIP_never_empty (request : RequestHeaders) :
  getClientIP request <> []
  /\ (truthy (default [] (cfConnectingIP request)) = false ->
      truthy (default [] (xRealIP request)) = false ->
      includes (getClientIP request) (lit ",") = false
      /\ trimmed (getClientIP request) = true).
Proof.
  unfold getClientIP, orElse.
  destruct (truthy (default [] (cfConnectingIP request))) eqn:Ecf.
  { split; [|done]. by apply truthy_spec. }
  destruct (truthy (default [] (xRealIP request))) eqn:Exr.
  { split; [|done]. by apply truthy_spec. }
  set (first := match xForwardedFor request with
                | Some forwarded => trim (hd [] (split forwarded (lit ",")))
                | None => []
                end).
  destruct (truthy first) eqn:Efirst.
  - split; [by apply truthy_spec|]. intros _ _. subst first.
    destruct (xForwardedFor request) as [forwarded|]; [|done].
    destruct (hd_split forwarded (lit ",")) as [_ Hclean]; [done|].
    split; [|apply trim_trimmed].
    eapply includes_infix; [apply infix_trim | done].
  - split; [done|]. intros _ _. split; reflexivity.
Qed.

(** X26. A client that is refused is told to wait between one second and a
    minute, whenever the answer is sent.  So it is for the time of reset of
    every answer when no statement throws, and for that of every refusal
    also when one does. *)
Theorem retryAfter_bounds
    (table : gmap (jsstring * jsstring * Z) Z) (now later : Z)
    (ip endpoint : jsstring) :
  now <= later ->
  1 <= retryAfter
         (resetAt (fst (checkRateLimit table now ip endpoint false false)))
         later
    <= 60
  /\ (forall selectThrows upsertThrows,
        allowed (fst (checkRateLimit table now ip endpoint selectThrows
                        upsertThrows))
        = false ->
        1 <= retryAfter
               (resetAt (fst (checkRateLimit table now ip endpoint
                                selectThrows upsertThrows)))
               later
          <= 60).
Proof.
  intros Hlater.
  assert (Hbound : 1 <= retryAfter (now / 60000 * 60000 + 60000) later <= 60).
  { unfold retryAfter.
    destruct (Z.gtb_spec (- (- (now / 60000 * 60000 + 60000 - later) / 1000))
                0);
      divmod. }
  split.
  - replace (resetAt (fst (checkRateLimit table now ip endpoint false false)))
      with (now / 60000 * 60000 + 60000); [done|].
    unfold checkRateLimit, checkRateLimit_select, checkRateLimit_upsert.
    by destruct (_ >=? _).
  - intros selectThrows upsertThrows Hrefused.
    replace (resetAt (fst (checkRateLimit table now ip endpoint selectThrows
                             upsertThrows)))
      with (now / 60000 * 60000 + 60000); [done|].
    revert Hrefused.
    unfold checkRateLimit, checkRateLimit_select, checkRateLimit_upsert.
    destruct selectThrows; [done|]. destruct (_ >=? _); [done|].
    by destruct upsertThrows.
Qed.

Section WorkerFacts.
Context `{Engine}.

Lemma toLowerCase_fixed s :
  Forall (fun c => c < 128) s -> Forall (fun c => isUpper c = false) s ->
  toLowerCase s = s.
Proof.
  induction 1 as [|c s Hc _ IH]; intros Hlow; [done|].
  inversion Hlow as [|? ? Hl Hrest]; subst.
  change (toLowerCase (c :: s))
    with ((if c <? 128 then [asciiLower c] else unicodeLower c) ++ toLowerCase s).
  replace (c <? 128) with true by lia. unfold asciiLower. rewrite Hl.
  by rewrite IH.
Qed.

(** X27. An address made of any prefix, the sign [@] and a domain of
    [getDomains] in Basic Latin is let in by [isAllowedDomain]. *)
Theorem generated_address_allowed (prefix domain : jsstring) (env : Env) :
  In domain (getDomains env) ->
  Forall (fun c => c < 128) domain ->
  isAllowedDomain (prefix ++ lit "@" ++ domain) env = true.
Proof.
  intros Hin Hascii. unfold isAllowedDomain.
  replace (negb (truthy (prefix ++ lit "@" ++ domain))) with false
    by (by destruct prefix).
  apply existsb_exists. exists domain. split; [done|].
  apply endsWith_spec. exists (toLowerCase prefix).
  rewrite !toLowerCase_app.
  destruct (getDomains_entries env domain Hin) as (_ & Hlow & _).
  rewrite (toLowerCase_fixed domain) by done. done.
Qed.

(** X28. A message that is HTML only: the page is stored as it came, and the
    text stored beside it is the text of the page. *)
Theorem emailRow_html_only
    (head body ct recipient id : jsstring) (now : Z) :
  head <> [] ->
  includes (head ++ [CR; LF; CR]) (CRLF ++ CRLF) = false ->
  parseHeaders head !! lit "content-type" = Some ct ->
  includes (toLowerCase ct) (lit "multipart") = false ->
  includes (toLowerCase ct) (lit "text/html") = true ->
  parseHeaders head !! lit "content-transfer-encoding" = None ->
  let row := emailRow {| msg_to := recipient;
                         msg_raw := head ++ CRLF ++ CRLF ++ body |} id now in
  e_html_content row = body
  /\ e_text_content row = htmlToText body
  /\ e_has_attachments row = 0.
Proof.
  intros Hhead Hclean Htype Hmulti Hhtml Hencoding row. subst row.
  assert (Hbody : parseBody body
                    (getOr (parseHeaders head) "content-type" (lit "text/plain"))
                    (getOr (parseHeaders head) "content-transfer-encoding" [])
                  = {| textContent := []; htmlContent := body;
                       attachments := [] |}).
  { unfold getOr. rewrite Htype, Hencoding. simpl default.
    assert (Hct : orElse ct (lit "text/plain") = ct).
    { destruct ct; [|done]. by vm_compute in Hhtml. }
    rewrite Hct. change (orElse [] []) with (@nil Z).
    unfold parseBody. rewrite Hmulti, Hhtml.
    by rewrite decodeContent_as_is. }
  unfold emailRow. cbn [msg_raw msg_to].
  rewrite parseMimeEmail_framed by done.
  cbn [email_body headers rawEmail e_html_content e_text_content
       e_has_attachments].
  rewrite Hbody. cbn [textContent htmlContent attachments].
  split; [done|]. split; [|reflexivity].
  destruct body; done.
Qed.

End WorkerFacts.

(** * The cleanup job *)

Lemma NoDup_map_filter {A} (f : A -> jsstring) (p : A -> bool) (l : list A) :
  NoDup (map f l) -> NoDup (map f (List.filter p l)).
Proof.
  induction l as [|x l IH]; simpl; [done|].
  rewrite NoDup_cons. intros [Hx Hl]. destruct (p x); simpl; [|by apply IH].
  apply NoDup_cons. split; [|by apply IH].
  intros Hin. apply Hx. apply list_elem_of_In. apply list_elem_of_In in Hin.
  apply in_map_iff in Hin as (y & Hy & Hin). apply filter_In in Hin as [Hin _].
  apply in_map_iff. eauto.
Qed.

(** X29. The cleanup job deletes the messages older than a day and no other,
    and the attachments of these messages with them: of the attachments of
    tables that agree, those stay whose message stays, and the tables still
    agree. *)
Theorem cleanupOldEmails_keeps_consistent
    (db : Database) (table : gmap (jsstring * jsstring * Z) Z) (now : Z) :
  consistent db ->
  let db' := fst (cleanupOldEmails (db, table) now) in
  consistent db'
  /\ (forall e, In e (db_emails db')
                <-> In e (db_emails db) /\ now - 86400000 <= e_created_at e)
  /\ (forall a, In a (db_attachments db')
                <-> In a (db_attachments db)
                    /\ In (a_email_id a) (map e_id (db_emails db'))).
Proof.
  intros (Hemails & Hatts & Hrefs) db'. subst db'.
  unfold cleanupOldEmails, deleteEmailsBefore, EMAIL_EXPIRE_MS.
  change (24 * 60 * 60 * 1000) with 86400000. cbn [fst db_emails db_attachments].
  set (t := now - 86400000).
  assert (Hkept : forall e,
            In e (List.filter (fun e => negb (e_created_at e <? t)) (db_emails db))
            <-> In e (db_emails db) /\ t <= e_created_at e).
  { intros e. rewrite filter_In. rewrite negb_true_iff. split.
    - intros [Hin Ht]. split; [done | lia].
    - intros [Hin Ht]. split; [done | lia]. }
  assert (Hstays : forall a,
            In a (db_attachments db) ->
            (existsb (fun e => jsstring_eqb (e_id e) (a_email_id a))
               (List.filter (fun e => e_created_at e <? t) (db_emails db))
             = false
             <-> In (a_email_id a)
                   (map e_id
                      (List.filter (fun e => negb (e_created_at e <? t))
                         (db_emails db))))).
  { intros a Ha. rewrite Forall_forall in Hrefs.
    apply list_elem_of_In in Ha. specialize (Hrefs a Ha).
    apply in_map_iff in Hrefs as (e & He & Hin). split.
    - intros Hnone. apply in_map_iff. exists e. split; [done|].
      apply Hkept. split; [done|].
      destruct (Z.ltb_spec (e_created_at e) t) as [Hold | Hnew]; [|done].
      assert (Hex : existsb (fun e0 => jsstring_eqb (e_id e0) (a_email_id a))
                      (List.filter (fun e0 => e_created_at e0 <? t)
                         (db_emails db)) = true).
      { apply existsb_exists. exists e. split.
        - apply filter_In. split; [done | lia].
        - unfold jsstring_eqb. by apply bool_decide_eq_true. }
      congruence.
    - intros Hin'. apply in_map_iff in Hin' as (e' & He' & Hin').
      apply Hkept in Hin' as [Hin' Hnew].
      destruct (existsb _ _) eqn:Hex; [|done].
      apply existsb_exists in Hex as (e'' & Hin'' & Heq).
      apply filter_In in Hin'' as [Hin'' Hold].
      unfold jsstring_eqb in Heq. apply bool_decide_eq_true in Heq.
      assert (e'' = e').
      { clear -Hemails Hin' Hin'' Heq He'.
        assert (Hid : e_id e'' = e_id e') by congruence.
        induction (db_emails db) as [|x l IH]; [done|].
        simpl in Hemails. apply NoDup_cons in Hemails as [Hx Hl].
        destruct Hin' as [-> | Hin'], Hin'' as [-> | Hin'']; [done | | |].
        - exfalso. apply Hx. apply list_elem_of_In. rewrite <- Hid.
          by apply in_map.
        - exfalso. apply Hx. apply list_elem_of_In. rewrite Hid.
          by apply in_map.
        - by apply IH. }
      subst e''. lia. }
  split; [|split].
  - split; [|split]; cbn [db_emails db_attachments].
    + by apply NoDup_map_filter.
    + by apply NoDup_map_filter.
    + apply Forall_forall. intros a Ha. apply list_elem_of_In in Ha.
      apply filter_In in Ha as [Ha Hnone]. apply negb_true_iff in Hnone.
      by apply Hstays.
  - apply Hkept.
  - intros a. rewrite filter_In, negb_true_iff. split.
    + intros [Ha Hnone]. split; [done|]. by apply Hstays.
    + intros [Ha Hin]. split; [done|]. by apply Hstays.
Qed.

(** X30. The cleanup job leaves the rate limit of every request of the last
    minute and of any later time as it is: the request is answered as if
    the job had not run. *)
Theorem cleanupOldEmails_keeps_running_windows
    (db : Database) (table : gmap (jsstring * jsstring * Z) Z)
    (now time : Z) (ip endpoint : jsstring)
    (selectThrows upsertThrows : bool) :
  now - 60000 <= time ->
  fst (checkRateLimit (snd (cleanupOldEmails (db, table) now)) time ip
         endpoint selectThrows upsertThrows)
  = fst (checkRateLimit table time ip endpoint selectThrows upsertThrows).
Proof.
  intros Htime. unfold cleanupOldEmails, deleteRateLimitsBefore.
  cbn [snd]. unfold checkRateLimit, checkRateLimit_select.
  unfold windowStart, RATE_LIMIT_WINDOW_MS. change (60 * 1000) with 60000.
  set (key := (ip, endpoint, time / 60000 * 60000)).
  assert (Hlookup : filter (fun row => now - 60000 * 2 <= snd (fst row)) table
                      !! key = table !! key).
  { destruct (table !! key) as [c|] eqn:E.
    - apply map_lookup_filter_Some. split; [done|]. simpl. divmod.
    - apply map_lookup_filter_None. by left. }
  rewrite Hlookup. destruct selectThrows; [done|].
  destruct (_ >=? _); [done|]. unfold checkRateLimit_upsert.
  by destruct upsertThrows.
Qed.

(** * The further statements at work *)

Lemma extractPreview_bounded_witness :
  let text := lit "  hello   world  and more " in
  Z.of_nat (length (extractPreview text 12)) <= 12 + 3
  /\ extractPreview text 12
     = take 12 (trim (replaceAll spaces text)) ++ lit "...".
Proof.
  destruct (extractPreview_bounded (lit "  hello   world  and more ") 12)
    as (Hlen & _ & _ & _ & Hcut); [lia|].
  split; [exact Hlen|]. apply Hcut. by vm_compute.
Defined.

Lemma isAllowedDomain_spec_witness :
  isAllowedDomain (lit "Joe@2ART.fun") plainEnv = true.
Proof.
  apply (proj2 (isAllowedDomain_spec (lit "Joe@2ART.fun") plainEnv)).
  split; [done|]. exists (lit "joe"), (lit "2art.fun").
  split; [vm_compute; by left|]. split; [done|].
  split; [by repeat constructor | by vm_compute].
Defined.

Lemma parseEmailAddress_angle_witness :
  parseEmailAddress (Some (lit "Alice Doe <Alice@Example.com>"))
  = {| addr_name := lit "Alice Doe"; addr_email := lit "alice@example.com" |}.
Proof.
  exact (proj1 (parseEmailAddress_angle (lit "Alice Doe")
                  (lit "Alice@Example.com")
                  ltac:(done) ltac:(by repeat constructor)
                  ltac:(by repeat constructor))).
Defined.

Lemma parseEmailAddress_bare_witness :
  parseEmailAddress (Some (lit "user@example.com"))
  = {| addr_name := lit "user@example.co"; addr_email := lit "m" |}.
Proof.
  exact (parseEmailAddress_bare (lit "user@example.co") (cu "m")
           ltac:(by repeat constructor)).
Defined.

Lemma handleEmail_keeps_consistent_witness :
  consistent (handleEmail attachmentMessage plainEnv sampleIds 0 emptyDatabase).
Proof.
  apply (handleEmail_keeps_consistent attachmentMessage plainEnv sampleIds 0
           emptyDatabase).
  unfold consistent, emptyDatabase. simpl. repeat constructor.
Defined.

Lemma handleEmail_stores_witness :
  map e_id (db_emails
              (handleEmail attachmentMessage plainEnv sampleIds 0 emptyDatabase))
  = [lit "id0"]
  /\ map a_id (db_attachments
                 (handleEmail attachmentMessage plainEnv sampleIds 0
                    emptyDatabase))
     = [lit "id1"].
Proof.
  destruct (handleEmail_stores attachmentMessage plainEnv sampleIds 0
              emptyDatabase) as (Hstored & _).
  - by vm_compute.
  - simpl. tauto.
  - vm_compute. repeat constructor. apply not_elem_of_nil.
  - intros a _. simpl. tauto.
  - rewrite Hstored. split; by vm_compute.
Defined.

Lemma parseMimeEmail_without_blank_line_witness :
  email_body (parseMimeEmail lfMessage) = emptyBody.
Proof.
  apply (parseMimeEmail_without_blank_line lfMessage). left. by vm_compute.
Defined.

Lemma parseMimeEmail_frames_witness :
  headers (parseMimeEmail crlfMessage) = parseHeaders (lit "Subject: Hi").
Proof.
  apply (parseMimeEmail_frames (lit "Subject: Hi") (lit "Body"));
    by vm_compute.
Defined.

Lemma parseMimeEmail_plain_message_witness :
  email_body (parseMimeEmail crlfMessage)
  = {| textContent := lit "Body"; htmlContent := []; attachments := [] |}.
Proof.
  apply (parseMimeEmail_plain_message (lit "Subject: Hi") (lit "Body"));
    by vm_compute.
Defined.

Lemma parseMultipart_framed_witness :
  map part_body
    (parseMultipart
       (multipartBody (lit "xyz") (lit "preamble" ++ CRLF)
          [(lit "Content-Type: text/plain", lit "hello");
           (lit "Content-Type: text/html", [])]
          CRLF)
       (lit "xyz"))
  = [lit "hello"].
Proof.
  rewrite (parseMultipart_framed (lit "xyz") (lit "preamble" ++ CRLF)
             [(lit "Content-Type: text/plain", lit "hello");
              (lit "Content-Type: text/html", [])]
             CRLF); by vm_compute.
Defined.

Lemma attachment_shape_witness :
  let a := hd (Build_Attachment [] [] [] 0)
             (attachments
                (parseBody binaryBody (lit "multipart/mixed; boundary=xyz") []))
  in
  size a = Z.of_nat (length (content a))
  /\ contentType a = lit "application/octet-stream".
Proof.
  destruct (attachment_shape binaryBody (lit "multipart/mixed; boundary=xyz") []
              (hd (Build_Attachment [] [] [] 0)
                 (attachments
                    (parseBody binaryBody
                       (lit "multipart/mixed; boundary=xyz") []))))
    as (_ & Hsize & _).
  - vm_compute. by left.
  - split; [exact Hsize | by vm_compute].
Defined.

Lemma extractCharset_reads_witness :
  extractCharset
    (Some (lit "text/plain; " ++ lit "Charset=" ++ [34] ++ lit "gbk"
           ++ (34 :: lit "; format=flowed")))
  = lit "gbk".
Proof.
  apply (extractCharset_reads (lit "text/plain; ") (lit "Charset=") [34]
           (lit "gbk") (34 :: lit "; format=flowed")).
  - by vm_compute.
  - by vm_compute.
  - done.
  - right. by left.
  - done.
  - by repeat constructor.
  - by vm_compute.
Defined.

Lemma decodeContent_base64_text_witness :
  decodeContent accentedBase64 (lit "Base64") (lit "UTF-8") = accentedText.
Proof.
  apply (decodeContent_base64_text accentedText accentedBase64);
    by vm_compute.
Defined.

Lemma decodeContent_quoted_printable_text_witness :
  decodeContent accentedQuotedPrintable (lit "Quoted-Printable") (lit "utf8")
  = accentedText.
Proof.
  apply (decodeContent_quoted_printable_text isPrintable accentedText
           accentedQuotedPrintable);
    by vm_compute.
Defined.

Lemma decodeBase64_keeps_invalid_witness :
  decodeBase64 (lit "no base64!") (lit "utf-8") = lit "no base64!".
Proof.
  apply (decodeBase64_keeps_invalid (lit "no base64!") (lit "utf-8") (cu "!")).
  - vm_compute. tauto.
  - by vm_compute.
  - by vm_compute.
  - by vm_compute.
Defined.

Lemma decodeMimeHeader_base64_word_witness :
  decodeMimeHeader (lit "Re: =?UTF-8?b?aMOpbGxv?= =3D")
  = lit "Re: " ++ accentedText ++ lit " =3D".
Proof.
  apply (decodeMimeHeader_base64_word (lit "Re: ") (lit "UTF-8") (cu "b")
           accentedText (lit " =3D")).
  - by repeat constructor.
  - done.
  - by repeat constructor.
  - by right.
  - by vm_compute.
  - by vm_compute.
Defined.

Lemma decodeMimeHeader_q_word_witness :
  decodeMimeHeader (lit "Re: =?utf-8?Q?h=C3=A9llo_=3F?=")
  = lit "Re: " ++ accentedText ++ lit " ?".
Proof.
  apply (decodeMimeHeader_q_word isPrintable (lit "Re: ") (lit "utf-8")
           (cu "Q") (accentedText ++ lit " ?") []).
  - by repeat constructor.
  - done.
  - by repeat constructor.
  - by left.
  - by vm_compute.
  - by vm_compute.
Defined.

Lemma parseHeaders_absent_witness :
  parseHeaders twoSubjects !! lit "content-type" = None.
Proof.
  apply parseHeaders_absent.
  let lines := eval vm_compute in (splitLines twoSubjects) in
  change (splitLines twoSubjects) with lines.
  repeat (constructor; [by vm_compute|]). constructor.
Defined.

Lemma getClientIP_never_empty_witness :
  let request := {| cfConnectingIP := None; xRealIP := Some [];
                    xForwardedFor := Some (lit " 1.2.3.4 , 5.6.7.8") |} in
  getClientIP request = lit "1.2.3.4"
  /\ includes (getClientIP request) (lit ",") = false.
Proof.
  split; [by vm_compute|].
  apply (proj2 (getClientIP_never_empty
                  {| cfConnectingIP := None; xRealIP := Some [];
                     xForwardedFor := Some (lit " 1.2.3.4 , 5.6.7.8") |}));
    done.
Defined.

Lemma retryAfter_bounds_witness :
  allowed (fst (checkRateLimit usedUpLimits 150000 (lit "1.2.3.4")
                  (lit "/api/generate") false false))
  = false
  /\ 1 <= retryAfter
            (resetAt (fst (checkRateLimit usedUpLimits 150000 (lit "1.2.3.4")
                             (lit "/api/generate") false false)))
            150500
       <= 60.
Proof.
  split; [by vm_compute|].
  refine (proj1 (retryAfter_bounds usedUpLimits 150000 150500 _ _ _)). lia.
Defined.

Lemma generated_address_allowed_witness :
  isAllowedDomain (generatePrefix [0; 25; 26; 35] ++ lit "@" ++ lit "2art.fun")
    plainEnv = true.
Proof.
  apply generated_address_allowed.
  - vm_compute. by left.
  - by repeat constructor.
Defined.

Lemma emailRow_html_only_witness :
  e_text_content
    (emailRow {| msg_to := lit "joe@2art.fun";
                 msg_raw := lit "Content-Type: text/html" ++ CRLF ++ CRLF
                            ++ lit "<p>Hi <b>there</b></p>" |}
       (lit "id0") 0)
  = htmlToText (lit "<p>Hi <b>there</b></p>").
Proof.
  apply (emailRow_html_only (lit "Content-Type: text/html")
           (lit "<p>Hi <b>there</b></p>") (lit "text/html")
           (lit "joe@2art.fun") (lit "id0") 0);
    by vm_compute.
Defined.

Lemma cleanupOldEmails_keeps_consistent_witness :
  let db := handleEmail attachmentMessage plainEnv sampleIds 0 emptyDatabase in
  consistent (fst (cleanupOldEmails (db, ∅) 86400001)).
Proof.
  intros db.
  assert (Hdb : consistent db).
  { unfold consistent.
    let d := eval vm_compute in db in change db with d.
    cbn [db_emails db_attachments map e_id a_id a_email_id].
    split; [|split].
    - repeat constructor. apply not_elem_of_nil.
    - repeat constructor. apply not_elem_of_nil.
    - constructor; [by left | constructor]. }
  exact (proj1 (cleanupOldEmails_keeps_consistent db ∅ 86400001 Hdb)).
Defined.

Lemma cleanupOldEmails_keeps_running_windows_witness :
  let cleaned := snd (cleanupOldEmails (emptyDatabase, usedUpLimits) 200000) in
  usedUpLimits !! (lit "1.2.3.4", lit "/api/generate", 0) = Some 4
  /\ cleaned !! (lit "1.2.3.4", lit "/api/generate", 0) = None
  /\ allowed (fst (checkRateLimit cleaned 150000 (lit "1.2.3.4")
                     (lit "/api/generate") false false))
     = false.
Proof.
  intros cleaned. split; [by vm_compute|]. split; [by vm_compute|].
  subst cleaned.
  rewrite (cleanupOldEmails_keeps_running_windows emptyDatabase usedUpLimits
             200000 150000 (lit "1.2.3.4") (lit "/api/generate") false false)
    by lia.
  by vm_compute.
Defined.
